(** * Memory planning pass of the JIT: a shallow embedding

    Embedding of [torch/csrc/jit/passes/memory_planning.cpp]: the static
    planner [planMemory], the trace based planner [planMemoryWithTracing],
    the extraction of live ranges from a recorded list of memory events and
    the two materializers that write a plan back into the graph.

    Conventions.
    - [uint64_t] and [int64_t] values are integers of [Z]; the places where
      the C++ arithmetic wraps are written with [wrap64] and [to_int64].
    - [std::unordered_map] is an association list without repeated keys; its
      iteration order, which C++ leaves unspecified, is the order of the
      list (insertion order). What is stated of a loop over such a map is
      stated of the loop over any list, hence for every order; an input
      on which a claim fails because of the order is given for the order
      of insertion and for its reverse.
    - [std::map] with a comparator is an association list kept sorted by
      the comparator, two keys being the same key when neither is smaller.
    - [std::sort] is an insertion sort on the comparator. It keeps equal
      keys in the order they had, which C++ does not promise: what is
      stated of a sorted list is that it is a sorted permutation.
    - A failed [TORCH_INTERNAL_ASSERT] or [TORCH_CHECK] is the [Err] result;
      [TORCH_WARN] appends to a list of warnings. *)

From Stdlib Require Import ZArith List Bool String Lia Permutation Sorted.
Import ListNotations.
Open Scope Z_scope.

Set Implicit Arguments.

(* ================================================================== *)
(** ** Machine integers *)

Definition two64 : Z := 2 ^ 64.

(** Value of an integer expression computed in [uint64_t]. *)
Definition wrap64 (z : Z) : Z := z mod two64.

(** Conversion to [int64_t], as in [Node::i_], which stores [int64_t]. *)
Definition to_int64 (z : Z) : Z :=
  let w := wrap64 z in if w <? 2 ^ 63 then w else w - two64.

(** Conversion of a stored [int64_t] back to [uint64_t]. *)
Definition to_uint64 (z : Z) : Z := wrap64 z.

(** Conversion to [int8_t], used for the device and dtype attributes. *)
Definition to_int8 (z : Z) : Z :=
  let w := z mod 256 in if w <? 128 then w else w - 256.

Definition is_u64 (z : Z) : Prop := 0 <= z < two64.

(* ================================================================== *)
(** ** Results and warnings *)

Inductive Failure : Type :=
| InternalAssert (what : string)
| CheckFailed (what : string)
| BadAccess (what : string).

Inductive result (A : Type) : Type :=
| Ok (a : A)
| Err (e : Failure).

Arguments Ok {A} a.
Arguments Err {A} e.

Definition bind {A B : Type} (r : result A) (k : A -> result B) : result B :=
  match r with
  | Ok a => k a
  | Err e => Err e
  end.

Notation "'do' x <- c1 ; c2" := (bind c1 (fun x => c2))
  (at level 60, x pattern, c1 at next level, right associativity).

Definition internal_assert (b : bool) (what : string) : result unit :=
  if b then Ok tt else Err (InternalAssert what).

Definition torch_check (b : bool) (what : string) : result unit :=
  if b then Ok tt else Err (CheckFailed what).

Definition is_ok {A : Type} (r : result A) : bool :=
  match r with Ok _ => true | Err _ => false end.


(* ================================================================== *)
(** ** Keys with a decidable equality *)

Class Eqb (A : Type) : Type := eqb : A -> A -> bool.

Class EqbLaw (A : Type) {E : Eqb A} : Prop :=
  eqb_eq : forall x y : A, eqb x y = true <-> x = y.

Arguments EqbLaw A {E}.

#[export] Instance Eqb_nat : Eqb nat := Nat.eqb.
#[export] Instance Eqb_string : Eqb string := String.eqb.

(* ================================================================== *)
(** ** [std::unordered_map] as an association list *)

Section UnorderedMap.
Context {K V : Type} {E : Eqb K}.

Fixpoint um_find (k : K) (m : list (K * V)) : option V :=
  match m with
  | [] => None
  | (k', v) :: rest => if eqb k k' then Some v else um_find k rest
  end.

(** [m.count(k) > 0] *)
Definition um_mem (k : K) (m : list (K * V)) : bool :=
  match um_find k m with Some _ => true | None => false end.

(** [m.insert({k, v})]: nothing happens when the key is present. *)
Definition um_insert (k : K) (v : V) (m : list (K * V)) : list (K * V) :=
  if um_mem k m then m else m ++ [(k, v)].

(** [m[k] = v]: the value of a present key is overwritten in place. *)
Fixpoint um_set (k : K) (v : V) (m : list (K * V)) : list (K * V) :=
  match m with
  | [] => [(k, v)]
  | (k', v') :: rest =>
      if eqb k k' then (k', v) :: rest else (k', v') :: um_set k v rest
  end.

(** [m[k]] read: the entry is created with the value initialised [d] when
    the key is absent; the map after the access is returned too. *)
Definition um_index (d : V) (k : K) (m : list (K * V)) : V * list (K * V) :=
  match um_find k m with
  | Some v => (v, m)
  | None => (d, m ++ [(k, d)])
  end.

(** [m[k]] read on a copy of the map that is not used afterwards. *)
Definition um_get_default (d : V) (k : K) (m : list (K * V)) : V :=
  fst (um_index d k m).

(** [m[k].emplace_back(x)] on a map of vectors. *)
Fixpoint um_push {X : Type} (k : K) (x : X) (m : list (K * list X))
  : list (K * list X) :=
  match m with
  | [] => [(k, [x])]
  | (k', xs) :: rest =>
      if eqb k k' then (k', xs ++ [x]) :: rest else (k', xs) :: um_push k x rest
  end.
End UnorderedMap.

(* ================================================================== *)
(** ** [std::sort] as a stable insertion sort *)

Section Sort.
Context {A : Type}.
Variable lt : A -> A -> bool.

Fixpoint sort_insert (x : A) (l : list A) : list A :=
  match l with
  | [] => [x]
  | y :: t => if lt y x then y :: sort_insert x t else x :: y :: t
  end.

Definition sort (l : list A) : list A := fold_right sort_insert [] l.
End Sort.

(** Comparator "smaller key first" for an integer key. *)
Definition key_lt {A : Type} (key : A -> Z) (a b : A) : bool := key a <? key b.

(** The order in which [sort (key_lt key)] leaves a list. *)
Definition key_le {A : Type} (key : A -> Z) (a b : A) : Prop := key a <= key b.

(* ================================================================== *)
(** ** [std::map] with a comparator as a sorted association list *)

Section OrderedMap.
Context {K V : Type}.
Variable lt : K -> K -> bool.

(** Two keys are the same key of the map when neither is smaller. *)
Definition om_equiv (a b : K) : bool := negb (lt a b) && negb (lt b a).

Fixpoint om_find (k : K) (m : list (K * V)) : option V :=
  match m with
  | [] => None
  | (k', v) :: rest => if om_equiv k k' then Some v else om_find k rest
  end.

(** [m.count(k)] *)
Definition om_mem (k : K) (m : list (K * V)) : bool :=
  match om_find k m with Some _ => true | None => false end.

(** [m.insert({k, v})]: nothing happens when an equivalent key is present. *)
Fixpoint om_insert (k : K) (v : V) (m : list (K * V)) : list (K * V) :=
  match m with
  | [] => [(k, v)]
  | (k', v') :: rest =>
      if lt k k' then (k, v) :: (k', v') :: rest
      else if lt k' k then (k', v') :: om_insert k v rest
      else (k', v') :: rest
  end.
End OrderedMap.

(* ================================================================== *)
(** ** Arena model: live ranges, regions, memory events *)

Module LiveRange.
Record t : Type := mk { begin : Z; end_ : Z }.
End LiveRange.

Module Region.
Record t : Type := mk { offset : Z; size : Z }.
End Region.

#[export] Instance Eqb_LiveRange : Eqb LiveRange.t :=
  fun a b => (LiveRange.begin a =? LiveRange.begin b)
             && (LiveRange.end_ a =? LiveRange.end_ b).

(** Value initialised [LiveRange{}] and [Region{}]. *)
Definition default_LiveRange : LiveRange.t := LiveRange.mk 0 0.
Definition default_Region : Region.t := Region.mk 0 0.

Inductive EventType : Type := Allocate | Free.

Definition EventType_eqb (a b : EventType) : bool :=
  match a, b with
  | Allocate, Allocate | Free, Free => true
  | _, _ => false
  end.

Module MemEvent.
Record t : Type := mk {
  time : Z;
  allocation_trace : string;
  ptr_addr : string;
  node_schema : string;
  node_header : string;
  size : Z;
  type : EventType
}.
End MemEvent.

Module FrameNodeId.
Record t : Type := mk {
  pc : Z;
  node_schema : string;
  node_header : string
}.
End FrameNodeId.

#[export] Instance Eqb_FrameNodeId : Eqb FrameNodeId.t :=
  fun a b => (FrameNodeId.pc a =? FrameNodeId.pc b)
             && String.eqb (FrameNodeId.node_schema a) (FrameNodeId.node_schema b)
             && String.eqb (FrameNodeId.node_header a) (FrameNodeId.node_header b).

Inductive Strategy : Type :=
| NAIVE
| LINEAR_SCAN
| GREEDY_BY_SIZE
| GREEDY_BY_BREADTH.

(** Modelled from the spec: the comparators [live_range_start_cmp] and
    [frame_node_id_cmp] are declared in [memory_planning.h], which is not
    part of the sources at hand. The spec gives them as "[start_cmp] (by
    [begin] ascending), [frame_cmp] (by [FrameNodeId.time] ascending)". *)
Definition live_range_start_cmp (a b : LiveRange.t) : bool :=
  LiveRange.begin a <? LiveRange.begin b.

Definition frame_node_id_cmp
  (a b : FrameNodeId.t * list LiveRange.t) : bool :=
  FrameNodeId.pc (fst a) <? FrameNodeId.pc (fst b).

(** Modelled from the spec: the predicates on ranges and regions come with
    the packing heuristics, whose sources are missing. "Two ranges overlap
    iff their intervals intersect", the intervals being closed; "two
    regions collide iff [[offset, offset+size)] intervals intersect". *)
Definition overlap (a b : LiveRange.t) : bool :=
  Z.max (LiveRange.begin a) (LiveRange.begin b)
  <=? Z.min (LiveRange.end_ a) (LiveRange.end_ b).

Definition collide (a b : Region.t) : bool :=
  Z.max (Region.offset a) (Region.offset b)
  <? Z.min (Region.offset a + Region.size a) (Region.offset b + Region.size b).

(** The plan: [std::unordered_map<LiveRange, Region, live_range_hash>]. *)
Definition Plan : Type := list (LiveRange.t * Region.t).

(** [std::unordered_map<LiveRange, uint64_t, live_range_hash>]. *)
Definition ManagedRanges : Type := list (LiveRange.t * Z).

(* ================================================================== *)
(** ** Graph IR (the part of the interface the pass uses) *)

(** A [Value*] is identified by its unique number. *)
Definition Value : Type := nat.

Inductive NodeKind : Type :=
| OpKind (name : string)
| AllocateStorage
| AllocateTensor
| PreAllocateTensor.

Definition NodeKind_eqb (a b : NodeKind) : bool :=
  match a, b with
  | OpKind x, OpKind y => String.eqb x y
  | AllocateStorage, AllocateStorage => true
  | AllocateTensor, AllocateTensor => true
  | PreAllocateTensor, PreAllocateTensor => true
  | _, _ => false
  end.

Inductive AttrValue : Type :=
| AttrInt (i : Z)
| AttrInts (l : list Z).

Module Node.
(** [id] stands for the address of the node ([Node*]). *)
Record t : Type := mk {
  id : nat;
  kind : NodeKind;
  inputs : list Value;
  outputs : list Value;
  attrs : list (string * AttrValue)
}.
End Node.

Module Graph.
(** The node list in topological order, and the counters from which
    [Graph::create] takes fresh nodes and fresh values. *)
Record t : Type := mk {
  nodes : list Node.t;
  next_node : nat;
  next_value : nat
}.
End Graph.

Module TensorType.
Record t : Type := mk {
  scalarType : option Z;
  sizes : option (list Z);
  strides : option (list Z);
  numel : option Z
}.
End TensorType.

(** What the pass consumes from the rest of the system, on the graph it is
    given: the types of the values, [c10::elementSize], the operator
    registry ([getAllOperatorsFor], each overload by the names of its
    arguments), [isOptimizableContainerType], the alias analysis
    ([GetAlwaysAliveValues], and the second component of [GetLiveness] in
    its iteration order), [tensorexpr::pickDeviceType], [getHeader],
    [canonicalSchemaString(node->schema())], and the position of a node in
    the schedule. *)
Record Env : Type := mkEnv {
  value_type : Value -> option TensorType.t;
  elementSize : Z -> Z;
  getAllOperatorsFor : NodeKind -> list (list string);
  isOptimizableContainerType : Node.t -> bool;
  always_alive : list Value;
  liveness : list (Value * LiveRange.t);
  pickDeviceType : option Z;
  getHeader : Node.t -> string;
  canonicalSchemaString : Node.t -> string;
  node_time : Node.t -> Z
}.

(** [at::kCPU] *)
Definition kCPU : Z := 0.

(** [node->i(name)]: reading an attribute that is not set throws. *)
Definition attr_i (n : Node.t) (name : string) : result Z :=
  match um_find name (Node.attrs n) with
  | Some (AttrInt i) => Ok i
  | _ => Err (BadAccess name)
  end.

(** [node->i_(name, v)] and [node->is_(name, v)]. *)
Definition set_i (name : string) (v : Z) (n : Node.t) : Node.t :=
  Node.mk (Node.id n) (Node.kind n) (Node.inputs n) (Node.outputs n)
          (um_set name (AttrInt (to_int64 v)) (Node.attrs n)).

Definition set_is (name : string) (v : list Z) (n : Node.t) : Node.t :=
  Node.mk (Node.id n) (Node.kind n) (Node.inputs n) (Node.outputs n)
          (um_set name (AttrInts v) (Node.attrs n)).

(** [node->addInput(v)] on a node that is not yet in the graph. *)
Definition add_input (v : Value) (n : Node.t) : Node.t :=
  Node.mk (Node.id n) (Node.kind n) (Node.inputs n ++ [v]) (Node.outputs n)
          (Node.attrs n).

(** [graph->create(kind, num_outputs)]: a node with fresh outputs, not yet
    inserted. *)
Definition create (g : Graph.t) (k : NodeKind) (num_outputs : nat)
  : Node.t * Graph.t :=
  (Node.mk (Graph.next_node g) k [] (seq (Graph.next_value g) num_outputs) [],
   Graph.mk (Graph.nodes g) (S (Graph.next_node g))
            (Graph.next_value g + num_outputs)%nat).

(** [node->output()]: the node must have exactly one output. *)
Definition output (n : Node.t) : result Value :=
  match Node.outputs n with
  | [v] => Ok v
  | _ => Err (InternalAssert "outputs_.size() == 1")
  end.

(** [value->node()]: the node that owns the value. *)
Fixpoint producer (v : Value) (ns : list Node.t) : option Node.t :=
  match ns with
  | [] => None
  | n :: rest =>
      if existsb (Nat.eqb v) (Node.outputs n) then Some n else producer v rest
  end.

(** [target->addInput(v)] for a node of the graph, found by its address. *)
Definition add_input_at (target : nat) (v : Value) (ns : list Node.t)
  : list Node.t :=
  map (fun n => if Nat.eqb (Node.id n) target then add_input v n else n) ns.

(** [fresh->insertBefore(target)]. *)
Fixpoint insert_before (fresh : Node.t) (target : nat) (ns : list Node.t)
  : list Node.t :=
  match ns with
  | [] => []
  | n :: rest =>
      if Nat.eqb (Node.id n) target then fresh :: n :: rest
      else n :: insert_before fresh target rest
  end.

Definition with_nodes (g : Graph.t) (ns : list Node.t) : Graph.t :=
  Graph.mk ns (Graph.next_node g) (Graph.next_value g).

(* ================================================================== *)
(** ** Warnings raised with [TORCH_WARN] *)

Inductive Warning : Type :=
| WarnNotTensorType (v : Value)
| WarnNoScalarType (v : Value)
| WarnNoSizes (v : Value)
| WarnNoNumel (v : Value)
| WarnUnsupportedValue (v : Value)
| WarnOverlappingLiveRanges (v other : Value).

(* ================================================================== *)
(** ** Packing heuristics *)

(** Modelled from the spec: [linearScanHeuristic] ([linear_scan.h] and its
    source are missing). "Sweep LiveRanges in [begin] ascending order.
    Maintain an active set of currently assigned ranges. When processing
    [r]: evict from the active set every range with [end < r.begin]; find
    the lowest non-negative offset at which a size-[size(r)] block fits
    without colliding with any remaining active range's region, scanning
    free gaps in ascending-offset order, and if no interior gap is large
    enough, append at the current high-water mark; assign
    [r -> Region{offset, size(r)}]; insert [r] into the active set." *)
Fixpoint scan_gaps (sz cursor : Z) (regions : list Region.t) : Z :=
  match regions with
  | [] => cursor
  | p :: rest =>
      if sz <=? Region.offset p - cursor then cursor
      else scan_gaps sz (Z.max cursor (Region.offset p + Region.size p)) rest
  end.

Definition lowest_gap (sz : Z) (active : Plan) : Z :=
  scan_gaps sz 0 (sort (key_lt Region.offset) (map snd active)).

Definition evict (r : LiveRange.t) (active : Plan) : Plan :=
  filter (fun a => negb (LiveRange.end_ (fst a) <? LiveRange.begin r)) active.

Fixpoint linear_scan_sweep (todo : ManagedRanges) (active plan : Plan) : Plan :=
  match todo with
  | [] => plan
  | (r, sz) :: rest =>
      let active' := evict r active in
      let reg := Region.mk (lowest_gap sz active') sz in
      linear_scan_sweep rest (active' ++ [(r, reg)]) (um_insert r reg plan)
  end.

Definition linearScanHeuristic (managed_live_ranges : ManagedRanges) : Plan :=
  linear_scan_sweep
    (sort (key_lt (fun x => LiveRange.begin (fst x))) managed_live_ranges)
    [] [].

(** Modelled from the spec: [greedyBySize] ([greedy_by_size.h] and its
    source are missing). "Sort the input ranges in descending [size],
    breaking ties by ascending [begin], then ascending [end]. Iterate in
    that order; for each [r], compute the set of already-placed ranges
    whose LiveRange overlaps [r]. Choose the lowest offset at which a
    size-[size(r)] block avoids colliding with any of those overlapping
    placements. The scan considers: offset 0; for every overlapping placed
    region, the offset immediately after it. Pick the minimum candidate
    that fits. Record the placement." *)
Definition size_order_lt (a b : LiveRange.t * Z) : bool :=
  (snd b <? snd a)
  || ((snd a =? snd b)
      && ((LiveRange.begin (fst a) <? LiveRange.begin (fst b))
          || ((LiveRange.begin (fst a) =? LiveRange.begin (fst b))
              && (LiveRange.end_ (fst a) <? LiveRange.end_ (fst b))))).

Definition fits (sz off : Z) (placed : list Region.t) : bool :=
  forallb (fun p => negb (collide (Region.mk off sz) p)) placed.

Definition candidates (placed : list Region.t) : list Z :=
  0 :: map (fun p => Region.offset p + Region.size p) placed.

(** The minimum of the candidates that fit. The highest candidate always
    fits ([lowest_fitting_offset_fits] below), so the first branch is
    there only to make the function total. *)
Definition lowest_fitting_offset (sz : Z) (placed : list Region.t) : Z :=
  match filter (fun c => fits sz c placed) (candidates placed) with
  | [] => fold_left Z.max (candidates placed) 0
  | c :: cs => fold_left Z.min cs c
  end.

Definition overlapping_placements (r : LiveRange.t) (plan : Plan)
  : list Region.t :=
  map snd (filter (fun p => overlap (fst p) r) plan).

Definition place (plan : Plan) (item : LiveRange.t * Z) : Plan :=
  let (r, sz) := item in
  um_insert r
    (Region.mk (lowest_fitting_offset sz (overlapping_placements r plan)) sz)
    plan.

Definition greedyBySize (managed_live_ranges : ManagedRanges) : Plan :=
  fold_left place (sort size_order_lt managed_live_ranges) [].

(** Modelled from the spec: [greedyByOperatorBreadth] ([greedy_by_breadth.h]
    and its source are missing). "For each node in [outNodes], compute its
    breadth by summing [sizes[v]] over values [v] whose LiveRange contains
    the node's timestamp. Sort nodes by breadth descending. In that order,
    for each node, take its output values (still in graph order) and place
    them using the same lowest-offset-that-fits rule as greedy-by-size
    against all prior placements." The values placed are the managed ones,
    those with a size and a range. *)
Definition contains (r : LiveRange.t) (t : Z) : bool :=
  (LiveRange.begin r <=? t) && (t <=? LiveRange.end_ r).

Definition breadth (env : Env)
  (managed_tensor_sizes : list (Value * Z))
  (live_ranges : list (Value * LiveRange.t)) (n : Node.t) : Z :=
  fold_left
    (fun acc item =>
       match um_find (fst item) live_ranges with
       | Some r => if contains r (node_time env n) then acc + snd item else acc
       | None => acc
       end)
    managed_tensor_sizes 0.

Definition managed_outputs
  (managed_tensor_sizes : list (Value * Z))
  (live_ranges : list (Value * LiveRange.t)) (n : Node.t)
  : list (LiveRange.t * Z) :=
  flat_map
    (fun v =>
       match um_find v live_ranges, um_find v managed_tensor_sizes with
       | Some r, Some sz => [(r, sz)]
       | _, _ => []
       end)
    (Node.outputs n).

Definition greedyByOperatorBreadth (env : Env)
  (managed_tensor_sizes : list (Value * Z))
  (live_ranges : list (Value * LiveRange.t))
  (ops : list Node.t) : Plan :=
  let by_breadth :=
    sort (fun a b => breadth env managed_tensor_sizes live_ranges b
                     <? breadth env managed_tensor_sizes live_ranges a) ops in
  fold_left place
    (flat_map (managed_outputs managed_tensor_sizes live_ranges) by_breadth)
    [].

(* ================================================================== *)
(** ** The pass: helpers on values and types *)

Definition computeStorageSize (env : Env) (value : Value)
  : option Z * list Warning :=
  match value_type env value with
  | None => (None, [WarnNotTensorType value])
  | Some ttp =>
      match TensorType.scalarType ttp with
      | None => (None, [WarnNoScalarType value])
      | Some scalar_type =>
          match TensorType.sizes ttp with
          | None => (None, [WarnNoSizes value])
          | Some _ =>
              (* the second test of [scalar_type.has_value()] cannot fail *)
              match TensorType.numel ttp with
              | None => (None, [WarnNoNumel value])
              | Some numel =>
                  (Some (wrap64 (numel * elementSize env scalar_type)), [])
              end
          end
      end
  end.

(** Modelled from the spec: [at::detail::defaultStrides] is outside the
    sources at hand; the spec has "defaulting stride to the contiguous
    default". *)
Fixpoint defaultStrides (sizes : list Z) : list Z :=
  match sizes with
  | [] => []
  | _ :: rest => fold_right Z.mul 1 rest :: defaultStrides rest
  end.

Definition concrete_or_zero (o : option (list Z)) : option (list Z) :=
  match o with
  | Some (x :: rest) => if x =? 0 then None else Some (x :: rest)
  | _ => None
  end.

Definition getSizesStrides (ttp : TensorType.t) : list Z * list Z :=
  let sizes :=
    match concrete_or_zero (TensorType.sizes ttp) with
    | Some s => s
    | None => [0]
    end in
  let strides :=
    match concrete_or_zero (TensorType.strides ttp) with
    | Some s => s
    | None => defaultStrides sizes
    end in
  (sizes, strides).

Definition hasOutVariant (env : Env) (node : Node.t) : bool :=
  existsb (fun variant_args => existsb (fun arg => String.eqb arg "out") variant_args)
          (getAllOperatorsFor env (Node.kind node)).

(** [std::string::compare]: zero exactly when the strings are equal. *)
Definition string_compare (a b : string) : Z :=
  match String.compare a b with
  | Eq => 0
  | Lt => -1
  | Gt => 1
  end.

(** An [int] used as a condition, and [!] applied to an [int]. *)
Definition int_to_bool (z : Z) : bool := negb (z =? 0).
Definition int_not (z : Z) : bool := z =? 0.

(* ================================================================== *)
(** ** Materialization *)

Definition insertAllocStorageNode (env : Env) (graph : Graph.t) (total_size : Z)
  : Node.t * Graph.t :=
  let (storage0, g1) := create graph AllocateStorage 1 in
  let storage1 := set_i "total_size" total_size storage0 in
  let storage :=
    match pickDeviceType env with
    | Some deviceType => set_i "device" (to_int8 deviceType) storage1
    | None => set_i "device" (to_int8 kCPU) storage1
    end in
  (storage, with_nodes g1 (storage :: Graph.nodes g1)).

(** One iteration of the loop of [insertAllocTensorNodes]. The attributes
    and the input of the fresh node are set in the source after it has been
    linked into the graph; here the node is built first, the checks being
    kept in the order of the source. *)
Definition insertAllocTensorNode (env : Env) (storage : Node.t) (total_size : Z)
  (allocations : Plan) (graph : Graph.t) (item : LiveRange.t * Value)
  : result Graph.t :=
  let (lvr, allocation) := item in
  let region := um_get_default default_Region lvr allocations in
  match producer allocation (Graph.nodes graph) with
  | None => Err (BadAccess "allocation->node()")
  | Some node =>
      let (alloc0, g1) := create graph AllocateTensor 1 in
      do alloc_out <- output alloc0;
      do storage_out <- output storage;
      match value_type env allocation with
      | None => Err (InternalAssert "expect<TensorType>")
      | Some ttp =>
          let (sizes, strides) := getSizesStrides ttp in
          do _ <- torch_check
                    (wrap64 (Region.offset region + Region.size region)
                     <=? total_size)
                    "trying to create an allocation that exceeds previously planned memory";
          do device <- attr_i storage "device";
          match TensorType.scalarType ttp with
          | None => Err (BadAccess "scalarType().value()")
          | Some dtype =>
              let alloc :=
                set_i "dtype" (to_int8 dtype)
                  (set_i "device" (to_int8 device)
                     (set_is "stride" strides
                        (set_is "sizes" sizes
                           (set_i "offset" (Region.offset region)
                              (set_i "size" (Region.size region)
                                 (add_input storage_out alloc0)))))) in
              Ok (with_nodes g1
                    (insert_before alloc (Node.id node)
                       (add_input_at (Node.id node) alloc_out (Graph.nodes g1))))
          end
      end
  end.

Fixpoint insertAllocTensorNodes_loop (env : Env) (storage : Node.t)
  (total_size : Z) (allocations : Plan) (graph : Graph.t)
  (items : list (LiveRange.t * Value)) : result Graph.t :=
  match items with
  | [] => Ok graph
  | item :: rest =>
      do g1 <- insertAllocTensorNode env storage total_size allocations graph item;
      insertAllocTensorNodes_loop env storage total_size allocations g1 rest
  end.

Definition insertAllocTensorNodes (env : Env) (graph : Graph.t)
  (storage : Node.t) (allocations : Plan)
  (manage_range_values : list (LiveRange.t * Value)) : result Graph.t :=
  do total_size_attr <- attr_i storage "total_size";
  insertAllocTensorNodes_loop env storage (to_uint64 total_size_attr)
    allocations graph manage_range_values.

(** The iterator [node] of [insertPreAllocTensorNodes]: the nodes before
    it, and the nodes from it on. The node list of the IR ends in the
    return node, which has no schema: running past the last node is a
    failure. *)
Module Cursor.
Record t : Type := mk {
  before : list Node.t;
  after : list Node.t;
  next_node : nat;
  next_value : nat
}.
End Cursor.

(** [while (!getHeader( *node ).compare(node_header)) node++] *)
Fixpoint advance (env : Env) (node_header : string)
  (before after : list Node.t) : result (list Node.t * list Node.t) :=
  match after with
  | [] => Err (BadAccess "node past the end of the graph")
  | n :: rest =>
      if int_not (string_compare (getHeader env n) node_header)
      then advance env node_header (before ++ [n]) rest
      else Ok (before, after)
  end.

(** [alloc->insertBefore( *node )] for every range of one frame. *)
Fixpoint insertPreAllocs (allocations : Plan) (c : Cursor.t)
  (lvrs : list LiveRange.t) : Cursor.t :=
  match lvrs with
  | [] => c
  | lvr :: rest =>
      let region := um_get_default default_Region lvr allocations in
      let alloc :=
        set_i "offset" (Region.offset region)
          (set_i "size" (Region.size region)
             (Node.mk (Cursor.next_node c) PreAllocateTensor [] [] [])) in
      insertPreAllocs allocations
        (Cursor.mk (Cursor.before c ++ [alloc]) (Cursor.after c)
                   (S (Cursor.next_node c)) (Cursor.next_value c))
        rest
  end.

Definition insertPreAllocGroup (env : Env) (allocations : Plan) (c : Cursor.t)
  (item : FrameNodeId.t * list LiveRange.t) : result Cursor.t :=
  let (frame_id, lvrs0) := item in
  let lvrs := sort live_range_start_cmp lvrs0 in
  do moved <- advance env (FrameNodeId.node_header frame_id)
                (Cursor.before c) (Cursor.after c);
  let (before, after) := moved in
  match after with
  | [] => Err (BadAccess "node past the end of the graph")
  | node :: _ =>
      do _ <- internal_assert
                (int_to_bool
                   (string_compare (canonicalSchemaString env node)
                      (FrameNodeId.node_header frame_id)))
                "canonicalSchemaString(node->schema()).compare(frame_id.node_header)";
      Ok (insertPreAllocs allocations
            (Cursor.mk before after (Cursor.next_node c) (Cursor.next_value c))
            lvrs)
  end.

Fixpoint insertPreAllocGroups (env : Env) (allocations : Plan) (c : Cursor.t)
  (items : list (FrameNodeId.t * list LiveRange.t)) : result Cursor.t :=
  match items with
  | [] => Ok c
  | item :: rest =>
      do c1 <- insertPreAllocGroup env allocations c item;
      insertPreAllocGroups env allocations c1 rest
  end.

(** The parameter [storage] is not used by the source (the line reading
    its [total_size] is commented out). *)
Definition insertPreAllocTensorNodes (env : Env) (graph : Graph.t)
  (storage : Node.t) (allocations : Plan)
  (collected_node_live_ranges : list (FrameNodeId.t * list LiveRange.t))
  : result Graph.t :=
  let sorted := sort frame_node_id_cmp collected_node_live_ranges in
  do c <- insertPreAllocGroups env allocations
            (Cursor.mk [] (Graph.nodes graph)
                       (Graph.next_node graph) (Graph.next_value graph))
            sorted;
  Ok (Graph.mk (Cursor.before c ++ Cursor.after c)
               (Cursor.next_node c) (Cursor.next_value c)).

(* ================================================================== *)
(** ** Static liveness extraction *)

(** The inner loop of [getManagedValues], over the outputs of one node.
    The set [leaked_values] of the source is filled and never read. *)
Definition manageOutput (env : Env) (node : Node.t)
  (acc : list (Value * Z) * list Warning) (out_v : Value)
  : list (Value * Z) * list Warning :=
  let (managed_tensor_values, warnings) := acc in
  if existsb (Nat.eqb out_v) (always_alive env) then acc
  else
    let (size, w) := computeStorageSize env out_v in
    match size with
    | Some sz =>
        if 0 <? sz then (um_insert out_v sz managed_tensor_values, warnings ++ w)
        else if isOptimizableContainerType env node
             then (managed_tensor_values, warnings ++ w)
             else (managed_tensor_values,
                   warnings ++ w ++ [WarnUnsupportedValue out_v])
    | None =>
        if isOptimizableContainerType env node
        then (managed_tensor_values, warnings ++ w)
        else (managed_tensor_values,
              warnings ++ w ++ [WarnUnsupportedValue out_v])
    end.

Fixpoint getManagedValues_loop (env : Env) (ns : list Node.t)
  (out_nodes : list Node.t) (acc : list (Value * Z) * list Warning)
  : list Node.t * (list (Value * Z) * list Warning) :=
  match ns with
  | [] => (out_nodes, acc)
  | node :: rest =>
      if hasOutVariant env node
      then getManagedValues_loop env rest (out_nodes ++ [node])
             (fold_left (manageOutput env node) (Node.outputs node) acc)
      else getManagedValues_loop env rest out_nodes acc
  end.

Definition getManagedValues (env : Env) (graph : Graph.t)
  : list Node.t * (list (Value * Z) * list Warning) :=
  getManagedValues_loop env (Graph.nodes graph) [] ([], []).

Definition getManagedStuff (env : Env) (graph : Graph.t)
  : list Node.t * list (Value * Z) * list (Value * LiveRange.t) * list Warning :=
  let live_ranges := liveness env in
  let '(out_nodes, (managed_tensor_values, warnings)) :=
    getManagedValues env graph in
  let managed_ranges :=
    fold_left
      (fun acc lvr =>
         if um_mem (fst lvr) managed_tensor_values
         then um_insert (fst lvr) (snd lvr) acc else acc)
      live_ranges [] in
  (out_nodes, managed_tensor_values, managed_ranges, warnings).

Definition getTotalAllocationSize (allocations : Plan) : Z :=
  fold_left
    (fun total_size item =>
       Z.max total_size
             (wrap64 (Region.offset (snd item) + Region.size (snd item))))
    allocations 0.

(* ================================================================== *)
(** ** Liveness extraction from a trace *)

Definition collectLiveRangesPerNode
  (live_range_node_header : list (LiveRange.t * FrameNodeId.t))
  : list (FrameNodeId.t * list LiveRange.t) :=
  let node_live_ranges :=
    fold_left (fun m item => um_push (snd item) (fst item) m)
              live_range_node_header [] in
  let collected_node_live_ranges :=
    map (fun item => (fst item, sort live_range_start_cmp (snd item)))
        node_live_ranges in
  sort frame_node_id_cmp collected_node_live_ranges.

Module TraceState.
(** The three local containers of [getLiveRangesFromMemEvents]. *)
Record t : Type := mk {
  managed_live_ranges : ManagedRanges;
  live_range_node_header : list (LiveRange.t * FrameNodeId.t);
  allocs : list (string * MemEvent.t)
}.
End TraceState.

(** The body of the loop of [getLiveRangesFromMemEvents]. In the second
    assertion the comparison of the two [node_header]s comes after the
    comma that ends the condition: it is an argument of the message, not a
    part of what is asserted. No statement of the loop erases from
    [allocs]. *)
Definition process_mem_event (st : TraceState.t) (mem_event : MemEvent.t)
  : result TraceState.t :=
  match MemEvent.type mem_event with
  | Allocate =>
      Ok (TraceState.mk
            (TraceState.managed_live_ranges st)
            (TraceState.live_range_node_header st)
            (um_insert (MemEvent.ptr_addr mem_event) mem_event
                       (TraceState.allocs st)))
  | Free =>
      do _ <- internal_assert
                (um_mem (MemEvent.ptr_addr mem_event) (TraceState.allocs st))
                "allocs.count(mem_event.ptr_addr) > 0";
      match um_find (MemEvent.ptr_addr mem_event) (TraceState.allocs st) with
      | None => Err (BadAccess "allocs.at(mem_event.ptr_addr)")
      | Some alloc =>
          do _ <- internal_assert
                    (EventType_eqb (MemEvent.type alloc) Allocate
                     && (MemEvent.size alloc =? MemEvent.size mem_event)
                     && (MemEvent.time alloc <? MemEvent.time mem_event)
                     && String.eqb (MemEvent.node_schema alloc)
                                   (MemEvent.node_schema mem_event))
                    (if String.eqb (MemEvent.node_header alloc)
                                   (MemEvent.node_header mem_event)
                     then "1" else "0");
          let lvr := LiveRange.mk (MemEvent.time alloc) (MemEvent.time mem_event) in
          Ok (TraceState.mk
                (um_insert lvr (MemEvent.size alloc)
                           (TraceState.managed_live_ranges st))
                (TraceState.live_range_node_header st
                 ++ [(lvr, FrameNodeId.mk (MemEvent.time alloc)
                                          (MemEvent.node_schema alloc)
                                          (MemEvent.node_header alloc))])
                (TraceState.allocs st))
      end
  end.

Fixpoint process_mem_events (st : TraceState.t) (mem_events : list MemEvent.t)
  : result TraceState.t :=
  match mem_events with
  | [] => Ok st
  | mem_event :: rest =>
      do st1 <- process_mem_event st mem_event;
      process_mem_events st1 rest
  end.

Definition is_empty {A : Type} (l : list A) : bool :=
  match l with [] => true | _ => false end.

Definition getLiveRangesFromMemEvents (mem_events : list MemEvent.t)
  : result (ManagedRanges * list (LiveRange.t * FrameNodeId.t)) :=
  do st <- process_mem_events (TraceState.mk [] [] []) mem_events;
  do _ <- internal_assert (is_empty (TraceState.allocs st)) "allocs.empty()";
  Ok (TraceState.managed_live_ranges st, TraceState.live_range_node_header st).

(* ================================================================== *)
(** ** The two entry points *)

(** [planMemoryWithTracing] from the call of [greedyBySize] on, that is
    after the extraction has returned. *)
Definition planTracedRanges (env : Env) (graph : Graph.t) (strat : Strategy)
  (managed_live_ranges : ManagedRanges)
  (live_range_node_header : list (LiveRange.t * FrameNodeId.t))
  : result Graph.t :=
  let allocations0 := greedyBySize managed_live_ranges in
  let materialize (allocations : Plan) :=
    let total_size := getTotalAllocationSize allocations in
    let (storage_node, g1) := insertAllocStorageNode env graph total_size in
    let collected_node_live_ranges :=
      collectLiveRangesPerNode live_range_node_header in
    insertPreAllocTensorNodes env g1 storage_node allocations
      collected_node_live_ranges in
  match strat with
  | NAIVE => Ok graph
  | LINEAR_SCAN => materialize (linearScanHeuristic managed_live_ranges)
  | GREEDY_BY_SIZE => materialize (greedyBySize managed_live_ranges)
  | _ => Ok graph
  end.

Definition planMemoryWithTracing (env : Env) (graph : Graph.t)
  (strat : Strategy) (mem_events : list MemEvent.t) : result Graph.t :=
  do _ <- internal_assert (negb (is_empty mem_events)) "!mem_events.empty()";
  do ranges <- getLiveRangesFromMemEvents mem_events;
  planTracedRanges env graph strat (fst ranges) (snd ranges).

(** The first loop of [planMemory]:
    [managed_live_ranges[managed_value_ranges[item.first]] = item.second].
    The inner [operator[]] creates the entry of a value that has no range. *)
Definition managedLiveRanges_step
  (acc : list (Value * LiveRange.t) * ManagedRanges) (item : Value * Z)
  : list (Value * LiveRange.t) * ManagedRanges :=
  let (r, ranges') := um_index default_LiveRange (fst item) (fst acc) in
  (ranges', um_set r (snd item) (snd acc)).

Definition managedLiveRanges (managed_value_sizes : list (Value * Z))
  (managed_value_ranges : list (Value * LiveRange.t))
  : list (Value * LiveRange.t) * ManagedRanges :=
  fold_left managedLiveRanges_step managed_value_sizes
    (managed_value_ranges, []).

(** The [switch] of [planMemory]; [None] stands for the two [return]s. *)
Definition planAllocations (env : Env) (strat : Strategy)
  (managed_value_sizes : list (Value * Z))
  (managed_value_ranges : list (Value * LiveRange.t))
  (managed_live_ranges : ManagedRanges) (out_nodes : list Node.t)
  : option Plan :=
  match strat with
  | NAIVE => None
  | LINEAR_SCAN => Some (linearScanHeuristic managed_live_ranges)
  | GREEDY_BY_SIZE => Some (greedyBySize managed_live_ranges)
  | GREEDY_BY_BREADTH =>
      Some (greedyByOperatorBreadth env managed_value_sizes
              managed_value_ranges out_nodes)
  end.

(** The second loop of [planMemory], which fills [managed_range_values]:
    its body, and the loop. *)
Definition managedRangeValues_step
  (acc : list (LiveRange.t * Value) * list Warning)
  (item : Value * LiveRange.t) : list (LiveRange.t * Value) * list Warning :=
  let (managed_range_values, warnings) := acc in
  let warnings' :=
    match om_find live_range_start_cmp (snd item) managed_range_values with
    | Some other => warnings ++ [WarnOverlappingLiveRanges (fst item) other]
    | None => warnings
    end in
  (om_insert live_range_start_cmp (snd item) (fst item) managed_range_values,
   warnings').

Definition managedRangeValues
  (managed_value_ranges : list (Value * LiveRange.t))
  : list (LiveRange.t * Value) * list Warning :=
  fold_left managedRangeValues_step managed_value_ranges ([], []).

Definition planMemory (env : Env) (graph : Graph.t) (strat : Strategy)
  : result (Graph.t * list Warning) :=
  let '(out_nodes, managed_value_sizes, managed_value_ranges0, warnings) :=
    getManagedStuff env graph in
  let (managed_value_ranges, managed_live_ranges) :=
    managedLiveRanges managed_value_sizes managed_value_ranges0 in
  match planAllocations env strat managed_value_sizes managed_value_ranges
          managed_live_ranges out_nodes with
  | None => Ok (graph, warnings)
  | Some allocations =>
      let total_size := getTotalAllocationSize allocations in
      let (managed_range_values, warnings') :=
        managedRangeValues managed_value_ranges in
      let (storage_node, g1) := insertAllocStorageNode env graph total_size in
      do g2 <- insertAllocTensorNodes env g1 storage_node allocations
                 managed_range_values;
      Ok (g2, warnings ++ warnings')
  end.

(* ================================================================== *)
(** ** The allocator that replays a plan

    Embedding of [MemoryPlanningAllocator] in
    [memory_planning/MemoryPlanningAllocator.cpp]. Addresses are integers;
    the stack [allocs_] is a list whose head is the top. *)

Module DataPtr.
(** [{data, data, &DoNothing, at::Device(device_type_)}]: the pointer, the
    context, which is the pointer again, and the device; the deleter does
    nothing. *)
Record t : Type := mk { data : Z; ctx : Z; device : Z }.
End DataPtr.

Module MemoryPlanningAllocator.
Record t : Type := mk {
  device_type_ : Z;
  allocs_ : list (Z * Z)
}.

(** [push_allocation(buffer, size, offset, device_type)], [buffer_data]
    being [buffer.data()]. *)
Definition push_allocation (a : t) (buffer_data size offset device_type : Z)
  : result t :=
  do _ <- torch_check (device_type =? device_type_ a)
            "device_type == device_type_";
  let start := buffer_data in
  let src := start + offset in
  Ok (mk (device_type_ a) ((size, src) :: allocs_ a)).

(** [allocate(nbytes)]. The entry is popped before its size is checked,
    and [allocs_] is [mutable]: the allocator after the call is returned
    beside the result. [top()] on an empty stack is undefined in C++; it is
    a failure here. *)
Definition allocate (a : t) (nbytes : Z) : t * result DataPtr.t :=
  match allocs_ a with
  | [] => (a, Err (BadAccess "allocs_.top()"))
  | (size, data) :: rest =>
      (mk (device_type_ a) rest,
       do _ <- torch_check (size =? nbytes) "size == nbytes";
       Ok (DataPtr.mk data data (device_type_ a)))
  end.

(** The allocations of a plan pushed one after the other. *)
Fixpoint push_allocations (a : t) (buffer_data device_type : Z)
  (regions : list Region.t) : result t :=
  match regions with
  | [] => Ok a
  | r :: rest =>
      do a1 <- push_allocation a buffer_data (Region.size r) (Region.offset r)
                 device_type;
      push_allocations a1 buffer_data device_type rest
  end.

(** As many calls of [allocate] as there are sizes, each on the allocator
    that the call before has left; the pointers handed out, as long as the
    calls succeed. *)
Fixpoint allocate_all (a : t) (sizes : list Z) : t * result (list DataPtr.t) :=
  match sizes with
  | [] => (a, Ok [])
  | n :: rest =>
      match allocate a n with
      | (a1, Ok p) =>
          match allocate_all a1 rest with
          | (a2, Ok ps) => (a2, Ok (p :: ps))
          | (a2, Err e) => (a2, Err e)
          end
      | (a1, Err e) => (a1, Err e)
      end
  end.
End MemoryPlanningAllocator.

(* ================================================================== *)
(** ** Vocabulary of the statements *)

(** A node that stands for a placement, an [AllocateTensor] or a
    [PreAllocateTensor] node, carries a size and an offset whose sum, in
    64-bit arithmetic, is at most [total]. *)
Definition is_placement (n : Node.t) : bool :=
  match Node.kind n with
  | AllocateTensor | PreAllocateTensor => true
  | _ => false
  end.

Definition placement_within (total : Z) (n : Node.t) : Prop :=
  is_placement n = true ->
  exists sz off,
    attr_i n "size" = Ok sz /\ attr_i n "offset" = Ok off
    /\ wrap64 (off + sz) <= total.

(** The failure of a [TORCH_CHECK]. *)
Definition is_check_failure {A : Type} (r : result A) : bool :=
  match r with
  | Err (CheckFailed _) => true
  | _ => false
  end.

(** The number of nodes of a kind. *)
Definition count_kind (k : NodeKind) (ns : list Node.t) : nat :=
  List.length (filter (fun n => NodeKind_eqb (Node.kind n) k) ns).

(** The value [v] is materialized with [sz] bytes in the graph: some
    [AllocateTensor] node of that size has its output among the inputs of
    the producer of [v]. *)
Definition materialized (ns : list Node.t) (v : Value) (sz : Z) : Prop :=
  exists alloc out node,
    In alloc ns /\ Node.kind alloc = AllocateTensor
    /\ Node.outputs alloc = [out] /\ attr_i alloc "size" = Ok sz
    /\ producer v ns = Some node /\ In out (Node.inputs node).

(** The keys of [managed_range_values] as its comparator sees them. *)
Definition begins (m : list (LiveRange.t * Value)) : list Z :=
  map (fun e => LiveRange.begin (fst e)) m.

(** Entries of a plan with different ranges that overlap have regions that
    do not collide. *)
Definition pairwise_disjoint (P : Plan) : Prop :=
  forall a b,
    In a P -> In b P -> fst a <> fst b ->
    overlap (fst a) (fst b) = true -> collide (snd a) (snd b) = false.

(** The plan [P] is correct for the managed ranges [m]: every range of [m]
    is planned, with a region of the size [m] gives, and two different
    ranges that overlap have regions that do not collide. *)
Definition plan_correct (m : ManagedRanges) (P : Plan) : Prop :=
  (forall r sz, um_find r m = Some sz ->
     exists reg, um_find r P = Some reg /\ Region.size reg = sz)
  /\ (forall r1 r2 reg1 reg2,
        r1 <> r2 -> um_find r1 P = Some reg1 -> um_find r2 P = Some reg2 ->
        overlap r1 r2 = true -> collide reg1 reg2 = false).

(** What [greedyByOperatorBreadth] needs from its arguments to see the
    same problem as the other two heuristics: the sizes form a map, every
    managed value is an output of one of the nodes, as [getManagedValues]
    makes it, and values with the same live range have the same size, so
    that the range has one size. *)
Definition breadth_input_ok (sizes : list (Value * Z))
  (ranges : list (Value * LiveRange.t)) (ops : list Node.t) : Prop :=
  NoDup (map fst sizes)
  /\ (forall v sz, In (v, sz) sizes ->
        exists n, In n ops /\ In v (Node.outputs n))
  /\ (forall v1 v2 s1 s2 r,
        In (v1, s1) sizes -> In (v2, s2) sizes ->
        um_find v1 ranges = Some r -> um_find v2 ranges = Some r -> s1 = s2).

(** The invariant of the sweep of linear scan: every planned range that
    is still live when a range to come begins is in the active set. *)
Definition live_in_active (todo : ManagedRanges) (active plan : Plan) : Prop :=
  forall e item,
    In e plan -> In item todo ->
    LiveRange.begin (fst item) <= LiveRange.end_ (fst e) -> In e active.

(** What is known of a value that [getManagedValues] manages: it is not
    always alive, its type is a tensor type with a scalar type, concrete
    sizes and a number of elements, and its size is their product in
    64-bit arithmetic, which is not 0. *)
Definition managed_entry_ok (env : Env) (e : Value * Z) : Prop :=
  existsb (Nat.eqb (fst e)) (always_alive env) = false
  /\ 0 < snd e < two64
  /\ exists ttp scalar_type numel,
      value_type env (fst e) = Some ttp
      /\ TensorType.scalarType ttp = Some scalar_type
      /\ TensorType.sizes ttp <> None
      /\ TensorType.numel ttp = Some numel
      /\ snd e = wrap64 (numel * elementSize env scalar_type).

(** The node [n'] is the node [n] with inputs added at the end: same
    address, kind, outputs and attributes. *)
Definition gains_inputs (n n' : Node.t) : Prop :=
  Node.id n' = Node.id n /\ Node.kind n' = Node.kind n
  /\ Node.outputs n' = Node.outputs n /\ Node.attrs n' = Node.attrs n
  /\ exists extra, Node.inputs n' = Node.inputs n ++ extra.

(** The nodes of a list that are not of the kind [k]. *)
Definition without_kind (k : NodeKind) (ns : list Node.t) : list Node.t :=
  filter (fun n => negb (NodeKind_eqb (Node.kind n) k)) ns.

(** The number of ranges in the frames given to the materializer. *)
Definition total_ranges (frames : list (FrameNodeId.t * list LiveRange.t)) : nat :=
  list_sum (map (fun item => List.length (snd item)) frames).

(** The ranges that a list of pairs attaches to the frame [fid], in the
    order of the list. *)
Definition ranges_of_frame (fid : FrameNodeId.t)
  (pairs : list (LiveRange.t * FrameNodeId.t)) : list LiveRange.t :=
  map fst (filter (fun p => eqb fid (snd p)) pairs).

(** The number of [Free] events of a trace. *)
Definition count_free (evs : list MemEvent.t) : nat :=
  List.length (filter (fun e => EventType_eqb (MemEvent.type e) Free) evs).

(** The [Allocate] event [a] is what the sweep asks of the allocation that
    the [Free] event [f] releases. *)
Definition matches (a f : MemEvent.t) : Prop :=
  MemEvent.type a = Allocate
  /\ MemEvent.ptr_addr a = MemEvent.ptr_addr f
  /\ MemEvent.size a = MemEvent.size f
  /\ MemEvent.time a < MemEvent.time f
  /\ MemEvent.node_schema a = MemEvent.node_schema f.

(** What holds of the two results of the sweep: every range emitted
    begins before it ends and is paired with a frame whose time is its
    begin, and the ranges of the map are the ranges of the pairs. *)
Definition emitted_ok (st : TraceState.t) : Prop :=
  Forall (fun p => LiveRange.begin (fst p) < LiveRange.end_ (fst p)
                   /\ FrameNodeId.pc (snd p) = LiveRange.begin (fst p))
         (TraceState.live_range_node_header st)
  /\ NoDup (map fst (TraceState.managed_live_ranges st))
  /\ (forall r, In r (map fst (TraceState.managed_live_ranges st))
                <-> In r (map fst (TraceState.live_range_node_header st))).

(** Every open allocation is an [Allocate] event of the events seen so
    far, kept under its own pointer. *)
Definition allocs_from (seen : list MemEvent.t) (st : TraceState.t) : Prop :=
  forall p a,
    um_find p (TraceState.allocs st) = Some a ->
    In a seen /\ MemEvent.type a = Allocate /\ MemEvent.ptr_addr a = p.

(** The values that share a live range have one size. *)
Definition one_size_per_range (sizes : list (Value * Z))
  (ranges : list (Value * LiveRange.t)) : Prop :=
  forall v1 v2 s1 s2 r,
    In (v1, s1) sizes -> In (v2, s2) sizes ->
    um_find v1 ranges = Some r -> um_find v2 ranges = Some r -> s1 = s2.

(** The plan [P] holds the managed ranges [m] of the values: every range
    of [m] is planned, with a region that has the size of a managed value
    with that range, and two different ranges that overlap have regions
    that do not collide. *)
Definition plan_of_values (sizes : list (Value * Z))
  (ranges : list (Value * LiveRange.t)) (m : ManagedRanges) (P : Plan) : Prop :=
  (forall r sz, um_find r m = Some sz ->
     exists reg, um_find r P = Some reg
       /\ exists v, In (v, Region.size reg) sizes /\ um_find v ranges = Some r)
  /\ (forall r1 r2 reg1 reg2,
        r1 <> r2 -> um_find r1 P = Some reg1 -> um_find r2 P = Some reg2 ->
        overlap r1 r2 = true -> collide reg1 reg2 = false).

(** The node [n] is a [PreAllocateTensor] node for the range [lvr] of the
    plan: it has no input and no output and carries the size and the
    offset of the region that the plan gives to the range. *)
Definition prealloc_for (allocations : Plan) (lvr : LiveRange.t) (n : Node.t)
  : Prop :=
  let region := um_get_default default_Region lvr allocations in
  Node.kind n = PreAllocateTensor
  /\ Node.inputs n = [] /\ Node.outputs n = []
  /\ attr_i n "size" = Ok (to_int64 (Region.size region))
  /\ attr_i n "offset" = Ok (to_int64 (Region.offset region)).

(** The plan that [planMemory] takes from its [switch], when it takes
    one. *)
Definition planned_allocations (env : Env) (graph : Graph.t) (strat : Strategy)
  : option Plan :=
  let '(out_nodes, managed_value_sizes, managed_value_ranges0, _) :=
    getManagedStuff env graph in
  let (managed_value_ranges, managed_live_ranges) :=
    managedLiveRanges managed_value_sizes managed_value_ranges0 in
  planAllocations env strat managed_value_sizes managed_value_ranges
    managed_live_ranges out_nodes.

(** A finite map of managed ranges seen as values: one value for each
    entry, numbered from [first] on, with the size and the range of the
    entry; and a node that makes all these values. *)
Fixpoint values_of (first : nat) (m : ManagedRanges)
  : list (Value * Z) * list (Value * LiveRange.t) :=
  match m with
  | [] => ([], [])
  | (r, sz) :: rest =>
      ((first, sz) :: fst (values_of (S first) rest),
       (first, r) :: snd (values_of (S first) rest))
  end.

Definition maker_of (m : ManagedRanges) : Node.t :=
  Node.mk 0 (OpKind "aten::op") [] (map fst (fst (values_of 0 m))) [].

(* ================================================================== *)
(** ** Data of the examples *)

(** An event at time [t] for the pointer [p], with [s] bytes, raised under
    the node with header [h]. *)
Definition mem_event (t : Z) (p : string) (s : Z) (h : string)
  (ty : EventType) : MemEvent.t :=
  MemEvent.mk t "" p "aten::mul.Tensor(Tensor self, Tensor other) -> Tensor" h s ty.

(** The header of a node in the examples: the name of its operator. *)
Definition op_name (n : Node.t) : string :=
  match Node.kind n with
  | OpKind s => s
  | AllocateStorage => "prim::AllocateStorage"
  | AllocateTensor => "prim::AllocateTensor"
  | PreAllocateTensor => "prim::PreAllocateTensor"
  end.

(** An environment in which every operator has an overload with an [out]
    argument, elements are 4 bytes wide, no value is always alive and the
    device is unknown. *)
Definition example_env (types : Value -> option TensorType.t)
  (live : list (Value * LiveRange.t)) : Env :=
  mkEnv types (fun _ => 4)
        (fun k => match k with
                  | OpKind _ => [["self"; "other"]; ["self"; "other"; "out"]]%string
                  | _ => []
                  end)
        (fun _ => false) [] live None op_name op_name
        (fun n => Z.of_nat (Node.id n)).

(** The same environment with an empty operator registry: no node has an
    out variant. *)
Definition bare_env : Env :=
  mkEnv (fun _ => None) (fun _ => 4) (fun _ => []) (fun _ => false) [] [] None
        op_name op_name (fun n => Z.of_nat (Node.id n)).

(** A float tensor type of [n] elements. *)
Definition float_tensor (n : Z) : TensorType.t :=
  TensorType.mk (Some 6) (Some [n]) (Some [1]) (Some n).

(** [%0 = aten::relu(); %1 = aten::mul(%0)] *)
Definition relu_mul : Graph.t :=
  Graph.mk [Node.mk 0 (OpKind "aten::relu") [] [0%nat] [];
            Node.mk 1 (OpKind "aten::mul") [0%nat] [1%nat] []] 2 2.

(** [%0 = aten::mul(); %1 = aten::relu(%0)] *)
Definition mul_relu : Graph.t :=
  Graph.mk [Node.mk 0 (OpKind "aten::mul") [] [0%nat] [];
            Node.mk 1 (OpKind "aten::relu") [0%nat] [1%nat] []] 2 2.

(** One frame, raised under a node with header [aten::mul], with one range
    of 16 bytes. *)
Definition mul_frame : list (FrameNodeId.t * list LiveRange.t) :=
  [(FrameNodeId.mk 1 "aten::mul" "aten::mul", [LiveRange.mk 1 5])].

Definition mul_plan : Plan := [(LiveRange.mk 1 5, Region.mk 0 16)].

Definition no_storage : Node.t := Node.mk 99 AllocateStorage [] [] [].

(** A node with two outputs, [%0] of 16 bytes and [%1] of 8 bytes, both
    live over [0,1], and their consumer, whose output is always alive. *)
Definition twin_graph : Graph.t :=
  Graph.mk [Node.mk 0 (OpKind "aten::std_mean") [] [0%nat; 1%nat] [];
            Node.mk 1 (OpKind "aten::mul") [0%nat; 1%nat] [2%nat] []] 2 3.

Definition twin_env : Env :=
  mkEnv (fun v => match v with
                  | O => Some (float_tensor 4)
                  | S O => Some (float_tensor 2)
                  | _ => None
                  end)
        (fun _ => 4)
        (fun k => match k with
                  | OpKind _ => [["self"; "out"]]%string
                  | _ => []
                  end)
        (fun _ => false) [2%nat]
        [(0%nat, LiveRange.mk 0 1); (1%nat, LiveRange.mk 0 1)]
        None op_name op_name (fun n => Z.of_nat (Node.id n)).

(** Two values of 16 and 8 bytes, made by the two nodes of [relu_mul],
    live over [0,2] and [1,3]. *)
Definition two_sizes : list (Value * Z) := [(0%nat, 16); (1%nat, 8)].

Definition two_ranges : list (Value * LiveRange.t) :=
  [(0%nat, LiveRange.mk 0 2); (1%nat, LiveRange.mk 1 3)].

(** The ranges of the end-to-end scenario of the spec:
    [R1=[0,3]], 100 bytes; [R2=[1,2]], 40; [R3=[4,6]], 60; [R4=[5,7]], 30. *)
Definition scenario : ManagedRanges :=
  [(LiveRange.mk 0 3, 100); (LiveRange.mk 1 2, 40);
   (LiveRange.mk 4 6, 60); (LiveRange.mk 5 7, 30)].

(** The graph [twin_graph] after the storage node for a total of 8 bytes
    has been put in front, and the plan and the map with which
    [planMemory] goes on under linear scan. *)
Definition twin_storage : Node.t :=
  fst (insertAllocStorageNode twin_env twin_graph 8).

Definition twin_with_storage : Graph.t :=
  snd (insertAllocStorageNode twin_env twin_graph 8).

Definition twin_plan : Plan := [(LiveRange.mk 0 1, Region.mk 0 8)].

Definition twin_range_values : list (LiveRange.t * Value) :=
  [(LiveRange.mk 0 1, 0%nat)].

(** Three ranges raised under two frames. *)
Definition three_pairs : list (LiveRange.t * FrameNodeId.t) :=
  [(LiveRange.mk 7 9, FrameNodeId.mk 7 "s" "aten::mul");
   (LiveRange.mk 2 5, FrameNodeId.mk 2 "s" "aten::relu");
   (LiveRange.mk 7 8, FrameNodeId.mk 7 "s" "aten::mul")].

(** An allocator for the device 0 that holds nothing yet, and the regions
    of a plan. *)
Definition idle_allocator : MemoryPlanningAllocator.t :=
  MemoryPlanningAllocator.mk 0 [].

Definition two_regions : list Region.t := [Region.mk 0 100; Region.mk 100 40].

(** A plan for two ranges that overlap, of [2^64 - 8] and of 16 bytes, the
    second placed where the first ends. *)
Definition wide_plan : Plan :=
  [(LiveRange.mk 0 3, Region.mk 0 (2 ^ 64 - 8));
   (LiveRange.mk 1 2, Region.mk (2 ^ 64 - 8) 16)].

(** [twin_graph] and [twin_env] with the two values the other way round:
    [%1] comes before [%0] in the outputs of the node and in the liveness. *)
Definition twin_graph_swapped : Graph.t :=
  Graph.mk [Node.mk 0 (OpKind "aten::std_mean") [] [1%nat; 0%nat] [];
            Node.mk 1 (OpKind "aten::mul") [0%nat; 1%nat] [2%nat] []] 2 3.

Definition twin_env_swapped : Env :=
  mkEnv (value_type twin_env) (elementSize twin_env)
        (getAllOperatorsFor twin_env) (isOptimizableContainerType twin_env)
        (always_alive twin_env)
        [(1%nat, LiveRange.mk 0 1); (0%nat, LiveRange.mk 0 1)]
        (pickDeviceType twin_env) (getHeader twin_env)
        (canonicalSchemaString twin_env) (node_time twin_env).

(** An environment for [relu_mul] in which [%0] has 16 bytes and is live
    over [0,2], and [%1] has 8 bytes and is live over [1,3]. *)
Definition two_env : Env :=
  mkEnv (value_type twin_env) (elementSize twin_env)
        (getAllOperatorsFor twin_env) (isOptimizableContainerType twin_env)
        [] two_ranges
        (pickDeviceType twin_env) (getHeader twin_env)
        (canonicalSchemaString twin_env) (node_time twin_env).

(** A storage node made for a total of 0 bytes on the device 0. *)
Definition zero_storage : Node.t :=
  set_i "device" 0
    (set_i "total_size" 0 (Node.mk 99 AllocateStorage [] [99%nat] [])).

(* ################################################################## *)
(** * Properties *)

(* ================================================================== *)
(** ** Equality tests *)

#[export] Instance EqbLaw_nat : EqbLaw nat.
Proof. exact Nat.eqb_eq. Qed.

#[export] Instance EqbLaw_string : EqbLaw string.
Proof. exact String.eqb_eq. Qed.

#[export] Instance EqbLaw_LiveRange : EqbLaw LiveRange.t.
Proof.
  intros [b1 e1] [b2 e2]. unfold eqb, Eqb_LiveRange. simpl.
  rewrite andb_true_iff, !Z.eqb_eq. split.
  - intros [-> ->]. reflexivity.
  - intros [= -> ->]. auto.
Qed.

#[export] Instance EqbLaw_FrameNodeId : EqbLaw FrameNodeId.t.
Proof.
  intros [p1 s1 h1] [p2 s2 h2]. unfold eqb, Eqb_FrameNodeId. simpl.
  rewrite !andb_true_iff, Z.eqb_eq, !String.eqb_eq. split.
  - intros [[-> ->] ->]. reflexivity.
  - intros [= -> -> ->]. auto.
Qed.

Section EqbFacts.
Context {A : Type} {E : Eqb A} {L : EqbLaw A}.

Lemma eqb_refl (x : A) : eqb x x = true.
Proof. apply eqb_eq. reflexivity. Qed.

Lemma eqb_neq (x y : A) : eqb x y = false <-> x <> y.
Proof.
  split.
  - intros F G. apply eqb_eq in G. congruence.
  - intros N. destruct (eqb x y) eqn:G; [|reflexivity].
    apply eqb_eq in G. contradiction.
Qed.
End EqbFacts.

(* ================================================================== *)
(** ** Association lists *)

Section UnorderedMapFacts.
Context {K V : Type} {E : Eqb K} {L : EqbLaw K}.
Implicit Types (k : K) (v : V) (m : list (K * V)).

Lemma um_find_In k v m : um_find k m = Some v -> In (k, v) m.
Proof.
  induction m as [|[k' v'] m IH]; simpl; [discriminate|].
  destruct (eqb k k') eqn:G.
  - intros [= ->]. apply eqb_eq in G. subst. now left.
  - intros F. right. auto.
Qed.

Lemma um_find_None k m : um_find k m = None <-> ~ In k (map fst m).
Proof.
  induction m as [|[k' v'] m IH]; simpl.
  - tauto.
  - destruct (eqb k k') eqn:G.
    + apply eqb_eq in G. subst. split; [discriminate|]. intros N. exfalso. auto.
    + apply eqb_neq in G. rewrite IH. split.
      * intros N [F|F]; [congruence|contradiction].
      * tauto.
Qed.

Lemma um_find_NoDup k v m :
  NoDup (map fst m) -> In (k, v) m -> um_find k m = Some v.
Proof.
  induction m as [|[k' v'] m IH]; simpl; [tauto|].
  intros ND [G|I].
  - inversion G; subst. now rewrite eqb_refl.
  - inversion ND as [|? ? NI ND']; subst.
    destruct (eqb k k') eqn:G.
    + apply eqb_eq in G. subst. exfalso. apply NI.
      change k' with (fst (k', v)). now apply in_map.
    + auto.
Qed.

Lemma um_find_app k m1 m2 :
  um_find k (m1 ++ m2) =
  match um_find k m1 with Some v => Some v | None => um_find k m2 end.
Proof.
  induction m1 as [|[k' v'] m1 IH]; simpl; [reflexivity|].
  destruct (eqb k k'); auto.
Qed.

Lemma um_mem_true k m : um_mem k m = true <-> In k (map fst m).
Proof.
  unfold um_mem. destruct (um_find k m) eqn:F.
  - split; [intros _|reflexivity].
    apply um_find_In in F. change k with (fst (k, v)). now apply in_map.
  - apply um_find_None in F. split; [discriminate|contradiction].
Qed.

Lemma um_insert_keys k v m x :
  In x (map fst (um_insert k v m)) <-> x = k \/ In x (map fst m).
Proof.
  unfold um_insert. destruct (um_mem k m) eqn:M.
  - apply um_mem_true in M. split; [tauto|]. intros [->|I]; assumption.
  - rewrite map_app, in_app_iff. simpl. intuition.
Qed.

Lemma um_insert_NoDup k v m :
  NoDup (map fst m) -> NoDup (map fst (um_insert k v m)).
Proof.
  intros ND. unfold um_insert. destruct (um_mem k m) eqn:M; [assumption|].
  rewrite map_app. simpl.
  apply NoDup_app; [assumption|repeat constructor; simpl; tauto|].
  intros x I [<-|[]].
  apply um_mem_true in I. congruence.
Qed.

Lemma um_insert_In k v m x :
  In x (um_insert k v m) -> In x m \/ (x = (k, v) /\ um_mem k m = false).
Proof.
  unfold um_insert. destruct (um_mem k m); [tauto|].
  rewrite in_app_iff. simpl. intuition.
Qed.

Lemma um_insert_incl k v m x : In x m -> In x (um_insert k v m).
Proof.
  unfold um_insert. destruct (um_mem k m); [tauto|].
  rewrite in_app_iff. tauto.
Qed.

Lemma um_set_keys k v m x :
  In x (map fst (um_set k v m)) <-> x = k \/ In x (map fst m).
Proof.
  induction m as [|[k' v'] m IH]; simpl.
  - intuition.
  - destruct (eqb k k') eqn:G; simpl.
    + apply eqb_eq in G. subst. intuition.
    + rewrite IH. intuition.
Qed.

Lemma um_set_NoDup k v m :
  NoDup (map fst m) -> NoDup (map fst (um_set k v m)).
Proof.
  induction m as [|[k' v'] m IH]; simpl; intros ND.
  - constructor; [simpl; tauto|constructor].
  - inversion ND as [|? ? NI ND']; subst.
    destruct (eqb k k') eqn:G; simpl.
    + now constructor.
    + constructor; [|auto].
      rewrite um_set_keys. intros [->|I]; [|contradiction].
      rewrite eqb_refl in G. discriminate.
Qed.

Lemma um_find_set k v k0 m :
  um_find k0 (um_set k v m) = if eqb k0 k then Some v else um_find k0 m.
Proof.
  induction m as [|[k' v'] m IH]; simpl.
  - destruct (eqb k0 k); reflexivity.
  - destruct (eqb k k') eqn:G; simpl.
    + apply eqb_eq in G. subst k'. destruct (eqb k0 k); reflexivity.
    + rewrite IH. destruct (eqb k0 k') eqn:G0; [|reflexivity].
      apply eqb_eq in G0. subst k'.
      destruct (eqb k0 k) eqn:G1; [|reflexivity].
      apply eqb_eq in G1. subst. rewrite eqb_refl in G. discriminate.
Qed.
End UnorderedMapFacts.

(* ================================================================== *)
(** ** Sorting *)

Section SortFacts.
Context {A : Type}.
Variable lt : A -> A -> bool.

Lemma sort_insert_perm x l : Permutation (x :: l) (sort_insert lt x l).
Proof.
  induction l as [|y t IH]; simpl; [reflexivity|].
  destruct (lt y x); [|reflexivity].
  rewrite perm_swap. now constructor.
Qed.

Lemma sort_perm l : Permutation l (sort lt l).
Proof.
  induction l as [|x l IH]; simpl; [constructor|].
  rewrite <- sort_insert_perm. now constructor.
Qed.

Lemma sort_In x l : In x (sort lt l) <-> In x l.
Proof.
  split; apply Permutation_in; [symmetry|]; apply sort_perm.
Qed.
End SortFacts.

Section SortByKeyFacts.
Context {A : Type}.
Variable key : A -> Z.

Lemma sort_insert_key_sorted x l :
  StronglySorted (key_le key) l ->
  StronglySorted (key_le key) (sort_insert (key_lt key) x l).
Proof.
  induction 1 as [|y t S IH F]; simpl.
  - repeat constructor.
  - unfold key_lt at 1. destruct (key y <? key x) eqn:G.
    + apply Z.ltb_lt in G. constructor; [assumption|].
      rewrite Forall_forall in *. intros z I.
      apply (Permutation_in _ (Permutation_sym (sort_insert_perm (key_lt key) x t))) in I.
      destruct I as [<-|I]; [unfold key_le; lia|auto].
    + apply Z.ltb_ge in G. constructor.
      * now constructor.
      * constructor; [exact G|].
        rewrite Forall_forall in *. intros z I. specialize (F z I).
        unfold key_le in *. lia.
Qed.

Lemma sort_key_sorted l : StronglySorted (key_le key) (sort (key_lt key) l).
Proof.
  induction l as [|x l IH]; simpl; [constructor|].
  now apply sort_insert_key_sorted.
Qed.
End SortByKeyFacts.

(* ================================================================== *)
(** ** Extraction of live ranges from a trace *)

Lemma um_insert_not_nil {K V : Type} {E : Eqb K} (k : K) (v : V) m :
  um_insert k v m <> [].
Proof.
  unfold um_insert. destruct (um_mem k m) eqn:M.
  - destruct m; [discriminate|discriminate].
  - destruct m; discriminate.
Qed.

(** No step of the sweep takes an entry out of [allocs]: after a step that
    succeeds the map of open allocations is not empty. *)
Lemma process_mem_event_allocs st ev st' :
  process_mem_event st ev = Ok st' -> TraceState.allocs st' <> [].
Proof.
  unfold process_mem_event. destruct (MemEvent.type ev).
  - intros [= <-]. simpl. apply um_insert_not_nil.
  - destruct (um_mem (MemEvent.ptr_addr ev) (TraceState.allocs st)) eqn:M;
      simpl; [|discriminate].
    destruct (um_find (MemEvent.ptr_addr ev) (TraceState.allocs st)) eqn:F;
      [|discriminate].
    match goal with |- context [internal_assert ?c ?s] => destruct c end;
      simpl; [|discriminate].
    intros [= <-]. simpl. intros N. rewrite N in F. discriminate.
Qed.

Lemma process_mem_events_allocs evs : forall st st',
  evs <> [] -> process_mem_events st evs = Ok st' ->
  TraceState.allocs st' <> [].
Proof.
  induction evs as [|ev rest IH]; intros st st' NE; [contradiction|].
  simpl. destruct (process_mem_event st ev) as [st1|] eqn:P; simpl; [|discriminate].
  destruct rest as [|ev' rest'].
  - intros [= <-]. eapply process_mem_event_allocs; eauto.
  - apply IH. discriminate.
Qed.

(** The extraction succeeds on no trace that has an event. *)
Lemma getLiveRangesFromMemEvents_rejects evs :
  evs <> [] -> is_ok (getLiveRangesFromMemEvents evs) = false.
Proof.
  intros NE. unfold getLiveRangesFromMemEvents.
  destruct (process_mem_events (TraceState.mk [] [] []) evs) as [st|] eqn:P;
    simpl; [|reflexivity].
  apply process_mem_events_allocs in P; [|assumption].
  destruct (TraceState.allocs st); [contradiction|reflexivity].
Qed.

(** A [Free] whose allocation is open passes the second assertion as soon
    as size, time and schema agree, whatever the two headers are. *)
Lemma process_free_ignores_header st ev alloc :
  MemEvent.type ev = Free ->
  um_find (MemEvent.ptr_addr ev) (TraceState.allocs st) = Some alloc ->
  MemEvent.type alloc = Allocate ->
  MemEvent.size alloc = MemEvent.size ev ->
  MemEvent.time alloc < MemEvent.time ev ->
  MemEvent.node_schema alloc = MemEvent.node_schema ev ->
  is_ok (process_mem_event st ev) = true.
Proof.
  intros T F TA S Lt Sch. unfold process_mem_event, um_mem.
  rewrite T, F, TA, S, Sch. simpl.
  rewrite Z.eqb_refl, String.eqb_refl.
  apply Z.ltb_lt in Lt. rewrite Lt. reflexivity.
Qed.

(** C2 (the code departs from the claim). On the matched trace
    [Allocate X at 1; Free X at 5], of equal size, schema and header, the
    sweep itself succeeds and emits the range [1,5], but the entry of [X]
    is still in the map of open allocations after its [Free]: the final
    check [allocs.empty()] fails and the trace is rejected. *)
Theorem C2_matched_trace_is_rejected :
  let trace := [mem_event 1 "X" 16 "%1" Allocate; mem_event 5 "X" 16 "%1" Free] in
  (exists st,
      process_mem_events (TraceState.mk [] [] []) trace = Ok st
      /\ TraceState.managed_live_ranges st = [(LiveRange.mk 1 5, 16)]
      /\ um_mem "X"%string (TraceState.allocs st) = true)
  /\ getLiveRangesFromMemEvents trace = Err (InternalAssert "allocs.empty()").
Proof.
  simpl. split; [|reflexivity].
  eexists. split; [reflexivity|]. split; reflexivity.
Qed.

(** C3 (the code departs from the claim). The trace of the spec with two
    matched pairs, [X] of 16 bytes over [1,9] and [Y] of 8 bytes over
    [2,5], yields no list of live ranges at all: the extraction fails on
    its final check, as it does on every trace that has an event
    ([getLiveRangesFromMemEvents_rejects]). *)
Theorem C3_two_pairs_yield_no_ranges :
  getLiveRangesFromMemEvents
    [mem_event 1 "X" 16 "%1" Allocate; mem_event 2 "Y" 8 "%2" Allocate;
     mem_event 5 "Y" 8 "%2" Free; mem_event 9 "X" 16 "%1" Free]
  = Err (InternalAssert "allocs.empty()").
Proof. reflexivity. Qed.

(** C5 (the code departs from the claim). A [Free] of the open pointer [X]
    that agrees with its [Allocate] on size and schema and comes later, but
    carries the header [%2] instead of [%1], raises no assertion: the step
    succeeds and emits the live range [1,5] of 16 bytes. *)
Theorem C5_header_mismatch_is_accepted :
  let alloc := mem_event 1 "X" 16 "%1" Allocate in
  let free := mem_event 5 "X" 16 "%2" Free in
  MemEvent.node_header alloc <> MemEvent.node_header free
  /\ exists st,
      process_mem_event (TraceState.mk [] [] [("X"%string, alloc)]) free = Ok st
      /\ TraceState.managed_live_ranges st = [(LiveRange.mk 1 5, 16)].
Proof.
  simpl. split; [discriminate|].
  eexists. split; reflexivity.
Qed.

(* ================================================================== *)
(** ** Materialization in trace mode: the cursor *)

Lemma string_compare_zero a b : string_compare a b = 0 <-> a = b.
Proof.
  unfold string_compare. destruct (String.compare a b) eqn:C.
  - apply String.compare_eq_iff in C. tauto.
  - split; [discriminate|]. intros ->.
    pose proof (String.compare_antisym b b) as S. rewrite C in S. discriminate.
  - split; [discriminate|]. intros ->.
    pose proof (String.compare_antisym b b) as S. rewrite C in S. discriminate.
Qed.

(** Where the loop of [insertPreAllocTensorNodes] stops, the header of the
    node differs from the header of the frame. *)
Lemma advance_stops_on_other_header env h after : forall before b n rest,
  advance env h before after = Ok (b, n :: rest) -> getHeader env n <> h.
Proof.
  induction after as [|m after IH]; intros before b n rest; simpl; [discriminate|].
  unfold int_not. destruct (string_compare (getHeader env m) h =? 0) eqn:C.
  - apply IH.
  - intros [= _ <- _]. apply Z.eqb_neq in C.
    intros G. apply C. now apply string_compare_zero.
Qed.

(** C4 (the code departs from the claim). With the frame raised under
    [aten::mul]: on the graph [relu; mul] the cursor does not move, since
    the header of [relu] is not the one looked for, the assertion passes
    and the [PreAllocateTensor] node lands before [relu], not before
    [mul]; on the graph [mul; relu] the cursor steps over [mul], whose
    header does match, and the node lands before [relu] again. *)
Theorem C4_prealloc_lands_before_a_node_that_does_not_match :
  let env := example_env (fun _ => None) [] in
  (exists g,
      insertPreAllocTensorNodes env relu_mul no_storage mul_plan mul_frame = Ok g
      /\ map Node.kind (Graph.nodes g)
         = [PreAllocateTensor; OpKind "aten::relu"; OpKind "aten::mul"])
  /\ (exists g,
      insertPreAllocTensorNodes env mul_relu no_storage mul_plan mul_frame = Ok g
      /\ map Node.kind (Graph.nodes g)
         = [OpKind "aten::mul"; PreAllocateTensor; OpKind "aten::relu"]).
Proof.
  simpl. split; eexists; split; reflexivity.
Qed.

(* ================================================================== *)
(** ** The entry points on the strategies that plan nothing *)


(** C8. With the strategy [NAIVE], [planMemory] returns the graph it was
    given: no node is inserted and no node gains an input. Only the
    warnings of the liveness extraction have been raised. *)
Theorem C8_naive_leaves_graph env graph :
  exists warnings, planMemory env graph NAIVE = Ok (graph, warnings).
Proof.
  unfold planMemory.
  destruct (getManagedStuff env graph) as [[[out_nodes sizes] ranges] warnings].
  destruct (managedLiveRanges sizes ranges) as [ranges' managed].
  simpl. eexists. reflexivity.
Qed.

(* ================================================================== *)
(** ** The static planner on an empty managed set *)

Lemma managed_ranges_of_nothing (live : list (Value * LiveRange.t)) :
  fold_left
    (fun acc lvr =>
       if um_mem (fst lvr) (@nil (Value * Z))
       then um_insert (fst lvr) (snd lvr) acc else acc)
    live (@nil (Value * LiveRange.t)) = [].
Proof. induction live as [|x live IH]; simpl; auto. Qed.

Lemma managed_outputs_of_nothing (ops : list Node.t) :
  flat_map (managed_outputs [] []) ops = [].
Proof.
  induction ops as [|n ops IH]; simpl; [reflexivity|].
  rewrite IH, app_nil_r. unfold managed_outputs.
  induction (Node.outputs n) as [|v vs IHv]; simpl; auto.
Qed.

Lemma planAllocations_of_nothing env strat out_nodes :
  strat <> NAIVE -> planAllocations env strat [] [] [] out_nodes = Some [].
Proof.
  intros N. destruct strat; try contradiction; simpl; try reflexivity.
  unfold greedyByOperatorBreadth. now rewrite managed_outputs_of_nothing.
Qed.

(** C9. When no value is managed, [planMemory] with [LINEAR_SCAN],
    [GREEDY_BY_SIZE] or [GREEDY_BY_BREADTH] still changes the graph: the
    node list of the result is the old one with one [AllocateStorage] node
    in front, whose [total_size] is 0, and nothing else is inserted. *)
Theorem C9_empty_managed_set_still_gets_storage env graph strat :
  strat <> NAIVE ->
  fst (snd (getManagedValues env graph)) = [] ->
  exists storage warnings,
    planMemory env graph strat
    = Ok (Graph.mk (storage :: Graph.nodes graph)
                   (S (Graph.next_node graph))
                   (Graph.next_value graph + 1)%nat,
          warnings)
    /\ Node.kind storage = AllocateStorage
    /\ attr_i storage "total_size" = Ok 0.
Proof.
  intros N M. unfold planMemory, getManagedStuff.
  destruct (getManagedValues env graph) as [out_nodes [sizes warnings]].
  simpl in M. subst sizes.
  rewrite managed_ranges_of_nothing. simpl.
  rewrite planAllocations_of_nothing by assumption.
  unfold insertAllocStorageNode. simpl.
  destruct (pickDeviceType env); simpl; eexists; eexists;
    (split; [reflexivity|split; reflexivity]).
Qed.

Lemma C9_witness :
  (GREEDY_BY_BREADTH <> NAIVE
   /\ fst (snd (getManagedValues bare_env relu_mul)) = [])
  /\ exists storage warnings,
    planMemory bare_env relu_mul GREEDY_BY_BREADTH
    = Ok (Graph.mk (storage :: Graph.nodes relu_mul) 3 3, warnings)
    /\ Node.kind storage = AllocateStorage
    /\ attr_i storage "total_size" = Ok 0.
Proof.
  split; [split; [discriminate|reflexivity]|].
  apply (@C9_empty_managed_set_still_gets_storage bare_env relu_mul
           GREEDY_BY_BREADTH); [discriminate|reflexivity].
Defined.

(* ================================================================== *)
(** ** Placements stay within the storage *)

Lemma two64_pos : 0 < two64.
Proof. reflexivity. Qed.

Lemma wrap64_range z : 0 <= wrap64 z < two64.
Proof. unfold wrap64. apply Z.mod_pos_bound. exact two64_pos. Qed.

Lemma wrap64_small z : 0 <= z < two64 -> wrap64 z = z.
Proof. intros R. unfold wrap64. now apply Z.mod_small. Qed.

Lemma wrap64_to_int64 z : wrap64 (to_int64 z) = wrap64 z.
Proof.
  unfold to_int64. destruct (wrap64 z <? 2 ^ 63).
  - unfold wrap64. apply Z.mod_mod. discriminate.
  - unfold wrap64.
    replace (z mod two64 - two64) with (z mod two64 + (-1) * two64) by ring.
    rewrite Z.mod_add by discriminate. apply Z.mod_mod. discriminate.
Qed.

(** Writing a [uint64_t] into an integer attribute and reading it back. *)
Lemma to_uint64_to_int64 z : is_u64 z -> to_uint64 (to_int64 z) = z.
Proof.
  intros R. unfold to_uint64. rewrite wrap64_to_int64. now apply wrap64_small.
Qed.

Lemma wrap64_add_to_int64 a b :
  wrap64 (to_int64 a + to_int64 b) = wrap64 (a + b).
Proof.
  unfold wrap64 at 1. rewrite Z.add_mod by discriminate.
  fold (wrap64 (to_int64 a)). fold (wrap64 (to_int64 b)).
  rewrite !wrap64_to_int64. unfold wrap64.
  rewrite <- Z.add_mod by discriminate. reflexivity.
Qed.

Lemma total_fold_ge (allocations : Plan) : forall acc,
  acc <= fold_left
           (fun total_size item =>
              Z.max total_size
                (wrap64 (Region.offset (snd item) + Region.size (snd item))))
           allocations acc.
Proof.
  induction allocations as [|x l IH]; simpl; intros acc; [lia|].
  etransitivity; [|apply IH]. lia.
Qed.

Lemma total_fold_bound (allocations : Plan) : forall acc x,
  In x allocations ->
  wrap64 (Region.offset (snd x) + Region.size (snd x))
  <= fold_left
       (fun total_size item =>
          Z.max total_size
            (wrap64 (Region.offset (snd item) + Region.size (snd item))))
       allocations acc.
Proof.
  induction allocations as [|y l IH]; simpl; intros acc x; [tauto|].
  intros [->|I]; [|now apply IH].
  etransitivity; [|apply total_fold_ge]. lia.
Qed.

Lemma total_fold_u64 (allocations : Plan) : forall acc,
  is_u64 acc ->
  is_u64 (fold_left
            (fun total_size item =>
               Z.max total_size
                 (wrap64 (Region.offset (snd item) + Region.size (snd item))))
            allocations acc).
Proof.
  induction allocations as [|y l IH]; simpl; intros acc R; [assumption|].
  apply IH. unfold is_u64 in *.
  pose proof (wrap64_range (Region.offset (snd y) + Region.size (snd y))). lia.
Qed.

Lemma getTotalAllocationSize_u64 allocations :
  is_u64 (getTotalAllocationSize allocations).
Proof. apply total_fold_u64. unfold is_u64, two64. lia. Qed.

(** Whatever range is looked up in the plan, the region found, or the
    value initialised region made for a range that is not planned, ends
    below the total. *)
Lemma planned_region_within_total allocations lvr :
  let region := um_get_default default_Region lvr allocations in
  wrap64 (Region.offset region + Region.size region)
  <= getTotalAllocationSize allocations.
Proof.
  unfold um_get_default, um_index.
  destruct (um_find lvr allocations) as [reg|] eqn:F; simpl.
  - apply um_find_In in F.
    apply (total_fold_bound allocations 0 (lvr, reg) F).
  - apply (total_fold_ge allocations 0).
Qed.

Lemma storage_total_size env graph total :
  attr_i (fst (insertAllocStorageNode env graph total)) "total_size"
  = Ok (to_int64 total).
Proof.
  unfold insertAllocStorageNode. simpl.
  destruct (pickDeviceType env); reflexivity.
Qed.

Lemma placement_within_add_input total v n :
  placement_within total n -> placement_within total (add_input v n).
Proof. intros P. exact P. Qed.

Lemma Forall_add_input_at total target v ns :
  Forall (placement_within total) ns ->
  Forall (placement_within total) (add_input_at target v ns).
Proof.
  unfold add_input_at. induction 1 as [|n ns P F IH]; simpl; constructor; auto.
  destruct (Nat.eqb (Node.id n) target); auto.
Qed.

Lemma Forall_insert_before total fresh target ns :
  placement_within total fresh ->
  Forall (placement_within total) ns ->
  Forall (placement_within total) (insert_before fresh target ns).
Proof.
  intros PF. induction 1 as [|n ns P F IH]; simpl; [constructor|].
  destruct (Nat.eqb (Node.id n) target); repeat constructor; auto.
Qed.

(** One [AllocateTensor] node: when the step succeeds the fresh node is
    within the total against which the step checks. *)
Lemma insertAllocTensorNode_within env storage total allocations graph item g' :
  insertAllocTensorNode env storage total allocations graph item = Ok g' ->
  Forall (placement_within total) (Graph.nodes graph) ->
  Forall (placement_within total) (Graph.nodes g').
Proof.
  unfold insertAllocTensorNode. destruct item as [lvr allocation].
  destruct (producer allocation (Graph.nodes graph)) as [node|]; [|discriminate].
  simpl. destruct (output storage) as [storage_out|]; simpl; [|discriminate].
  destruct (value_type env allocation) as [ttp|]; [|discriminate].
  destruct (getSizesStrides ttp) as [sizes strides].
  set (region := um_get_default default_Region lvr allocations).
  destruct (wrap64 (Region.offset region + Region.size region) <=? total) eqn:C;
    simpl; [|discriminate].
  destruct (attr_i storage "device") as [device|]; simpl; [|discriminate].
  destruct (TensorType.scalarType ttp) as [dtype|]; [|discriminate].
  intros [= <-] F. simpl.
  apply Forall_insert_before; [|now apply Forall_add_input_at].
  intros _. exists (to_int64 (Region.size region)), (to_int64 (Region.offset region)).
  split; [reflexivity|]. split; [reflexivity|].
  rewrite wrap64_add_to_int64. now apply Z.leb_le.
Qed.

Lemma insertAllocTensorNodes_loop_within env storage total allocations items :
  forall graph g',
  insertAllocTensorNodes_loop env storage total allocations graph items = Ok g' ->
  Forall (placement_within total) (Graph.nodes graph) ->
  Forall (placement_within total) (Graph.nodes g').
Proof.
  induction items as [|item rest IH]; simpl; intros graph g'.
  - now intros [= <-].
  - destruct (insertAllocTensorNode env storage total allocations graph item)
      as [g1|] eqn:S; simpl; [|discriminate].
    intros L F. eapply IH; [exact L|].
    eapply insertAllocTensorNode_within; eauto.
Qed.

(** The check of [insertAllocTensorNodes] cannot be the reason of a failure
    when the total is the one computed from the plan. *)
Lemma insertAllocTensorNode_check env storage allocations graph item :
  is_check_failure
    (insertAllocTensorNode env storage (getTotalAllocationSize allocations)
       allocations graph item) = false.
Proof.
  unfold insertAllocTensorNode. destruct item as [lvr allocation].
  destruct (producer allocation (Graph.nodes graph)) as [node|]; [|reflexivity].
  simpl. destruct (output storage) as [storage_out|e] eqn:O; simpl.
  2: { unfold output in O.
       destruct (Node.outputs storage) as [|? [|? ?]]; inversion O; reflexivity. }
  destruct (value_type env allocation) as [ttp|]; [|reflexivity].
  destruct (getSizesStrides ttp) as [sizes strides].
  pose proof (planned_region_within_total allocations lvr) as B. simpl in B.
  apply Z.leb_le in B. rewrite B. simpl.
  destruct (attr_i storage "device") as [device|] eqn:D; simpl.
  - destruct (TensorType.scalarType ttp); reflexivity.
  - unfold attr_i in D.
    destruct (um_find "device"%string (Node.attrs storage)) as [[i|l]|];
      inversion D; reflexivity.
Qed.

Lemma insertAllocTensorNodes_loop_check env storage allocations items :
  forall graph,
  is_check_failure
    (insertAllocTensorNodes_loop env storage
       (getTotalAllocationSize allocations) allocations graph items) = false.
Proof.
  induction items as [|item rest IH]; simpl; intros graph; [reflexivity|].
  pose proof (insertAllocTensorNode_check env storage allocations graph item) as C.
  destruct (insertAllocTensorNode env storage
              (getTotalAllocationSize allocations) allocations graph item)
    as [g1|e]; simpl; [apply IH|exact C].
Qed.

Lemma insertAllocTensorNodes_loop_checked env storage total allocations items :
  forall graph g',
  insertAllocTensorNodes_loop env storage total allocations graph items = Ok g' ->
  forall item, In item items ->
  let region := um_get_default default_Region (fst item) allocations in
  wrap64 (Region.offset region + Region.size region) <= total.
Proof.
  induction items as [|item rest IH]; simpl; intros graph g' L x; [tauto|].
  destruct (insertAllocTensorNode env storage total allocations graph item)
    as [g1|] eqn:S; simpl in L; [|discriminate].
  intros [<-|I]; [|eapply IH; eauto].
  clear IH L. unfold insertAllocTensorNode in S. destruct item as [lvr allocation].
  destruct (producer allocation (Graph.nodes graph)) as [node|]; [|discriminate].
  simpl in S. destruct (output storage) as [storage_out|]; simpl in S; [|discriminate].
  destruct (value_type env allocation) as [ttp|]; [|discriminate].
  destruct (getSizesStrides ttp) as [sizes strides]. simpl.
  destruct (wrap64
              (Region.offset (um_get_default default_Region lvr allocations)
               + Region.size (um_get_default default_Region lvr allocations))
            <=? total) eqn:C; [|discriminate].
  now apply Z.leb_le.
Qed.

Lemma advance_keeps_nodes env h after : forall before b a,
  advance env h before after = Ok (b, a) -> b ++ a = before ++ after.
Proof.
  induction after as [|n after IH]; simpl; intros before b a; [discriminate|].
  destruct (int_not (string_compare (getHeader env n) h)).
  - intros A. apply IH in A. rewrite A, <- app_assoc. reflexivity.
  - now intros [= <- <-].
Qed.

Lemma insertPreAllocs_within allocations lvrs : forall c,
  Forall (placement_within (getTotalAllocationSize allocations))
         (Cursor.before c ++ Cursor.after c) ->
  Forall (placement_within (getTotalAllocationSize allocations))
         (Cursor.before (insertPreAllocs allocations c lvrs)
          ++ Cursor.after (insertPreAllocs allocations c lvrs)).
Proof.
  induction lvrs as [|lvr rest IH]; simpl; intros c F; [assumption|].
  apply IH. simpl.
  rewrite Forall_app in *. destruct F as [FB FA].
  split; [|assumption]. rewrite Forall_app. split; [assumption|].
  constructor; [|constructor].
  intros _.
  exists (to_int64 (Region.size (um_get_default default_Region lvr allocations))),
         (to_int64 (Region.offset (um_get_default default_Region lvr allocations))).
  split; [reflexivity|]. split; [reflexivity|].
  rewrite wrap64_add_to_int64. apply planned_region_within_total.
Qed.

Lemma insertPreAllocGroups_within env allocations items : forall c c',
  insertPreAllocGroups env allocations c items = Ok c' ->
  Forall (placement_within (getTotalAllocationSize allocations))
         (Cursor.before c ++ Cursor.after c) ->
  Forall (placement_within (getTotalAllocationSize allocations))
         (Cursor.before c' ++ Cursor.after c').
Proof.
  induction items as [|[frame_id lvrs] rest IH]; simpl; intros c c'.
  - now intros [= <-].
  - unfold insertPreAllocGroup.
    destruct (advance env (FrameNodeId.node_header frame_id)
                (Cursor.before c) (Cursor.after c)) as [[b a]|] eqn:A;
      simpl; [|discriminate].
    destruct a as [|node a]; simpl; [discriminate|].
    destruct (internal_assert _ _); simpl; [|discriminate].
    intros G F. eapply IH; [exact G|].
    apply insertPreAllocs_within. simpl.
    apply advance_keeps_nodes in A. now rewrite A.
Qed.

(** What the two materializers do keep when the storage node carries the
    total of the plan itself. Reading the attribute back gives the total;
    in static mode the check is never what fails and every [AllocateTensor]
    node of the result has [offset + size <= total] in 64-bit arithmetic;
    the same bound, in 64-bit arithmetic again, holds of the
    [PreAllocateTensor] nodes of trace mode, where nothing is checked. *)
Lemma materializers_keep_the_bound_mod64 env graph allocations :
  let total := getTotalAllocationSize allocations in
  let storage := fst (insertAllocStorageNode env graph total) in
  let g1 := snd (insertAllocStorageNode env graph total) in
  Forall (placement_within total) (Graph.nodes graph) ->
  (attr_i storage "total_size" = Ok (to_int64 total)
   /\ to_uint64 (to_int64 total) = total)
  /\ (forall items,
        is_check_failure
          (insertAllocTensorNodes env g1 storage allocations items) = false
        /\ forall g2,
            insertAllocTensorNodes env g1 storage allocations items = Ok g2 ->
            Forall (placement_within total) (Graph.nodes g2))
  /\ (forall any_storage any_total any_graph items g2,
        insertAllocTensorNodes_loop env any_storage any_total allocations
          any_graph items = Ok g2 ->
        forall item, In item items ->
        let region := um_get_default default_Region (fst item) allocations in
        wrap64 (Region.offset region + Region.size region) <= any_total)
  /\ (forall collected g2,
        insertPreAllocTensorNodes env g1 storage allocations collected = Ok g2 ->
        Forall (placement_within total) (Graph.nodes g2)).
Proof.
  intros total storage g1 F.
  assert (RT : to_uint64 (to_int64 total) = total)
    by apply to_uint64_to_int64, getTotalAllocationSize_u64.
  assert (F1 : Forall (placement_within total) (Graph.nodes g1)).
  { subst g1. unfold insertAllocStorageNode. simpl.
    destruct (pickDeviceType env); simpl; (constructor; [|assumption]);
      intros P; discriminate P. }
  split; [split; [apply storage_total_size|exact RT]|].
  split; [|split].
  - intros items. unfold insertAllocTensorNodes.
    subst storage. rewrite storage_total_size. simpl. fold total. rewrite RT.
    split; [apply insertAllocTensorNodes_loop_check|].
    intros g2 L. eapply insertAllocTensorNodes_loop_within; eauto.
  - intros any_storage any_total any_graph items g2 L item I.
    eapply insertAllocTensorNodes_loop_checked; eauto.
  - intros collected g2. unfold insertPreAllocTensorNodes.
    destruct (insertPreAllocGroups env allocations _ _) as [c|] eqn:G;
      simpl; [|discriminate].
    intros [= <-]. simpl.
    eapply insertPreAllocGroups_within; [exact G|]. exact F1.
Qed.

(** C7 (the code departs from the claim). The bound is not asserted in
    trace mode: [insertPreAllocTensorNodes] never reads the [total_size] of
    the storage node it is given. With the storage node [zero_storage],
    whose [total_size] is 0, and a plan that puts 16 bytes at offset 0, it
    succeeds and inserts a [PreAllocateTensor] node of size 16 at offset 0,
    whereas [insertAllocTensorNodes], given the same graph, storage node
    and plan, stops at its [TORCH_CHECK]. And where the check is made, the
    sum is taken in 64-bit arithmetic: for the plan [wide_plan], whose
    total is [2^64 - 8], static mode passes the check and inserts an
    [AllocateTensor] node of 16 bytes at offset [2^64 - 8], which ends
    above the total. *)
Theorem C7_trace_mode_asserts_no_bound :
  let env := example_env (fun _ => Some (float_tensor 4)) [] in
  let wide_total := getTotalAllocationSize wide_plan in
  let wide_storage := fst (insertAllocStorageNode env relu_mul wide_total) in
  let wide_g1 := snd (insertAllocStorageNode env relu_mul wide_total) in
  (attr_i zero_storage "total_size" = Ok 0
   /\ (exists g2 alloc,
         insertPreAllocTensorNodes env relu_mul zero_storage mul_plan mul_frame
         = Ok g2
         /\ In alloc (Graph.nodes g2)
         /\ Node.kind alloc = PreAllocateTensor
         /\ attr_i alloc "size" = Ok 16 /\ attr_i alloc "offset" = Ok 0)
   /\ insertAllocTensorNodes env relu_mul zero_storage mul_plan
        [(LiveRange.mk 1 5, 1%nat)]
      = Err (CheckFailed
               "trying to create an allocation that exceeds previously planned memory"))
  /\ (wide_total = 2 ^ 64 - 8
      /\ exists g2 alloc sz off,
          insertAllocTensorNodes env wide_g1 wide_storage wide_plan
            [(LiveRange.mk 0 3, 0%nat); (LiveRange.mk 1 2, 1%nat)] = Ok g2
          /\ In alloc (Graph.nodes g2)
          /\ Node.kind alloc = AllocateTensor
          /\ attr_i alloc "size" = Ok sz /\ attr_i alloc "offset" = Ok off
          /\ sz = 16 /\ to_uint64 off = 2 ^ 64 - 8
          /\ to_uint64 off + sz > wide_total).
Proof.
  split.
  - split; [reflexivity|]. split; [|reflexivity].
    eexists. eexists. split; [reflexivity|].
    split; [left; reflexivity|]. repeat split; reflexivity.
  - split; [reflexivity|].
    eexists. eexists. eexists. eexists. split; [vm_compute; reflexivity|].
    split; [right; right; right; left; reflexivity|].
    repeat split; reflexivity.
Qed.

(* ================================================================== *)
(** ** Values that share a live range *)

Lemma om_insert_entries {V : Type} lt (k : LiveRange.t) (v : V) m e :
  In e (om_insert lt k v m) -> e = (k, v) \/ In e m.
Proof.
  induction m as [|[k' v'] m IH]; simpl.
  - intros [<-|[]]. now left.
  - destruct (lt k k'); simpl; [intuition|].
    destruct (lt k' k); simpl; [|intuition].
    intros [<-|I]; [intuition|]. apply IH in I. intuition.
Qed.

Lemma om_insert_keeps {V : Type} lt (k : LiveRange.t) (v : V) m e :
  In e m -> In e (om_insert lt k v m).
Proof.
  induction m as [|[k' v'] m IH]; simpl; [tauto|].
  destruct (lt k k'); simpl; [intuition|].
  destruct (lt k' k); simpl; intuition.
Qed.

Lemma om_insert_begins k v m x :
  In x (begins (om_insert live_range_start_cmp k v m))
  <-> x = LiveRange.begin k \/ In x (begins m).
Proof.
  unfold live_range_start_cmp.
  induction m as [|[k' v'] m IH]; simpl.
  - intuition.
  - destruct (LiveRange.begin k <? LiveRange.begin k') eqn:A; simpl; [intuition|].
    destruct (LiveRange.begin k' <? LiveRange.begin k) eqn:B; simpl.
    + rewrite IH. intuition.
    + apply Z.ltb_ge in A, B. split; [intuition|].
      intros [->|I]; [left; lia|assumption].
Qed.

Lemma om_insert_sorted k v m :
  StronglySorted Z.lt (begins m) ->
  StronglySorted Z.lt (begins (om_insert live_range_start_cmp k v m)).
Proof.
  induction m as [|[k' v'] m IH]; simpl; intros S.
  - repeat constructor.
  - inversion S as [|? ? S' F]; subst.
    unfold live_range_start_cmp at 1.
    destruct (LiveRange.begin k <? LiveRange.begin k') eqn:A; simpl.
    + apply Z.ltb_lt in A. constructor; [exact S|].
      constructor; [exact A|].
      rewrite Forall_forall in *. intros x I. specialize (F x I). simpl in F. lia.
    + unfold live_range_start_cmp at 1.
      destruct (LiveRange.begin k' <? LiveRange.begin k) eqn:B; simpl; [|exact S].
      apply Z.ltb_lt in B. constructor; [now apply IH|].
      rewrite Forall_forall in *. intros x I.
      apply om_insert_begins in I. destruct I as [->|I]; [exact B|now apply F].
Qed.

Lemma om_find_begins k (m : list (LiveRange.t * Value)) :
  In (LiveRange.begin k) (begins m)
  <-> exists other, om_find live_range_start_cmp k m = Some other.
Proof.
  induction m as [|[k' v'] m IH]; simpl.
  - split; [tauto|]. intros [other F]. discriminate.
  - unfold om_equiv, live_range_start_cmp.
    destruct (LiveRange.begin k <? LiveRange.begin k') eqn:A;
      destruct (LiveRange.begin k' <? LiveRange.begin k) eqn:B; simpl;
      try (rewrite <- IH; try apply Z.ltb_lt in A; try apply Z.ltb_lt in B;
           split; [intros [G|G]; [lia|exact G]|tauto]).
    split; [eauto|]. intros _. apply Z.ltb_ge in A, B. left. lia.
Qed.

Lemma strictly_sorted_NoDup (l : list Z) : StronglySorted Z.lt l -> NoDup l.
Proof.
  induction 1 as [|x l S IH F]; constructor; [|assumption].
  intros I. rewrite Forall_forall in F. specialize (F x I). lia.
Qed.

Lemma NoDup_map_In_inj {A B : Type} (f : A -> B) (l : list A) a b :
  NoDup (map f l) -> In a l -> In b l -> f a = f b -> a = b.
Proof.
  induction l as [|x l IH]; simpl; [tauto|].
  intros ND Ia Ib Eq. inversion ND as [|? ? NI ND']; subst.
  destruct Ia as [->|Ia], Ib as [->|Ib]; auto.
  - exfalso. apply NI. rewrite Eq. now apply in_map.
  - exfalso. apply NI. rewrite <- Eq. now apply in_map.
Qed.

(** The loop that fills [managed_range_values], from any state on. *)
Lemma managedRangeValues_fold ranges : forall acc,
  let res := fold_left managedRangeValues_step ranges acc in
  (StronglySorted Z.lt (begins (fst acc)) -> StronglySorted Z.lt (begins (fst res)))
  /\ (forall e, In e (fst res) -> In e (fst acc) \/ In (snd e, fst e) ranges)
  /\ (forall x, In x (begins (fst acc)) -> In x (begins (fst res)))
  /\ (forall w, In w (snd acc) -> In w (snd res))
  /\ (forall item, In item ranges -> In (LiveRange.begin (snd item)) (begins (fst res))).
Proof.
  induction ranges as [|[v r] ranges IH]; intros acc; simpl.
  - repeat split; auto. intros item [].
  - specialize (IH (managedRangeValues_step acc (v, r))).
    destruct IH as (S & E & B & W & C).
    destruct acc as [m w]. simpl in *.
    split; [intros H; apply S; now apply om_insert_sorted|].
    split.
    { intros e I. apply E in I. destruct I as [I|I]; [|tauto].
      apply om_insert_entries in I. destruct I as [->|I]; [right; left|]; auto. }
    split; [intros x I; apply B; apply om_insert_begins; tauto|].
    split.
    { intros x I. apply W.
      destruct (om_find live_range_start_cmp r m); [apply in_or_app|]; tauto. }
    intros item [<-|I]; [|now apply C].
    apply B. apply om_insert_begins. now left.
Qed.

Lemma managedRangeValues_covers l item :
  In item l ->
  In (LiveRange.begin (snd item))
     (begins (fst (fold_left managedRangeValues_step l ([], [])))).
Proof.
  pose proof (managedRangeValues_fold l ([], [])) as (_ & _ & _ & _ & C).
  apply C.
Qed.

Lemma managedRangeValues_warns l1 v r l2 :
  In (LiveRange.begin r) (begins (fst (fold_left managedRangeValues_step l1 ([], [])))) ->
  exists other,
    In (WarnOverlappingLiveRanges v other)
       (snd (managedRangeValues (l1 ++ (v, r) :: l2))).
Proof.
  intros I. unfold managedRangeValues. rewrite fold_left_app. simpl.
  destruct (fold_left managedRangeValues_step l1 ([], [])) as [m w]. simpl in I.
  apply om_find_begins in I. destruct I as [other F].
  exists other.
  apply (managedRangeValues_fold l2 (managedRangeValues_step (m, w) (v, r))).
  simpl. rewrite F. apply in_or_app. right. now left.
Qed.

Lemma count_kind_add_input_at k target v ns :
  count_kind k (add_input_at target v ns) = count_kind k ns.
Proof.
  unfold count_kind, add_input_at.
  induction ns as [|n ns IH]; simpl; [reflexivity|].
  replace (Node.kind (if Nat.eqb (Node.id n) target then add_input v n else n))
    with (Node.kind n) by (destruct (Nat.eqb (Node.id n) target); reflexivity).
  destruct (NodeKind_eqb (Node.kind n) k); simpl; now rewrite IH.
Qed.

Lemma count_kind_insert_before k fresh target ns :
  (exists n, In n ns /\ Node.id n = target) ->
  Node.kind fresh = k ->
  NodeKind_eqb k k = true ->
  count_kind k (insert_before fresh target ns) = S (count_kind k ns).
Proof.
  intros X KF KK. unfold count_kind.
  induction ns as [|n ns IH]; simpl.
  - destruct X as (n & [] & _).
  - destruct (Nat.eqb (Node.id n) target) eqn:T; simpl.
    + rewrite KF, KK. reflexivity.
    + destruct X as (n' & [<-|I] & Id).
      * apply Nat.eqb_neq in T. contradiction.
      * destruct (NodeKind_eqb (Node.kind n) k); simpl; rewrite IH; eauto.
Qed.

Lemma producer_In v ns node : producer v ns = Some node -> In node ns.
Proof.
  induction ns as [|n ns IH]; simpl; [discriminate|].
  destruct (existsb (Nat.eqb v) (Node.outputs n)).
  - intros [= ->]. now left.
  - intros P. right. auto.
Qed.

(** Every iteration of [insertAllocTensorNodes] that succeeds adds one
    [AllocateTensor] node. *)
Lemma insertAllocTensorNodes_loop_count env storage total allocations items :
  forall graph g',
  insertAllocTensorNodes_loop env storage total allocations graph items = Ok g' ->
  count_kind AllocateTensor (Graph.nodes g')
  = (count_kind AllocateTensor (Graph.nodes graph) + List.length items)%nat.
Proof.
  induction items as [|item rest IH]; simpl; intros graph g'.
  - intros [= <-]. lia.
  - destruct (insertAllocTensorNode env storage total allocations graph item)
      as [g1|] eqn:S; simpl; [|intros X; discriminate X].
    intros L. rewrite (IH _ _ L). clear IH L.
    unfold insertAllocTensorNode in S. destruct item as [lvr allocation].
    destruct (producer allocation (Graph.nodes graph)) as [node|] eqn:P;
      [|discriminate].
    simpl in S. destruct (output storage) as [storage_out|]; simpl in S; [|discriminate].
    destruct (value_type env allocation) as [ttp|]; [|discriminate].
    destruct (getSizesStrides ttp) as [sizes strides].
    destruct (torch_check _ _); simpl in S; [|discriminate].
    destruct (attr_i storage "device") as [device|]; simpl in S; [|discriminate].
    destruct (TensorType.scalarType ttp) as [dtype|]; [|discriminate].
    inversion S; subst; clear S. simpl.
    rewrite count_kind_insert_before, count_kind_add_input_at; try reflexivity; [lia|].
    apply producer_In in P.
    exists (if Nat.eqb (Node.id node) (Node.id node)
            then add_input (Graph.next_value graph) node else node).
    split.
    + unfold add_input_at.
      apply (in_map (fun n => if Nat.eqb (Node.id n) (Node.id node)
                              then add_input (Graph.next_value graph) n else n)) in P.
      exact P.
    + rewrite Nat.eqb_refl. reflexivity.
Qed.

(** [insert] on a map that has an entry with the begin of the key leaves
    the map as it is. *)
Lemma om_insert_present k (v : Value) m :
  StronglySorted Z.lt (begins m) -> In (LiveRange.begin k) (begins m) ->
  om_insert live_range_start_cmp k v m = m.
Proof.
  unfold live_range_start_cmp.
  induction m as [|[k' v'] m IH]; simpl; intros S I; [destruct I|].
  inversion S as [|? ? S' F]; subst. rewrite Forall_forall in F.
  destruct (LiveRange.begin k <? LiveRange.begin k') eqn:A.
  - apply Z.ltb_lt in A. destruct I as [I|I]; [lia|].
    specialize (F _ I). lia.
  - destruct (LiveRange.begin k' <? LiveRange.begin k) eqn:B; [|reflexivity].
    apply Z.ltb_lt in B. destruct I as [I|I]; [lia|].
    now rewrite IH.
Qed.

(** C6, as the code has it. Let two distinct managed values have the same
    live range [r], [v1] being met first and [v2] second by the loop that
    fills [managed_range_values], in whatever order the loop runs. The
    loop raises the "overlapping live ranges" warning for [v2], and [v2]
    gets no entry in the map: [insert] does nothing on a key that is
    present. The map has one entry for each begin, among them the begin of
    [r], and [insertAllocTensorNodes] inserts exactly one [AllocateTensor]
    node for each entry of the map: none is made for [v2]. *)
Theorem C6_value_met_second_gets_no_entry
  (ranges l1 l2 l3 : list (Value * LiveRange.t)) (v1 v2 : Value)
  (r : LiveRange.t) :
  ranges = l1 ++ (v1, r) :: l2 ++ (v2, r) :: l3 ->
  NoDup (map fst ranges) ->
  let m := fst (managedRangeValues ranges) in
  let w := snd (managedRangeValues ranges) in
  (exists other, In (WarnOverlappingLiveRanges v2 other) w)
  /\ ~ In v2 (map snd m)
  /\ In (LiveRange.begin r) (begins m)
  /\ NoDup (begins m)
  /\ (forall env storage total allocations graph g2,
        insertAllocTensorNodes_loop env storage total allocations graph m = Ok g2 ->
        count_kind AllocateTensor (Graph.nodes g2)
        = (count_kind AllocateTensor (Graph.nodes graph) + List.length m)%nat).
Proof.
  intros R ND m w.
  set (pre := l1 ++ (v1, r) :: l2).
  assert (R' : ranges = pre ++ (v2, r) :: l3).
  { rewrite R. unfold pre. rewrite <- app_assoc. reflexivity. }
  assert (Seen : In (LiveRange.begin r)
                    (begins (fst (fold_left managedRangeValues_step pre ([], []))))).
  { apply (managedRangeValues_covers pre (v1, r)).
    unfold pre. apply in_or_app. right. now left. }
  pose proof (managedRangeValues_fold ranges ([], [])) as (S & _ & _ & _ & C).
  simpl in S. fold (managedRangeValues ranges) in S, C. fold m in S, C.
  split; [|split; [|split; [|split]]].
  - subst w. rewrite R'. now apply managedRangeValues_warns.
  - intros M. apply in_map_iff in M. destruct M as ([r2 x] & X & M).
    simpl in X. subst x.
    assert (Fresh : ~ In v2 (map fst pre ++ map fst l3)).
    { rewrite R', map_app in ND. simpl in ND. now apply NoDup_remove_2 in ND. }
    apply Fresh. apply in_or_app.
    subst m. unfold managedRangeValues in M. rewrite R', fold_left_app in M.
    simpl in M.
    pose proof (managedRangeValues_fold pre ([], [])) as (Sp & Ep & _).
    simpl in Sp, Ep.
    destruct (fold_left managedRangeValues_step pre ([], [])) as [mp wp] eqn:P.
    simpl in Seen, Sp, Ep.
    pose proof (managedRangeValues_fold l3 (managedRangeValues_step (mp, wp) (v2, r)))
      as (_ & E3 & _).
    apply E3 in M. simpl in M.
    rewrite (om_insert_present r v2 mp (Sp (SSorted_nil _)) Seen) in M.
    destruct M as [M|M].
    + left. destruct (Ep _ M) as [[]|J].
      change v2 with (fst (v2, r2)). now apply in_map.
    + right. change v2 with (fst (v2, r2)). now apply in_map.
  - apply (C (v1, r)). rewrite R. apply in_or_app. right. now left.
  - apply strictly_sorted_NoDup, S. constructor.
  - intros env storage total allocations graph g2 L.
    now apply insertAllocTensorNodes_loop_count in L.
Qed.

Lemma C6_witness :
  (liveness twin_env
   = [] ++ (0%nat, LiveRange.mk 0 1) :: [] ++ (1%nat, LiveRange.mk 0 1) :: []
   /\ NoDup (map fst (liveness twin_env)))
  /\ (exists other,
        In (WarnOverlappingLiveRanges 1%nat other)
           (snd (managedRangeValues (liveness twin_env))))
  /\ ~ In 1%nat (map snd (fst (managedRangeValues (liveness twin_env)))).
Proof.
  assert (R : liveness twin_env
              = [] ++ (0%nat, LiveRange.mk 0 1) :: []
                ++ (1%nat, LiveRange.mk 0 1) :: []) by reflexivity.
  assert (ND : NoDup (map fst (liveness twin_env))).
  { simpl. repeat constructor; simpl; intuition discriminate. }
  split; [split; assumption|].
  pose proof (@C6_value_met_second_gets_no_entry
                (liveness twin_env) [] [] [] 0%nat 1%nat (LiveRange.mk 0 1) R ND)
    as T.
  split; [exact (proj1 T)|exact (proj1 (proj2 T))].
Defined.

(** C6 as stated fails. In [twin_graph] the values [%0], of 16 bytes, and
    [%1], of 8 bytes, have the same live range. [planMemory] warns and
    succeeds, and the result has one [AllocateTensor] node: the two values
    are not both materialized, each with its own size. It is so whichever
    of the two values the loops of the planner meet first: in
    [twin_graph_swapped] and [twin_env_swapped] the value [%1] comes before
    [%0] in the outputs of the node and in the liveness. *)
Lemma C6_two_values_get_one_node :
  (exists g' w,
      planMemory twin_env twin_graph LINEAR_SCAN = Ok (g', w)
      /\ (exists v other, In (WarnOverlappingLiveRanges v other) w)
      /\ count_kind AllocateTensor (Graph.nodes g') = 1%nat
      /\ ~ (materialized (Graph.nodes g') 0%nat 16
            /\ materialized (Graph.nodes g') 1%nat 8))
  /\ (exists g' w,
      planMemory twin_env_swapped twin_graph_swapped LINEAR_SCAN = Ok (g', w)
      /\ (exists v other, In (WarnOverlappingLiveRanges v other) w)
      /\ count_kind AllocateTensor (Graph.nodes g') = 1%nat
      /\ ~ (materialized (Graph.nodes g') 0%nat 16
            /\ materialized (Graph.nodes g') 1%nat 8)).
Proof.
  split.
  - eexists. eexists. split; [reflexivity|].
    split; [eexists; eexists; left; reflexivity|].
    split; [reflexivity|].
    intros [(alloc & out & node & I & K & O & S & _) _].
    simpl in I. destruct I as [<-|[<-|[<-|[<-|[]]]]]; try discriminate K.
    discriminate S.
  - eexists. eexists. split; [reflexivity|].
    split; [eexists; eexists; left; reflexivity|].
    split; [reflexivity|].
    intros [_ (alloc & out & node & I & K & O & S & _)].
    simpl in I. destruct I as [<-|[<-|[<-|[<-|[]]]]]; try discriminate K.
    discriminate S.
Qed.

(* ================================================================== *)
(** ** Ranges, regions and the placement rule *)

Lemma overlap_sym a b : overlap a b = overlap b a.
Proof. unfold overlap. now rewrite Z.max_comm, Z.min_comm. Qed.

Lemma collide_sym a b : collide a b = collide b a.
Proof. unfold collide. now rewrite Z.max_comm, Z.min_comm. Qed.

(** Two ranges overlap exactly when some instant lies in both. *)
Lemma overlap_spec a b :
  overlap a b = true <-> exists t, contains a t = true /\ contains b t = true.
Proof.
  unfold overlap, contains. rewrite Z.leb_le. split.
  - intros H. exists (Z.max (LiveRange.begin a) (LiveRange.begin b)).
    rewrite !andb_true_iff, !Z.leb_le. lia.
  - intros (t & A & B). rewrite !andb_true_iff, !Z.leb_le in *. lia.
Qed.

Lemma overlap_begin_end a b :
  overlap a b = true -> LiveRange.begin b <= LiveRange.end_ a.
Proof. unfold overlap. rewrite Z.leb_le. lia. Qed.

(** A block that starts where a region ends, or later, or that ends where
    the region starts, or earlier, does not collide with it. *)
Lemma apart_no_collision off sz p :
  off + sz <= Region.offset p \/ Region.offset p + Region.size p <= off ->
  collide (Region.mk off sz) p = false.
Proof. unfold collide. simpl. rewrite Z.ltb_ge. lia. Qed.

Lemma fold_max_ge l : forall acc x, In x l \/ x <= acc -> x <= fold_left Z.max l acc.
Proof.
  induction l as [|y l IH]; simpl; intros acc x.
  - intros [[]|H]. exact H.
  - intros [[->|I]|H]; apply IH; [right|left|right]; auto; lia.
Qed.

Lemma fold_min_In l : forall acc, In (fold_left Z.min l acc) (acc :: l).
Proof.
  induction l as [|y l IH]; simpl; intros acc; [now left|].
  destruct (IH (Z.min acc y)) as [H|H]; [|right; right; exact H].
  rewrite <- H. destruct (Z.min_spec acc y) as [[_ M]|[_ M]]; rewrite M.
  - left. reflexivity.
  - right. left. reflexivity.
Qed.

(** The offset chosen by the rule of greedy-by-size fits. *)
Lemma lowest_fitting_offset_fits sz placed :
  fits sz (lowest_fitting_offset sz placed) placed = true.
Proof.
  unfold lowest_fitting_offset.
  destruct (filter (fun c => fits sz c placed) (candidates placed)) as [|c cs] eqn:F.
  - unfold fits. apply forallb_forall. intros p I.
    apply negb_true_iff. apply apart_no_collision. right.
    apply fold_max_ge. left. unfold candidates. right.
    apply (in_map (fun p => Region.offset p + Region.size p)) in I. exact I.
  - pose proof (fold_min_In cs c) as I. rewrite <- F in I.
    apply filter_In in I. tauto.
Qed.

Lemma lowest_fitting_offset_avoids sz (r : LiveRange.t) (plan : Plan) e :
  In e plan -> overlap (fst e) r = true ->
  collide (Region.mk (lowest_fitting_offset sz (overlapping_placements r plan)) sz)
          (snd e) = false.
Proof.
  intros I O.
  pose proof (lowest_fitting_offset_fits sz (overlapping_placements r plan)) as F.
  unfold fits in F. rewrite forallb_forall in F.
  apply negb_true_iff. apply F. unfold overlapping_placements.
  apply in_map. apply filter_In. tauto.
Qed.

(** One placement keeps a plan free of collisions. *)
Lemma place_pairwise plan item :
  pairwise_disjoint plan -> pairwise_disjoint (place plan item).
Proof.
  intros PW. destruct item as [r sz]. unfold place.
  intros a b Ia Ib NE O.
  apply um_insert_In in Ia. apply um_insert_In in Ib.
  destruct Ia as [Ia|[-> Ma]], Ib as [Ib|[-> Mb]]; simpl in *.
  - now apply PW.
  - rewrite collide_sym. now apply lowest_fitting_offset_avoids.
  - apply lowest_fitting_offset_avoids; [assumption|]. now rewrite overlap_sym.
  - contradiction.
Qed.

Lemma fold_place_pairwise items : forall plan,
  pairwise_disjoint plan -> pairwise_disjoint (fold_left place items plan).
Proof.
  induction items as [|item items IH]; simpl; intros plan PW; [assumption|].
  apply IH. now apply place_pairwise.
Qed.

Lemma fold_place_NoDup items : forall plan,
  NoDup (map fst plan) -> NoDup (map fst (fold_left place items plan)).
Proof.
  induction items as [|[r sz] items IH]; simpl; intros plan ND; [assumption|].
  apply IH. now apply um_insert_NoDup.
Qed.

Lemma fold_place_keys items : forall plan r,
  In r (map fst plan) \/ In r (map fst items) ->
  In r (map fst (fold_left place items plan)).
Proof.
  induction items as [|[r' sz] items IH]; simpl; intros plan r.
  - intros [H|[]]. exact H.
  - intros H. apply IH. rewrite um_insert_keys. intuition.
Qed.

Lemma fold_place_sizes items : forall plan e,
  In e (fold_left place items plan) ->
  In e plan \/ In (fst e, Region.size (snd e)) items.
Proof.
  induction items as [|[r sz] items IH]; simpl; intros plan e I; [tauto|].
  apply IH in I. destruct I as [I|I]; [|tauto].
  apply um_insert_In in I. destruct I as [I|[-> _]]; [tauto|].
  right. left. reflexivity.
Qed.

(** How a plan built from a list of items is shown correct for a map. *)
Lemma plan_correct_intro (m : ManagedRanges) (items : list (LiveRange.t * Z))
  (P : Plan) :
  NoDup (map fst P) -> pairwise_disjoint P ->
  (forall r, In r (map fst items) -> In r (map fst P)) ->
  (forall e, In e P -> In (fst e, Region.size (snd e)) items) ->
  (forall r sz, um_find r m = Some sz -> In (r, sz) items) ->
  (forall r sz sz', um_find r m = Some sz -> In (r, sz') items -> sz' = sz) ->
  plan_correct m P.
Proof.
  intros ND PW Keys Sizes Sub Agree. split.
  - intros r sz F.
    assert (I : In r (map fst P)).
    { apply Keys. change r with (fst (r, sz)). apply in_map. now apply Sub. }
    apply in_map_iff in I. destruct I as ([r' reg] & <- & I). simpl in *.
    exists reg. split; [now apply um_find_NoDup|].
    apply Sizes in I. simpl in I. eapply Agree; eauto.
  - intros r1 r2 reg1 reg2 NE F1 F2 O.
    apply um_find_In in F1, F2.
    apply (PW (r1, reg1) (r2, reg2)); assumption.
Qed.

Lemma pairwise_disjoint_nil : pairwise_disjoint [].
Proof. intros a b []. Qed.

(** Greedy by size is correct on every finite map. *)
Lemma greedyBySize_correct (m : ManagedRanges) :
  NoDup (map fst m) -> plan_correct m (greedyBySize m).
Proof.
  intros ND. unfold greedyBySize.
  apply plan_correct_intro with (items := sort size_order_lt m).
  - apply fold_place_NoDup. constructor.
  - apply fold_place_pairwise, pairwise_disjoint_nil.
  - intros r I. apply fold_place_keys. now right.
  - intros e I. apply fold_place_sizes in I. destruct I as [[]|I]. exact I.
  - intros r sz F. apply sort_In. now apply um_find_In.
  - intros r sz sz' F I. apply sort_In in I.
    apply (um_find_NoDup _ _ _ ND) in I. congruence.
Qed.

(* ================================================================== *)
(** ** Linear scan *)

(** The scan of the gaps returns an offset at which the block lies before
    or after every region of the list, when the list is in ascending
    order of offset. *)
Lemma scan_gaps_apart sz regions : forall cursor,
  StronglySorted (key_le Region.offset) regions ->
  cursor <= scan_gaps sz cursor regions
  /\ forall p, In p regions ->
       scan_gaps sz cursor regions + sz <= Region.offset p
       \/ Region.offset p + Region.size p <= scan_gaps sz cursor regions.
Proof.
  induction regions as [|q rest IH]; simpl; intros cursor S.
  - split; [lia|tauto].
  - inversion S as [|? ? S' F]; subst.
    destruct (sz <=? Region.offset q - cursor) eqn:G.
    + apply Z.leb_le in G. split; [lia|].
      intros p [<-|I]; [left; lia|].
      rewrite Forall_forall in F. specialize (F p I). unfold key_le in F.
      left. lia.
    + destruct (IH (Z.max cursor (Region.offset q + Region.size q)) S') as [M A].
      split; [lia|].
      intros p [<-|I]; [right; lia|now apply A].
Qed.

Lemma lowest_gap_avoids sz (active : Plan) e :
  In e active -> collide (Region.mk (lowest_gap sz active) sz) (snd e) = false.
Proof.
  intros I. apply apart_no_collision. unfold lowest_gap.
  apply scan_gaps_apart.
  - apply sort_key_sorted.
  - apply sort_In. now apply in_map.
Qed.

Lemma lowest_gap_nonneg sz active : 0 <= lowest_gap sz active.
Proof.
  unfold lowest_gap.
  apply (@scan_gaps_apart sz (sort (key_lt Region.offset) (map snd active)) 0).
  apply sort_key_sorted.
Qed.

Lemma linear_scan_sweep_invariant todo : forall active plan,
  StronglySorted (key_le (fun x : LiveRange.t * Z => LiveRange.begin (fst x))) todo ->
  NoDup (map fst plan) -> pairwise_disjoint plan ->
  live_in_active todo active plan ->
  let P := linear_scan_sweep todo active plan in
  NoDup (map fst P) /\ pairwise_disjoint P
  /\ (forall r, In r (map fst plan) \/ In r (map fst todo) -> In r (map fst P))
  /\ (forall e, In e P -> In e plan \/ In (fst e, Region.size (snd e)) todo).
Proof.
  induction todo as [|[r sz] rest IH]; simpl; intros active plan S ND PW LA.
  - repeat split; auto. intros r [H|[]]. exact H.
  - inversion S as [|? ? S' F]; subst. rewrite Forall_forall in F.
    set (active' := evict r active).
    set (reg := Region.mk (lowest_gap sz active') sz).
    assert (Kept : forall e, In e plan ->
                   LiveRange.begin r <= LiveRange.end_ (fst e) -> In e active').
    { intros e I B. unfold active', evict. apply filter_In. split.
      - apply (LA e (r, sz)); simpl; auto.
      - apply negb_true_iff, Z.ltb_ge. exact B. }
    destruct (IH (active' ++ [(r, reg)]) (um_insert r reg plan)) as (ND' & PW' & K' & Z').
    + exact S'.
    + now apply um_insert_NoDup.
    + intros a b Ia Ib NE O.
      apply um_insert_In in Ia. apply um_insert_In in Ib.
      destruct Ia as [Ia|[-> Ma]], Ib as [Ib|[-> Mb]]; simpl in *.
      * now apply PW.
      * rewrite collide_sym. apply lowest_gap_avoids.
        apply Kept; [assumption|]. now apply overlap_begin_end in O.
      * apply lowest_gap_avoids.
        apply Kept; [assumption|]. rewrite overlap_sym in O.
        now apply overlap_begin_end in O.
      * contradiction.
    + intros e item Ie Ii B. apply in_or_app.
      apply um_insert_In in Ie. destruct Ie as [Ie|[-> _]]; [|right; now left].
      left. apply Kept; [assumption|].
      specialize (F item Ii). unfold key_le in F. simpl in F. lia.
    + split; [exact ND'|]. split; [exact PW'|]. split.
      * intros x H. apply K'. rewrite um_insert_keys. intuition.
      * intros e I. apply Z' in I. destruct I as [I|I]; [|tauto].
        apply um_insert_In in I. destruct I as [I|[-> _]]; [tauto|].
        right. left. reflexivity.
Qed.

(** Linear scan is correct on every finite map. *)
Lemma linearScanHeuristic_correct (m : ManagedRanges) :
  NoDup (map fst m) -> plan_correct m (linearScanHeuristic m).
Proof.
  intros ND. unfold linearScanHeuristic.
  set (todo := sort (key_lt (fun x : LiveRange.t * Z => LiveRange.begin (fst x))) m).
  destruct (@linear_scan_sweep_invariant todo [] []) as (ND' & PW & K & Z').
  - apply sort_key_sorted.
  - constructor.
  - apply pairwise_disjoint_nil.
  - intros e item [].
  - apply plan_correct_intro with (items := todo); auto.
    + intros e I. apply Z' in I. destruct I as [[]|I]. exact I.
    + intros r sz F. apply sort_In. now apply um_find_In.
    + intros r sz sz' F I. apply sort_In in I.
      apply (um_find_NoDup _ _ _ ND) in I. congruence.
Qed.

(* ================================================================== *)
(** ** The managed ranges of the static planner *)

Lemma um_index_spec {K V : Type} {E : Eqb K} {L : EqbLaw K}
  (d : V) (k : K) (m : list (K * V)) :
  um_find k (snd (um_index d k m)) = Some (fst (um_index d k m))
  /\ forall k' y, um_find k' m = Some y ->
                  um_find k' (snd (um_index d k m)) = Some y.
Proof.
  unfold um_index. destruct (um_find k m) as [x|] eqn:F; simpl.
  - split; [exact F|auto].
  - split.
    + rewrite um_find_app, F. simpl. now rewrite eqb_refl.
    + intros k' y G. rewrite um_find_app, G. reflexivity.
Qed.

Lemma managedLiveRanges_fold sizes : forall acc,
  let res := fold_left managedLiveRanges_step sizes acc in
  (NoDup (map fst (snd acc)) -> NoDup (map fst (snd res)))
  /\ (forall v r, um_find v (fst acc) = Some r -> um_find v (fst res) = Some r)
  /\ (forall r sz, um_find r (snd res) = Some sz ->
        um_find r (snd acc) = Some sz
        \/ exists v, In (v, sz) sizes /\ um_find v (fst res) = Some r).
Proof.
  induction sizes as [|[v s] sizes IH]; intros acc; simpl.
  - repeat split; auto.
  - destruct (IH (managedLiveRanges_step acc (v, s))) as (ND & St & Src).
    destruct acc as [ranges managed].
    unfold managedLiveRanges_step in *. simpl in *.
    destruct (um_index_spec default_LiveRange v ranges) as [Here Stable].
    destruct (um_index default_LiveRange v ranges) as [r0 ranges1]. simpl in *.
    split; [intros H; apply ND; now apply um_set_NoDup|].
    split; [intros v' r' F; apply St; now apply Stable|].
    intros r sz F. apply Src in F. destruct F as [F|(v' & I & F)].
    + rewrite um_find_set in F. destruct (eqb r r0) eqn:G.
      * apply eqb_eq in G. subst r0. inversion F; subst.
        right. exists v. split; [now left|]. now apply St.
      * now left.
    + right. exists v'. split; [now right|exact F].
Qed.

Lemma managedLiveRanges_NoDup sizes ranges0 :
  NoDup (map fst (snd (managedLiveRanges sizes ranges0))).
Proof.
  apply (managedLiveRanges_fold sizes (ranges0, [])). constructor.
Qed.

Lemma managedLiveRanges_source sizes ranges0 r sz :
  um_find r (snd (managedLiveRanges sizes ranges0)) = Some sz ->
  exists v, In (v, sz) sizes
            /\ um_find v (fst (managedLiveRanges sizes ranges0)) = Some r.
Proof.
  intros F.
  pose proof (managedLiveRanges_fold sizes (ranges0, [])) as (_ & _ & Src).
  apply Src in F. destruct F as [F|F]; [discriminate|exact F].
Qed.

(* ================================================================== *)
(** ** Greedy by operator breadth *)

Lemma managed_outputs_In sizes ranges n r sz :
  In (r, sz) (managed_outputs sizes ranges n)
  <-> exists v, In v (Node.outputs n)
                /\ um_find v ranges = Some r /\ um_find v sizes = Some sz.
Proof.
  unfold managed_outputs. rewrite in_flat_map. split.
  - intros (v & I & H). exists v. split; [exact I|].
    destruct (um_find v ranges) as [r'|]; [|destruct H].
    destruct (um_find v sizes) as [sz'|]; [|destruct H].
    destruct H as [[= -> ->]|[]]. auto.
  - intros (v & I & R & S). exists v. split; [exact I|].
    rewrite R, S. now left.
Qed.

Lemma greedyByOperatorBreadth_correct env sizes ranges ops (m : ManagedRanges) :
  breadth_input_ok sizes ranges ops ->
  (forall r sz, um_find r m = Some sz ->
     exists v, In (v, sz) sizes /\ um_find v ranges = Some r) ->
  plan_correct m (greedyByOperatorBreadth env sizes ranges ops).
Proof.
  intros (ND & Cover & Agree) Src. unfold greedyByOperatorBreadth.
  set (by_breadth := sort _ ops).
  set (items := flat_map (managed_outputs sizes ranges) by_breadth).
  assert (Items : forall r sz, In (r, sz) items
            <-> exists n v, In n ops /\ In v (Node.outputs n)
                  /\ um_find v ranges = Some r /\ um_find v sizes = Some sz).
  { intros r sz. unfold items. rewrite in_flat_map. split.
    - intros (n & I & H). apply managed_outputs_In in H.
      destruct H as (v & H). exists n, v. split; [|exact H].
      unfold by_breadth in I. now apply sort_In in I.
    - intros (n & v & I & H). exists n. split.
      + unfold by_breadth. now apply sort_In.
      + apply managed_outputs_In. now exists v. }
  apply plan_correct_intro with (items := items).
  - apply fold_place_NoDup. constructor.
  - apply fold_place_pairwise, pairwise_disjoint_nil.
  - intros r I. apply fold_place_keys. now right.
  - intros e I. apply fold_place_sizes in I. destruct I as [[]|I]. exact I.
  - intros r sz F. destruct (Src r sz F) as (v & I & R).
    destruct (Cover v sz I) as (n & In_ops & In_out).
    apply Items. exists n, v. repeat split; auto.
    now apply um_find_NoDup.
  - intros r sz sz' F I. destruct (Src r sz F) as (v & Iv & R).
    apply Items in I. destruct I as (n & v' & _ & _ & R' & S').
    apply um_find_In in S'. eapply Agree; eauto.
Qed.

(* ================================================================== *)
(** ** The scenarios of the spec *)

Example scenario_linear_scan :
  linearScanHeuristic scenario
  = [(LiveRange.mk 0 3, Region.mk 0 100); (LiveRange.mk 1 2, Region.mk 100 40);
     (LiveRange.mk 4 6, Region.mk 0 60); (LiveRange.mk 5 7, Region.mk 60 30)]
  /\ getTotalAllocationSize (linearScanHeuristic scenario) = 140.
Proof. split; reflexivity. Qed.

Example scenario_greedy_by_size :
  greedyBySize scenario
  = [(LiveRange.mk 0 3, Region.mk 0 100); (LiveRange.mk 4 6, Region.mk 0 60);
     (LiveRange.mk 1 2, Region.mk 100 40); (LiveRange.mk 5 7, Region.mk 60 30)]
  /\ getTotalAllocationSize (greedyBySize scenario) = 140.
Proof. split; reflexivity. Qed.

Example scenario_single_chain :
  let chain := [(LiveRange.mk 0 1, 10); (LiveRange.mk 2 3, 10);
                (LiveRange.mk 4 5, 10)] in
  map (fun e => Region.offset (snd e)) (linearScanHeuristic chain) = [0; 0; 0]
  /\ map (fun e => Region.offset (snd e)) (greedyBySize chain) = [0; 0; 0]
  /\ getTotalAllocationSize (greedyBySize chain) = 10.
Proof. repeat split; reflexivity. Qed.

Example scenario_trace_sweep :
  exists st,
    process_mem_events (TraceState.mk [] [] [])
      [mem_event 1 "X" 16 "%1" Allocate; mem_event 2 "Y" 8 "%2" Allocate;
       mem_event 5 "Y" 8 "%2" Free; mem_event 9 "X" 16 "%1" Free] = Ok st
    /\ TraceState.managed_live_ranges st
       = [(LiveRange.mk 2 5, 8); (LiveRange.mk 1 9, 16)]
    /\ linearScanHeuristic (TraceState.managed_live_ranges st)
       = [(LiveRange.mk 1 9, Region.mk 0 16); (LiveRange.mk 2 5, Region.mk 16 8)].
Proof. eexists. repeat split; reflexivity. Qed.

Example scenario_bad_trace :
  is_ok (process_mem_events (TraceState.mk [] [] [])
           [mem_event 1 "X" 16 "%1" Allocate; mem_event 5 "X" 8 "%1" Free])
  = false.
Proof. reflexivity. Qed.

(* ================================================================== *)
(** ** What [getManagedValues] hands to greedy by breadth *)

Lemma manageOutput_sizes env node acc v :
  fst (manageOutput env node acc v) = fst acc
  \/ exists sz, fst (manageOutput env node acc v) = um_insert v sz (fst acc).
Proof.
  unfold manageOutput. destruct acc as [sizes warnings]. simpl.
  destruct (existsb (Nat.eqb v) (always_alive env)); [now left|].
  destruct (computeStorageSize env v) as [[sz|] w].
  - destruct (0 <? sz); [right; now exists sz|].
    destruct (isOptimizableContainerType env node); now left.
  - destruct (isOptimizableContainerType env node); now left.
Qed.

Lemma manageOutputs_sizes env node outs : forall acc,
  let acc' := fold_left (manageOutput env node) outs acc in
  (NoDup (map fst (fst acc)) -> NoDup (map fst (fst acc')))
  /\ forall e, In e (fst acc') -> In e (fst acc) \/ In (fst e) outs.
Proof.
  induction outs as [|v outs IH]; simpl; intros acc; [tauto|].
  destruct (IH (manageOutput env node acc v)) as [ND Src].
  destruct (manageOutput_sizes env node acc v) as [Same|[sz Ins]].
  - rewrite Same in *. split; [exact ND|].
    intros e I. apply Src in I. tauto.
  - rewrite Ins in *. split.
    + intros H. apply ND. now apply um_insert_NoDup.
    + intros e I. apply Src in I. destruct I as [I|I]; [|tauto].
      apply um_insert_In in I. destruct I as [I|[-> _]]; [tauto|].
      right. now left.
Qed.

Lemma getManagedValues_loop_covers env ns : forall out_nodes acc,
  NoDup (map fst (fst acc)) ->
  (forall e, In e (fst acc) ->
     exists n, In n out_nodes /\ In (fst e) (Node.outputs n)) ->
  let res := getManagedValues_loop env ns out_nodes acc in
  NoDup (map fst (fst (snd res)))
  /\ forall e, In e (fst (snd res)) ->
       exists n, In n (fst res) /\ In (fst e) (Node.outputs n).
Proof.
  induction ns as [|node ns IH]; simpl; intros out_nodes acc ND Cov.
  - split; assumption.
  - destruct (hasOutVariant env node); [|now apply IH].
    destruct (manageOutputs_sizes env node (Node.outputs node) acc) as [ND' Src].
    apply IH; [now apply ND'|].
    intros e I. apply Src in I. destruct I as [I|I].
    + destruct (Cov e I) as (n & In_n & In_o).
      exists n. split; [apply in_or_app; now left|exact In_o].
    + exists node. split; [apply in_or_app; right; now left|exact I].
Qed.

(** The sizes returned by [getManagedValues] form a map, and every value
    in it is an output of one of the nodes returned with it: the first two
    parts of [breadth_input_ok] hold inside [planMemory]. *)
Lemma getManagedValues_covers env graph :
  NoDup (map fst (fst (snd (getManagedValues env graph))))
  /\ forall v sz, In (v, sz) (fst (snd (getManagedValues env graph))) ->
       exists n, In n (fst (getManagedValues env graph))
                 /\ In v (Node.outputs n).
Proof.
  destruct (@getManagedValues_loop_covers env (Graph.nodes graph) [] ([], []))
    as [ND Cov].
  - constructor.
  - intros e [].
  - split; [exact ND|]. intros v sz I. apply (Cov (v, sz) I).
Qed.

(* ================================================================== *)
(** ** Correctness of every plan *)

Lemma plan_correct_of_values sizes ranges (m : ManagedRanges) (P : Plan) :
  (forall r sz, um_find r m = Some sz ->
     exists v, In (v, sz) sizes /\ um_find v ranges = Some r) ->
  plan_correct m P -> plan_of_values sizes ranges m P.
Proof.
  intros Src [Sz PW]. split; [|exact PW].
  intros r sz F. destruct (Sz r sz F) as (reg & FP & <-).
  exists reg. split; [exact FP|]. now apply Src.
Qed.

(** Greedy by breadth, whatever sizes the values that share a range have:
    every managed range is planned, with the size of one of its values, and
    nothing collides. *)
Lemma greedyByOperatorBreadth_places env sizes ranges ops (m : ManagedRanges) :
  NoDup (map fst sizes) ->
  (forall v sz, In (v, sz) sizes ->
     exists n, In n ops /\ In v (Node.outputs n)) ->
  (forall r sz, um_find r m = Some sz ->
     exists v, In (v, sz) sizes /\ um_find v ranges = Some r) ->
  plan_of_values sizes ranges m (greedyByOperatorBreadth env sizes ranges ops).
Proof.
  intros ND Cover Src. unfold greedyByOperatorBreadth.
  set (by_breadth := sort _ ops).
  set (items := flat_map (managed_outputs sizes ranges) by_breadth).
  assert (Items : forall r sz, In (r, sz) items
            <-> exists n v, In n ops /\ In v (Node.outputs n)
                  /\ um_find v ranges = Some r /\ um_find v sizes = Some sz).
  { intros r sz. unfold items. rewrite in_flat_map. split.
    - intros (n & I & H). apply managed_outputs_In in H.
      destruct H as (v & H). exists n, v. split; [|exact H].
      unfold by_breadth in I. now apply sort_In in I.
    - intros (n & v & I & H). exists n. split.
      + unfold by_breadth. now apply sort_In.
      + apply managed_outputs_In. now exists v. }
  set (P := fold_left place items []).
  assert (NDP : NoDup (map fst P)) by (apply fold_place_NoDup; constructor).
  split.
  - intros r sz F. destruct (Src r sz F) as (v & I & R).
    destruct (Cover v sz I) as (n & In_ops & In_out).
    assert (K : In r (map fst P)).
    { apply fold_place_keys. right.
      change r with (fst (r, sz)). apply in_map. apply Items.
      exists n, v. repeat split; auto. now apply um_find_NoDup. }
    apply in_map_iff in K. destruct K as ([r' reg] & <- & K). simpl.
    exists reg. split; [now apply um_find_NoDup|].
    apply fold_place_sizes in K. destruct K as [[]|K]. simpl in K.
    apply Items in K. destruct K as (n' & v' & _ & _ & R' & S').
    exists v'. split; [now apply um_find_In in S'|exact R'].
  - intros r1 r2 reg1 reg2 NE F1 F2 O.
    apply um_find_In in F1, F2.
    apply (@fold_place_pairwise items [] pairwise_disjoint_nil
             (r1, reg1) (r2, reg2)); assumption.
Qed.

Lemma values_of_keys m : forall i,
  map fst (fst (values_of i m)) = seq i (List.length m)
  /\ map fst (snd (values_of i m)) = seq i (List.length m).
Proof.
  induction m as [|[r sz] m IH]; simpl; intros i; [split; reflexivity|].
  destruct (IH (S i)) as [A B]. now rewrite A, B.
Qed.

Lemma values_of_sound m : forall i v s r,
  In (v, s) (fst (values_of i m)) ->
  um_find v (snd (values_of i m)) = Some r -> In (r, s) m.
Proof.
  induction m as [|[r0 sz] m IH]; simpl; intros i v s r; [tauto|].
  destruct (values_of_keys m (S i)) as [A _].
  unfold eqb, Eqb_nat. destruct (Nat.eqb v i) eqn:G.
  - apply Nat.eqb_eq in G. subst v. intros [[= <-]|I] [= <-]; [now left|].
    apply (in_map fst) in I. rewrite A in I. simpl in I.
    apply in_seq in I. lia.
  - apply Nat.eqb_neq in G. intros [[= Q _]|I] F; [congruence|].
    right. eapply IH; eauto.
Qed.

Lemma values_of_complete m : forall i r s,
  In (r, s) m ->
  exists v, In (v, s) (fst (values_of i m))
            /\ um_find v (snd (values_of i m)) = Some r.
Proof.
  induction m as [|[r0 sz] m IH]; simpl; intros i r s; [tauto|].
  intros [[= -> ->]|I].
  - exists i. split; [now left|]. now rewrite eqb_refl.
  - destruct (IH (S i) r s I) as (v & Iv & F).
    exists v. split; [now right|].
    destruct (values_of_keys m (S i)) as [_ B].
    assert (K : In v (map fst (snd (values_of (S i) m)))).
    { apply um_find_In in F. now apply (in_map fst) in F. }
    rewrite B in K. apply in_seq in K.
    unfold eqb at 1, Eqb_nat. destruct (Nat.eqb v i) eqn:G; [|exact F].
    apply Nat.eqb_eq in G. lia.
Qed.

Lemma values_of_describe (m : ManagedRanges) :
  NoDup (map fst m) ->
  breadth_input_ok (fst (values_of 0 m)) (snd (values_of 0 m)) [maker_of m]
  /\ forall r sz, um_find r m = Some sz ->
       exists v, In (v, sz) (fst (values_of 0 m))
                 /\ um_find v (snd (values_of 0 m)) = Some r.
Proof.
  intros ND. split; [split; [|split]|].
  - rewrite (proj1 (values_of_keys m 0)). apply seq_NoDup.
  - intros v sz I. exists (maker_of m). split; [now left|]. simpl.
    now apply (in_map fst) in I.
  - intros v1 v2 s1 s2 r I1 I2 F1 F2.
    pose proof (values_of_sound m 0 _ _ I1 F1) as M1.
    pose proof (values_of_sound m 0 _ _ I2 F2) as M2.
    apply (um_find_NoDup _ _ _ ND) in M1, M2. congruence.
  - intros r sz F. apply values_of_complete. now apply um_find_In.
Qed.




(* ================================================================== *)
(** ** More on the static liveness extraction *)

Lemma getManagedValues_loop_out_nodes env ns : forall out_nodes acc,
  fst (getManagedValues_loop env ns out_nodes acc)
  = out_nodes ++ filter (hasOutVariant env) ns.
Proof.
  induction ns as [|node ns IH]; simpl; intros out_nodes acc.
  - now rewrite app_nil_r.
  - destruct (hasOutVariant env node); [|apply IH].
    rewrite IH, <- app_assoc. reflexivity.
Qed.

(** The nodes returned by [getManagedValues] are the nodes of the graph
    that have an out variant, in the order of the graph. *)
Theorem getManagedValues_out_nodes env graph :
  fst (getManagedValues env graph)
  = filter (hasOutVariant env) (Graph.nodes graph).
Proof. apply (getManagedValues_loop_out_nodes env (Graph.nodes graph) [] ([], [])). Qed.

Lemma computeStorageSize_Some env v sz w :
  computeStorageSize env v = (Some sz, w) ->
  w = []
  /\ exists ttp scalar_type numel,
      value_type env v = Some ttp
      /\ TensorType.scalarType ttp = Some scalar_type
      /\ TensorType.sizes ttp <> None
      /\ TensorType.numel ttp = Some numel
      /\ sz = wrap64 (numel * elementSize env scalar_type).
Proof.
  unfold computeStorageSize.
  destruct (value_type env v) as [ttp|]; [|discriminate].
  destruct (TensorType.scalarType ttp) as [st|] eqn:S; [|discriminate].
  destruct (TensorType.sizes ttp) as [ss|] eqn:Z; [|discriminate].
  destruct (TensorType.numel ttp) as [n|] eqn:N; [|discriminate].
  intros [= <- <-]. split; [reflexivity|].
  exists ttp, st, n. repeat split; auto. rewrite Z. discriminate.
Qed.

Lemma manageOutput_entries env node acc v e :
  In e (fst (manageOutput env node acc v)) ->
  In e (fst acc) \/ managed_entry_ok env e.
Proof.
  unfold manageOutput. destruct acc as [sizes warnings]. simpl.
  destruct (existsb (Nat.eqb v) (always_alive env)) eqn:A; [tauto|].
  destruct (computeStorageSize env v) as [[sz|] w] eqn:C.
  - destruct (0 <? sz) eqn:P.
    + simpl. intros I. apply um_insert_In in I.
      destruct I as [I|[-> _]]; [tauto|]. right.
      apply computeStorageSize_Some in C. destruct C as [_ T].
      apply Z.ltb_lt in P. split; [exact A|]. split; [|exact T]. simpl.
      destruct T as (ttp & st & n & _ & _ & _ & _ & ->).
      pose proof (wrap64_range (n * elementSize env st)). lia.
    + destruct (isOptimizableContainerType env node); simpl; tauto.
  - destruct (isOptimizableContainerType env node); simpl; tauto.
Qed.

Lemma manageOutputs_entries env node outs : forall acc e,
  In e (fst (fold_left (manageOutput env node) outs acc)) ->
  In e (fst acc) \/ managed_entry_ok env e.
Proof.
  induction outs as [|v outs IH]; simpl; intros acc e I; [tauto|].
  apply IH in I. destruct I as [I|I]; [|tauto].
  now apply manageOutput_entries in I.
Qed.

Lemma getManagedValues_loop_entries env ns : forall out_nodes acc e,
  In e (fst (snd (getManagedValues_loop env ns out_nodes acc))) ->
  In e (fst acc) \/ managed_entry_ok env e.
Proof.
  induction ns as [|node ns IH]; simpl; intros out_nodes acc e I; [tauto|].
  destruct (hasOutVariant env node); apply IH in I; [|exact I].
  destruct I as [I|I]; [|tauto]. now apply manageOutputs_entries in I.
Qed.

Lemma getManagedValues_entries env graph e :
  In e (fst (snd (getManagedValues env graph))) -> managed_entry_ok env e.
Proof.
  intros I. apply getManagedValues_loop_entries in I. destruct I as [[]|I]. exact I.
Qed.

(** Every value that [getManagedValues] manages is well typed and has a
    size that is positive and fits 64 bits. *)
Theorem getManagedValues_sizes_well_typed env graph :
  Forall (managed_entry_ok env) (fst (snd (getManagedValues env graph))).
Proof. apply Forall_forall. intros e. apply getManagedValues_entries. Qed.

Lemma getManagedValues_producers env graph v sz :
  In (v, sz) (fst (snd (getManagedValues env graph))) ->
  exists n, In n (Graph.nodes graph) /\ hasOutVariant env n = true
            /\ In v (Node.outputs n).
Proof.
  intros I. destruct (getManagedValues_covers env graph) as [_ Cov].
  destruct (Cov v sz I) as (n & In_n & In_o).
  unfold getManagedValues in In_n.
  rewrite getManagedValues_loop_out_nodes in In_n. simpl in In_n.
  apply filter_In in In_n. exists n. tauto.
Qed.

(** The sizes returned by [getManagedValues] have no repeated value, and
    every value in them is an output of a node of the graph that has an
    out variant. *)
Theorem getManagedValues_values_of_out_nodes env graph :
  NoDup (map fst (fst (snd (getManagedValues env graph))))
  /\ Forall
       (fun e => exists n, In n (Graph.nodes graph)
                           /\ hasOutVariant env n = true
                           /\ In (fst e) (Node.outputs n))
       (fst (snd (getManagedValues env graph))).
Proof.
  split; [apply getManagedValues_covers|].
  apply Forall_forall. intros [v sz] I. simpl.
  eapply getManagedValues_producers; eauto.
Qed.

Lemma managed_ranges_fold (sizes : list (Value * Z)) v live :
  forall acc : list (Value * LiveRange.t),
  um_find v
    (fold_left
       (fun acc lvr =>
          if um_mem (fst lvr) sizes
          then um_insert (fst lvr) (snd lvr) acc else acc)
       live acc)
  = match um_find v acc with
    | Some r => Some r
    | None => if um_mem v sizes then um_find v live else None
    end.
Proof.
  induction live as [|[v0 r0] live IH]; simpl; intros acc.
  - destruct (um_find v acc); [reflexivity|]. now destruct (um_mem v sizes).
  - rewrite IH. destruct (um_mem v0 sizes) eqn:M0.
    + unfold um_insert. destruct (um_mem v0 acc) eqn:MA.
      * destruct (um_find v acc) eqn:F; [reflexivity|].
        destruct (eqb v v0) eqn:G; [|reflexivity].
        apply eqb_eq in G. subst v0. unfold um_mem in MA. rewrite F in MA. discriminate.
      * rewrite um_find_app. destruct (um_find v acc) eqn:F; [reflexivity|].
        simpl. destruct (eqb v v0) eqn:G.
        -- apply eqb_eq in G. subst v0. now rewrite M0.
        -- reflexivity.
    + destruct (um_find v acc) eqn:F; [reflexivity|].
      destruct (eqb v v0) eqn:G; [|reflexivity].
      apply eqb_eq in G. subst v0. now rewrite M0.
Qed.

Lemma getManagedStuff_ranges_lookup env graph v :
  um_find v (snd (fst (getManagedStuff env graph)))
  = if um_mem v (snd (fst (fst (getManagedStuff env graph))))
    then um_find v (liveness env) else None.
Proof.
  unfold getManagedStuff.
  destruct (getManagedValues env graph) as [out_nodes [sizes warnings]]. simpl.
  apply (managed_ranges_fold sizes v (liveness env) []).
Qed.

(** The ranges returned by [getManagedStuff] are the liveness of the alias
    analysis restricted to the managed values: a managed value has the
    range the analysis gives it, if any, and no other value has one. *)
Theorem getManagedStuff_ranges env graph v :
  um_find v (snd (fst (getManagedStuff env graph)))
  = if um_mem v (snd (fst (fst (getManagedStuff env graph))))
    then um_find v (liveness env) else None.
Proof. apply getManagedStuff_ranges_lookup. Qed.

(* ================================================================== *)
(** ** More on the first loop of [planMemory] *)

Lemma um_mem_cons {V : Type} (v v0 : Value) (s : V) (rest : list (Value * V)) :
  um_mem v ((v0, s) :: rest) = (eqb v v0 || um_mem v rest)%bool.
Proof. unfold um_mem. simpl. now destruct (eqb v v0). Qed.

Lemma managedLiveRanges_fold_ranges v sizes : forall acc,
  um_find v (fst (fold_left managedLiveRanges_step sizes acc))
  = match um_find v (fst acc) with
    | Some r => Some r
    | None => if um_mem v sizes then Some default_LiveRange else None
    end.
Proof.
  induction sizes as [|[v0 s] sizes IH]; simpl; intros acc.
  - now destruct (um_find v (fst acc)).
  - rewrite IH. destruct acc as [ranges managed].
    unfold managedLiveRanges_step, um_index. simpl.
    rewrite um_mem_cons.
    destruct (um_find v0 ranges) as [r0|] eqn:F0; simpl.
    + destruct (um_find v ranges) eqn:F; [reflexivity|].
      destruct (eqb v v0) eqn:G; [|reflexivity].
      apply eqb_eq in G. subst v0. congruence.
    + rewrite um_find_app. destruct (um_find v ranges) eqn:F; [reflexivity|].
      simpl. destruct (eqb v v0); reflexivity.
Qed.

(** After the first loop of [planMemory] every sized value has a range: a
    range that was there is kept, and a sized value that had none has
    been given the value initialised range [[0,0]]. No other value has
    got one. *)
Theorem managedLiveRanges_ranges sizes ranges0 v :
  um_find v (fst (managedLiveRanges sizes ranges0))
  = match um_find v ranges0 with
    | Some r => Some r
    | None => if um_mem v sizes then Some default_LiveRange else None
    end.
Proof. apply (managedLiveRanges_fold_ranges v sizes (ranges0, [])). Qed.

Lemma managedLiveRanges_fold_untouched (r : LiveRange.t) sizes : forall acc,
  (forall v s, In (v, s) sizes ->
     um_find v (fst (fold_left managedLiveRanges_step sizes acc)) <> Some r) ->
  um_find r (snd (fold_left managedLiveRanges_step sizes acc))
  = um_find r (snd acc).
Proof.
  induction sizes as [|[v0 s0] sizes IH]; simpl; intros acc H; [reflexivity|].
  rewrite IH by (intros v s I; apply (H v s); now right).
  destruct (managedLiveRanges_fold sizes (managedLiveRanges_step acc (v0, s0)))
    as (_ & St & _).
  specialize (H v0 s0 (or_introl eq_refl)).
  destruct acc as [ranges managed]. unfold managedLiveRanges_step in *. simpl in *.
  destruct (um_index_spec default_LiveRange v0 ranges) as [Here _].
  destruct (um_index default_LiveRange v0 ranges) as [r0 ranges1]. simpl in *.
  rewrite um_find_set. destruct (eqb r r0) eqn:G; [|reflexivity].
  apply eqb_eq in G. subst r0. exfalso. apply H. now apply St.
Qed.

Lemma managedLiveRanges_fold_last l1 v sz l2 (r : LiveRange.t) : forall acc,
  um_find v (fst (fold_left managedLiveRanges_step (l1 ++ (v, sz) :: l2) acc))
  = Some r ->
  (forall v2 s2, In (v2, s2) l2 ->
     um_find v2 (fst (fold_left managedLiveRanges_step (l1 ++ (v, sz) :: l2) acc))
     <> Some r) ->
  um_find r (snd (fold_left managedLiveRanges_step (l1 ++ (v, sz) :: l2) acc))
  = Some sz.
Proof.
  intros acc. rewrite fold_left_app. simpl.
  set (acc1 := fold_left managedLiveRanges_step l1 acc).
  intros F H. rewrite managedLiveRanges_fold_untouched by exact H.
  destruct (managedLiveRanges_fold l2 (managedLiveRanges_step acc1 (v, sz)))
    as (_ & St & _).
  destruct acc1 as [ranges managed]. unfold managedLiveRanges_step in *. simpl in *.
  destruct (um_index_spec default_LiveRange v ranges) as [Here _].
  destruct (um_index default_LiveRange v ranges) as [r0 ranges1]. simpl in *.
  apply St in Here. rewrite Here in F. inversion F; subst.
  rewrite um_find_set, eqb_refl. reflexivity.
Qed.



Lemma managedLiveRanges_fold_keys sizes : forall acc r,
  um_mem r (snd acc) = true ->
  um_mem r (snd (fold_left managedLiveRanges_step sizes acc)) = true.
Proof.
  induction sizes as [|[v0 s0] sizes IH]; simpl; intros acc r M; [exact M|].
  apply IH. destruct acc as [ranges managed].
  unfold managedLiveRanges_step. simpl.
  destruct (um_index default_LiveRange v0 ranges) as [r0 ranges1]. simpl in *.
  unfold um_mem in *. rewrite um_find_set.
  destruct (eqb r r0); [reflexivity|exact M].
Qed.

Lemma managedLiveRanges_fold_cover sizes : forall acc v s,
  In (v, s) sizes ->
  exists r,
    um_find v (fst (fold_left managedLiveRanges_step sizes acc)) = Some r
    /\ um_mem r (snd (fold_left managedLiveRanges_step sizes acc)) = true.
Proof.
  induction sizes as [|[v0 s0] sizes IH]; simpl; intros acc v s I; [destruct I|].
  destruct I as [[= -> ->]|I]; [|now apply (IH _ v s)].
  destruct (managedLiveRanges_fold sizes (managedLiveRanges_step acc (v, s)))
    as (_ & St & _).
  pose proof (managedLiveRanges_fold_keys sizes (managedLiveRanges_step acc (v, s))) as K.
  destruct acc as [ranges managed]. unfold managedLiveRanges_step in *. simpl in *.
  destruct (um_index_spec default_LiveRange v ranges) as [Here _].
  destruct (um_index default_LiveRange v ranges) as [r0 ranges1]. simpl in *.
  exists r0. split; [now apply St|].
  apply K. unfold um_mem. rewrite um_find_set, eqb_refl. reflexivity.
Qed.

(** [managed_live_ranges] has no repeated range, holds the range of every
    sized value, and every size in it is the size of a value that has the
    range. *)
Theorem managedLiveRanges_is_the_map_of_the_values sizes ranges0 :
  let ranges := fst (managedLiveRanges sizes ranges0) in
  let managed := snd (managedLiveRanges sizes ranges0) in
  NoDup (map fst managed)
  /\ Forall (fun e => exists r, um_find (fst e) ranges = Some r
                                /\ um_mem r managed = true) sizes
  /\ Forall (fun m => exists v, In (v, snd m) sizes
                                /\ um_find v ranges = Some (fst m)) managed.
Proof.
  intros ranges managed. split; [apply managedLiveRanges_NoDup|]. split.
  - apply Forall_forall. intros [v s] I. simpl.
    apply (managedLiveRanges_fold_cover sizes (ranges0, []) v s I).
  - apply Forall_forall. intros [r sz] I. simpl.
    apply managedLiveRanges_source.
    apply um_find_NoDup; [apply managedLiveRanges_NoDup|exact I].
Qed.

(* ================================================================== *)
(** ** More on the total of a plan *)

Lemma total_fold_perm (P P' : Plan) :
  Permutation P P' ->
  forall acc,
  fold_left
    (fun total_size item =>
       Z.max total_size
         (wrap64 (Region.offset (snd item) + Region.size (snd item))))
    P acc
  = fold_left
      (fun total_size item =>
         Z.max total_size
           (wrap64 (Region.offset (snd item) + Region.size (snd item))))
      P' acc.
Proof.
  induction 1 as [|x l l' _ IH|x y l|l l' l'' _ IH1 _ IH2]; simpl; intros acc.
  - reflexivity.
  - apply IH.
  - f_equal. lia.
  - now rewrite IH1.
Qed.

(** The total does not depend on the order in which the plan is iterated,
    which the hash map leaves open. *)
Theorem getTotalAllocationSize_any_order (P P' : Plan) :
  Permutation P P' -> getTotalAllocationSize P = getTotalAllocationSize P'.
Proof. intros H. now apply total_fold_perm. Qed.

Lemma getTotalAllocationSize_any_order_witness :
  Permutation (linearScanHeuristic scenario) (greedyBySize scenario)
  /\ getTotalAllocationSize (linearScanHeuristic scenario)
     = getTotalAllocationSize (greedyBySize scenario).
Proof.
  assert (H : Permutation (linearScanHeuristic scenario) (greedyBySize scenario)).
  { vm_compute. apply perm_skip. apply perm_swap. }
  split; [exact H|].
  exact (getTotalAllocationSize_any_order H).
Defined.

Lemma total_fold_attained (P : Plan) : forall acc,
  let total :=
    fold_left
      (fun total_size item =>
         Z.max total_size
           (wrap64 (Region.offset (snd item) + Region.size (snd item))))
      P acc in
  total = acc
  \/ exists e, In e P
               /\ total = wrap64 (Region.offset (snd e) + Region.size (snd e)).
Proof.
  induction P as [|x P IH]; simpl; intros acc; [now left|].
  destruct (IH (Z.max acc (wrap64 (Region.offset (snd x) + Region.size (snd x)))))
    as [H|(e & I & H)].
  - destruct (Z.max_spec acc (wrap64 (Region.offset (snd x) + Region.size (snd x))))
      as [[_ M]|[_ M]].
    + right. exists x. split; [now left|]. now rewrite H.
    + left. now rewrite H.
  - right. exists e. split; [now right|exact H].
Qed.

(** The total of a plan is the largest end of a region of the plan, in
    64-bit arithmetic: it bounds the end of every region, it is the end of
    one of them unless it is 0, and it fits 64 bits. *)
Theorem getTotalAllocationSize_is_the_largest_end (P : Plan) :
  Forall (fun e => wrap64 (Region.offset (snd e) + Region.size (snd e))
                   <= getTotalAllocationSize P) P
  /\ (getTotalAllocationSize P = 0
      \/ exists e, In e P
                   /\ getTotalAllocationSize P
                      = wrap64 (Region.offset (snd e) + Region.size (snd e)))
  /\ is_u64 (getTotalAllocationSize P).
Proof.
  split; [|split].
  - apply Forall_forall. intros e I. now apply total_fold_bound.
  - apply (total_fold_attained P 0).
  - apply getTotalAllocationSize_u64.
Qed.

(* ================================================================== *)
(** ** More on the second loop of [planMemory] *)

Lemma om_insert_length k v (m : list (LiveRange.t * Value)) :
  StronglySorted Z.lt (begins m) ->
  List.length (om_insert live_range_start_cmp k v m)
  = match om_find live_range_start_cmp k m with
    | Some _ => List.length m
    | None => S (List.length m)
    end.
Proof.
  induction m as [|[k' v'] m IH]; simpl; intros S; [reflexivity|].
  inversion S as [|? ? S' F]; subst.
  unfold om_equiv.
  destruct (live_range_start_cmp k k') eqn:A; simpl.
  - destruct (om_find live_range_start_cmp k m) as [other|] eqn:O; [|reflexivity].
    exfalso. assert (I : In (LiveRange.begin k) (begins m))
      by (apply om_find_begins; eauto).
    rewrite Forall_forall in F. specialize (F _ I).
    unfold live_range_start_cmp in A. apply Z.ltb_lt in A. simpl in F. lia.
  - destruct (live_range_start_cmp k' k) eqn:B; simpl; [|reflexivity].
    rewrite IH by assumption.
    now destruct (om_find live_range_start_cmp k m).
Qed.

Lemma managedRangeValues_fold_count ranges : forall acc,
  StronglySorted Z.lt (begins (fst acc)) ->
  (List.length (fst (fold_left managedRangeValues_step ranges acc))
   + List.length (snd (fold_left managedRangeValues_step ranges acc)))%nat
  = (List.length (fst acc) + List.length (snd acc) + List.length ranges)%nat.
Proof.
  induction ranges as [|[v r] ranges IH]; simpl; intros acc S; [lia|].
  destruct acc as [m w]. simpl in S.
  rewrite IH by (simpl; now apply om_insert_sorted). simpl.
  rewrite om_insert_length by assumption.
  destruct (om_find live_range_start_cmp r m); [rewrite length_app; simpl|]; lia.
Qed.

(** [managed_range_values] is in strictly ascending order of [begin]; it
    holds the [begin] of every range it was given; each of its entries is
    one of the given pairs; and every given pair that did not make an
    entry has raised one warning. *)
Theorem managedRangeValues_one_entry_per_begin
  (ranges : list (Value * LiveRange.t)) :
  let m := fst (managedRangeValues ranges) in
  let w := snd (managedRangeValues ranges) in
  StronglySorted Z.lt (begins m)
  /\ Forall (fun e => In (LiveRange.begin (snd e)) (begins m)) ranges
  /\ Forall (fun e => In (snd e, fst e) ranges) m
  /\ (List.length m + List.length w = List.length ranges)%nat.
Proof.
  intros m w.
  pose proof (managedRangeValues_fold ranges ([], [])) as (S & E & _ & _ & C).
  split; [apply S; constructor|]. split; [|split].
  - apply Forall_forall. intros e I. now apply C.
  - apply Forall_forall. intros e I. destruct (E e I) as [[]|J]. exact J.
  - apply (managedRangeValues_fold_count ranges ([], [])). constructor.
Qed.

(* ================================================================== *)
(** ** More on the materialization in static mode *)

Lemma gains_inputs_refl n : gains_inputs n n.
Proof. repeat split. exists []. now rewrite app_nil_r. Qed.

Lemma gains_inputs_trans a b c :
  gains_inputs a b -> gains_inputs b c -> gains_inputs a c.
Proof.
  intros (I1 & K1 & O1 & A1 & x1 & E1) (I2 & K2 & O2 & A2 & x2 & E2).
  repeat split; try congruence.
  exists (x1 ++ x2). rewrite E2, E1, app_assoc. reflexivity.
Qed.

Lemma Forall2_gains_inputs_trans l1 : forall l2 l3,
  Forall2 gains_inputs l1 l2 -> Forall2 gains_inputs l2 l3 ->
  Forall2 gains_inputs l1 l3.
Proof.
  induction l1 as [|a l1 IH]; intros l2 l3 H12 H23.
  - inversion H12; subst. inversion H23; subst. constructor.
  - inversion H12; subst. inversion H23; subst. constructor.
    + eapply gains_inputs_trans; eauto.
    + eapply IH; eauto.
Qed.

Lemma without_kind_add_input_at k target v ns :
  Forall2 gains_inputs (without_kind k ns)
          (without_kind k (add_input_at target v ns)).
Proof.
  unfold without_kind, add_input_at.
  induction ns as [|n ns IH]; simpl; [constructor|].
  destruct (Nat.eqb (Node.id n) target); simpl.
  - destruct (negb (NodeKind_eqb (Node.kind n) k)); [|exact IH].
    constructor; [|exact IH]. repeat split. now exists [v].
  - destruct (negb (NodeKind_eqb (Node.kind n) k)); [|exact IH].
    constructor; [apply gains_inputs_refl|exact IH].
Qed.

Lemma without_kind_insert_before k fresh target ns :
  Node.kind fresh = k -> NodeKind_eqb k k = true ->
  without_kind k (insert_before fresh target ns) = without_kind k ns.
Proof.
  intros KF KK. unfold without_kind.
  induction ns as [|n ns IH]; simpl; [reflexivity|].
  destruct (Nat.eqb (Node.id n) target); simpl.
  - now rewrite KF, KK.
  - destruct (negb (NodeKind_eqb (Node.kind n) k)); now rewrite IH.
Qed.

(** What a step of [insertAllocTensorNodes] that succeeds has made. *)
Lemma insertAllocTensorNode_Ok env storage total allocations graph lvr v g' :
  insertAllocTensorNode env storage total allocations graph (lvr, v) = Ok g' ->
  exists node storage_out ttp dtype device alloc,
    producer v (Graph.nodes graph) = Some node
    /\ output storage = Ok storage_out
    /\ value_type env v = Some ttp
    /\ TensorType.scalarType ttp = Some dtype
    /\ attr_i storage "device" = Ok device
    /\ wrap64 (Region.offset (um_get_default default_Region lvr allocations)
               + Region.size (um_get_default default_Region lvr allocations))
       <= total
    /\ Node.id alloc = Graph.next_node graph
    /\ Node.kind alloc = AllocateTensor
    /\ Node.inputs alloc = [storage_out]
    /\ Node.outputs alloc = [Graph.next_value graph]
    /\ attr_i alloc "size"
       = Ok (to_int64 (Region.size (um_get_default default_Region lvr allocations)))
    /\ attr_i alloc "offset"
       = Ok (to_int64 (Region.offset (um_get_default default_Region lvr allocations)))
    /\ g' = Graph.mk
              (insert_before alloc (Node.id node)
                 (add_input_at (Node.id node) (Graph.next_value graph)
                    (Graph.nodes graph)))
              (S (Graph.next_node graph)) (Graph.next_value graph + 1)%nat.
Proof.
  unfold insertAllocTensorNode.
  destruct (producer v (Graph.nodes graph)) as [node|]; [|discriminate].
  simpl. destruct (output storage) as [storage_out|]; simpl; [|discriminate].
  destruct (value_type env v) as [ttp|]; [|discriminate].
  destruct (getSizesStrides ttp) as [sizes strides].
  destruct (wrap64 _ <=? total) eqn:C; simpl; [|discriminate].
  destruct (attr_i storage "device") as [device|]; simpl; [|discriminate].
  destruct (TensorType.scalarType ttp) as [dtype|] eqn:D; [|discriminate].
  intros [= <-]. apply Z.leb_le in C.
  exists node, storage_out, ttp, dtype, device.
  match goal with |- context [insert_before ?a _ _] => exists a end.
  repeat split; try reflexivity; assumption.
Qed.

Lemma insertAllocTensorNodes_loop_keeps env storage total allocations items :
  forall graph g',
  insertAllocTensorNodes_loop env storage total allocations graph items = Ok g' ->
  Forall2 gains_inputs (without_kind AllocateTensor (Graph.nodes graph))
          (without_kind AllocateTensor (Graph.nodes g'))
  /\ Graph.next_node g' = (Graph.next_node graph + List.length items)%nat
  /\ Graph.next_value g' = (Graph.next_value graph + List.length items)%nat.
Proof.
  induction items as [|item rest IH]; simpl; intros graph g'.
  - intros [= <-]. split; [|lia].
    induction (without_kind AllocateTensor (Graph.nodes graph)); constructor;
      [apply gains_inputs_refl|assumption].
  - destruct (insertAllocTensorNode env storage total allocations graph item)
      as [g1|] eqn:S; simpl; [|intros X; discriminate X].
    intros L. destruct (IH _ _ L) as (K & N & V). clear IH L.
    destruct item as [lvr v].
    apply insertAllocTensorNode_Ok in S.
    destruct S as (node & so & ttp & dt & dev & alloc & _ & _ & _ & _ & _ & _
                   & _ & KA & _ & _ & _ & _ & ->).
    simpl in *. split; [|lia].
    eapply Forall2_gains_inputs_trans; [|exact K].
    rewrite without_kind_insert_before by (assumption || reflexivity).
    apply without_kind_add_input_at.
Qed.

Lemma insertAllocTensorNodes_keeps env graph storage allocations items g' :
  insertAllocTensorNodes env graph storage allocations items = Ok g' ->
  Forall2 gains_inputs (without_kind AllocateTensor (Graph.nodes graph))
          (without_kind AllocateTensor (Graph.nodes g'))
  /\ Graph.next_node g' = (Graph.next_node graph + List.length items)%nat
  /\ Graph.next_value g' = (Graph.next_value graph + List.length items)%nat.
Proof.
  unfold insertAllocTensorNodes.
  destruct (attr_i storage "total_size"); simpl; [|discriminate].
  apply insertAllocTensorNodes_loop_keeps.
Qed.

(** [insertAllocTensorNodes] keeps the nodes that were in the graph, in
    their order: none is removed, none changes its kind, outputs or
    attributes, and their inputs are only extended. It takes one fresh
    node and one fresh value for every entry of the map. *)
Theorem insertAllocTensorNodes_keeps_the_graph
  env graph storage allocations items g' :
  insertAllocTensorNodes env graph storage allocations items = Ok g' ->
  Forall2 gains_inputs (without_kind AllocateTensor (Graph.nodes graph))
          (without_kind AllocateTensor (Graph.nodes g'))
  /\ Graph.next_node g' = (Graph.next_node graph + List.length items)%nat
  /\ Graph.next_value g' = (Graph.next_value graph + List.length items)%nat.
Proof. apply insertAllocTensorNodes_keeps. Qed.

Lemma insertAllocTensorNodes_keeps_the_graph_witness :
  exists g',
    insertAllocTensorNodes twin_env twin_with_storage twin_storage twin_plan
      twin_range_values = Ok g'
    /\ Graph.next_node g' = 4%nat.
Proof.
  eexists. split; [reflexivity|].
  exact (proj1 (proj2
           (@insertAllocTensorNodes_keeps_the_graph twin_env twin_with_storage
              twin_storage twin_plan twin_range_values _ eq_refl))).
Defined.

Lemma producer_outputs v ns node :
  producer v ns = Some node -> In v (Node.outputs node).
Proof.
  induction ns as [|n ns IH]; simpl; [discriminate|].
  destruct (existsb (Nat.eqb v) (Node.outputs n)) eqn:X; [|exact IH].
  intros [= <-]. apply existsb_exists in X. destruct X as (x & I & Q).
  apply Nat.eqb_eq in Q. now subst.
Qed.

Lemma producer_exists v ns :
  (exists n, In n ns /\ In v (Node.outputs n)) ->
  exists node, producer v ns = Some node.
Proof.
  induction ns as [|n ns IH]; simpl; intros (m & I & O); [destruct I|].
  destruct (existsb (Nat.eqb v) (Node.outputs n)) eqn:X; [eauto|].
  destruct I as [<-|I].
  - exfalso. assert (T : existsb (Nat.eqb v) (Node.outputs n) = true).
    { apply existsb_exists. exists v. split; [exact O|apply Nat.eqb_refl]. }
    congruence.
  - apply IH. eauto.
Qed.

Lemma add_input_at_other target v ns :
  (forall n, In n ns -> Node.id n <> target) -> add_input_at target v ns = ns.
Proof.
  unfold add_input_at. induction ns as [|n ns IH]; simpl; intros H; [reflexivity|].
  rewrite IH by (intros m I; apply H; now right).
  destruct (Nat.eqb (Node.id n) target) eqn:T; [|reflexivity].
  apply Nat.eqb_eq in T. exfalso. apply (H n); [now left|exact T].
Qed.

Lemma insert_before_at fresh target pre n post :
  (forall m, In m pre -> Node.id m <> target) -> Node.id n = target ->
  insert_before fresh target (pre ++ n :: post) = pre ++ fresh :: n :: post.
Proof.
  intros H T. induction pre as [|m pre IH]; simpl.
  - rewrite T, Nat.eqb_refl. reflexivity.
  - destruct (Nat.eqb (Node.id m) target) eqn:X.
    + apply Nat.eqb_eq in X. exfalso. apply (H m); [now left|exact X].
    + rewrite IH by (intros x I; apply H; now right). reflexivity.
Qed.

Lemma NoDup_ids_split pre (n : Node.t) post :
  NoDup (map Node.id (pre ++ n :: post)) ->
  (forall m, In m pre -> Node.id m <> Node.id n)
  /\ (forall m, In m post -> Node.id m <> Node.id n).
Proof.
  rewrite map_app. simpl. intros ND.
  apply NoDup_remove_2 in ND. split; intros m I Q; apply ND, in_or_app.
  - left. rewrite <- Q. now apply in_map.
  - right. rewrite <- Q. now apply in_map.
Qed.

(** In a graph whose nodes have distinct addresses, a step of
    [insertAllocTensorNodes] that succeeds puts the fresh [AllocateTensor]
    node immediately before the node that makes the value, gives it the
    output of the storage node as its only input, and appends its output
    to the inputs of that node; the rest of the node list is as it was. *)
Theorem insertAllocTensorNode_lands_before_the_producer
  env storage total allocations graph lvr v g' :
  NoDup (map Node.id (Graph.nodes graph)) ->
  insertAllocTensorNode env storage total allocations graph (lvr, v) = Ok g' ->
  exists pre node post alloc storage_out,
    Graph.nodes graph = pre ++ node :: post
    /\ In v (Node.outputs node)
    /\ output storage = Ok storage_out
    /\ Node.kind alloc = AllocateTensor
    /\ Node.inputs alloc = [storage_out]
    /\ Node.outputs alloc = [Graph.next_value graph]
    /\ Graph.nodes g'
       = pre ++ alloc :: add_input (Graph.next_value graph) node :: post.
Proof.
  intros ND S. apply insertAllocTensorNode_Ok in S.
  destruct S as (node & so & ttp & dt & dev & alloc & P & O & _ & _ & _ & _
                 & _ & KA & IA & OA & _ & _ & ->).
  pose proof (producer_outputs _ _ P) as PO.
  apply producer_In in P. destruct (in_split _ _ P) as (pre & post & E).
  rewrite E in ND. destruct (NoDup_ids_split _ _ _ ND) as [Hpre Hpost].
  exists pre, node, post, alloc, so. simpl.
  repeat (split; [assumption|]).
  rewrite E. unfold add_input_at. rewrite map_app. simpl.
  rewrite Nat.eqb_refl.
  fold (add_input_at (Node.id node) (Graph.next_value graph) pre).
  fold (add_input_at (Node.id node) (Graph.next_value graph) post).
  rewrite !add_input_at_other by assumption.
  apply insert_before_at; [assumption|reflexivity].
Qed.

Lemma insertAllocTensorNode_lands_before_the_producer_witness :
  NoDup (map Node.id (Graph.nodes twin_with_storage))
  /\ exists g' pre node post alloc,
      insertAllocTensorNode twin_env twin_storage 8 twin_plan twin_with_storage
        (LiveRange.mk 0 1, 0%nat) = Ok g'
      /\ Graph.nodes twin_with_storage = pre ++ node :: post
      /\ Graph.nodes g'
         = pre ++ alloc :: add_input (Graph.next_value twin_with_storage) node
                 :: post.
Proof.
  assert (ND : NoDup (map Node.id (Graph.nodes twin_with_storage))).
  { simpl. repeat constructor; simpl; intuition discriminate. }
  split; [exact ND|].
  destruct (@insertAllocTensorNode_lands_before_the_producer twin_env
              twin_storage 8 twin_plan twin_with_storage (LiveRange.mk 0 1)
              0%nat _ ND eq_refl)
    as (pre & node & post & alloc & so & E & _ & _ & _ & _ & _ & E').
  eexists. exists pre, node, post, alloc.
  split; [reflexivity|]. split; [exact E|exact E'].
Defined.

(* ================================================================== *)
(** ** The static planner never raises *)

Lemma has_output_add_input_at target o ns v :
  (exists n, In n ns /\ In v (Node.outputs n)) ->
  exists n, In n (add_input_at target o ns) /\ In v (Node.outputs n).
Proof.
  intros (n & I & O).
  exists (if Nat.eqb (Node.id n) target then add_input o n else n). split.
  - unfold add_input_at.
    apply (in_map (fun n => if Nat.eqb (Node.id n) target
                            then add_input o n else n)) in I. exact I.
  - destruct (Nat.eqb (Node.id n) target); exact O.
Qed.

Lemma In_insert_before fresh target ns n :
  In n ns -> In n (insert_before fresh target ns).
Proof.
  induction ns as [|m ns IH]; simpl; [tauto|].
  destruct (Nat.eqb (Node.id m) target); simpl; intuition.
Qed.

Lemma insertAllocTensorNodes_loop_ok env storage allocations storage_out device :
  output storage = Ok storage_out ->
  attr_i storage "device" = Ok device ->
  forall items graph,
  (forall lvr v, In (lvr, v) items ->
     (exists n, In n (Graph.nodes graph) /\ In v (Node.outputs n))
     /\ exists ttp dtype, value_type env v = Some ttp
                          /\ TensorType.scalarType ttp = Some dtype) ->
  is_ok (insertAllocTensorNodes_loop env storage
           (getTotalAllocationSize allocations) allocations graph items) = true.
Proof.
  intros O D. induction items as [|[lvr v] rest IH];
    cbn [insertAllocTensorNodes_loop]; intros graph H; [reflexivity|].
  destruct (H lvr v (or_introl eq_refl)) as [Prod (ttp & dtype & T & ST)].
  destruct (producer_exists _ _ Prod) as [node P].
  pose proof (planned_region_within_total allocations lvr) as B. simpl in B.
  apply Z.leb_le in B.
  unfold insertAllocTensorNode at 1. rewrite P. cbn [create fst snd].
  cbn [output Node.outputs seq bind]. rewrite O. cbn [bind]. rewrite T.
  destruct (getSizesStrides ttp) as [sizes strides].
  rewrite B. simpl. rewrite D. simpl. rewrite ST. simpl.
  apply IH. intros lvr' v' I. simpl.
  destruct (H lvr' v' (or_intror I)) as [(n & In_n & In_o) Ty].
  split; [|exact Ty].
  destruct (has_output_add_input_at (Node.id node) (Graph.next_value graph)
              (Graph.nodes graph) v') as (n' & I' & O'); [eauto|].
  exists n'. split; [now apply In_insert_before|exact O'].
Qed.

(** [planMemory] raises on no graph and with no strategy: every value it
    materializes is an output of a node of the graph and has a tensor type
    with a scalar type, and the total in the storage node is the one of
    the plan, so that none of the checks on the way fails. *)
Theorem planMemory_never_raises env graph strat :
  is_ok (planMemory env graph strat) = true.
Proof.
  unfold planMemory.
  pose proof (getManagedStuff_ranges_lookup env graph) as R0.
  pose proof (@getManagedValues_entries env graph) as Ty.
  pose proof (@getManagedValues_producers env graph) as Pr.
  unfold getManagedStuff in *.
  destruct (getManagedValues env graph) as [out_nodes [sizes warnings]].
  simpl in R0, Ty, Pr.
  set (ranges0 := fold_left _ (liveness env) []) in *.
  pose proof (fun v => managedLiveRanges_fold_ranges v sizes (ranges0, [])) as R.
  fold (managedLiveRanges sizes ranges0) in R. simpl in R.
  pose proof (managedRangeValues_fold (fst (managedLiveRanges sizes ranges0)) ([], []))
    as (_ & E & _ & _ & _).
  destruct (managedLiveRanges sizes ranges0) as [ranges managed]. simpl in R, E.
  destruct (planAllocations env strat sizes ranges managed out_nodes)
    as [allocations|]; [|reflexivity].
  fold (managedRangeValues ranges) in E.
  destruct (managedRangeValues ranges) as [m w]. simpl in E.
  pose proof (storage_total_size env graph (getTotalAllocationSize allocations)) as TS.
  assert (Out : exists so, output (fst (insertAllocStorageNode env graph
                  (getTotalAllocationSize allocations))) = Ok so).
  { unfold insertAllocStorageNode. simpl.
    destruct (pickDeviceType env); simpl; eexists; reflexivity. }
  assert (Dev : exists d, attr_i (fst (insertAllocStorageNode env graph
                  (getTotalAllocationSize allocations))) "device" = Ok d).
  { unfold insertAllocStorageNode. simpl.
    destruct (pickDeviceType env); simpl; eexists; reflexivity. }
  assert (Nodes : forall n, In n (Graph.nodes graph) ->
            In n (Graph.nodes (snd (insertAllocStorageNode env graph
                    (getTotalAllocationSize allocations))))).
  { intros n I. unfold insertAllocStorageNode. simpl.
    destruct (pickDeviceType env); simpl; now right. }
  destruct (insertAllocStorageNode env graph (getTotalAllocationSize allocations))
    as [storage g1]. simpl in TS, Out, Dev, Nodes.
  destruct Out as [so Out]. destruct Dev as [d Dev].
  unfold insertAllocTensorNodes. rewrite TS. simpl.
  rewrite to_uint64_to_int64 by apply getTotalAllocationSize_u64.
  pose proof (@insertAllocTensorNodes_loop_ok env storage allocations so d
                Out Dev m g1) as L.
  destruct (insertAllocTensorNodes_loop env storage
              (getTotalAllocationSize allocations) allocations g1 m);
    [reflexivity|].
  apply L. intros lvr v I.
  destruct (E (lvr, v) I) as [[]|J]. simpl in J.
  assert (M : um_mem v sizes = true).
  { assert (F : um_find v ranges <> None).
    { intros N. apply um_find_None in N. apply N.
      change v with (fst (v, lvr)). now apply in_map. }
    rewrite R in F. destruct (um_find v ranges0) eqn:F0.
    - rewrite R0 in F0. destruct (um_mem v sizes); [reflexivity|discriminate].
    - destruct (um_mem v sizes); [reflexivity|contradiction]. }
  apply um_mem_true in M. apply in_map_iff in M.
  destruct M as ([v' sz] & Q & M). simpl in Q. subst v'.
  split.
  - destruct (Pr v sz M) as (n & In_n & _ & In_o). exists n. auto.
  - destruct (Ty (v, sz) M) as (_ & _ & ttp & st & nu & T & ST & _).
    exists ttp, st. auto.
Qed.

(* ================================================================== *)
(** ** More on the materialization in trace mode *)

Lemma without_kind_app k l1 l2 :
  without_kind k (l1 ++ l2) = without_kind k l1 ++ without_kind k l2.
Proof. apply filter_app. Qed.

Lemma count_kind_app k l1 l2 :
  count_kind k (l1 ++ l2) = (count_kind k l1 + count_kind k l2)%nat.
Proof. unfold count_kind. now rewrite filter_app, length_app. Qed.

Lemma insertPreAllocs_effect allocations lvrs : forall c,
  let c' := insertPreAllocs allocations c lvrs in
  Cursor.after c' = Cursor.after c
  /\ without_kind PreAllocateTensor (Cursor.before c')
     = without_kind PreAllocateTensor (Cursor.before c)
  /\ count_kind PreAllocateTensor (Cursor.before c')
     = (count_kind PreAllocateTensor (Cursor.before c) + List.length lvrs)%nat
  /\ Cursor.next_node c' = (Cursor.next_node c + List.length lvrs)%nat
  /\ Cursor.next_value c' = Cursor.next_value c.
Proof.
  induction lvrs as [|lvr rest IH]; simpl; intros c.
  - repeat split; lia.
  - match goal with |- context [insertPreAllocs allocations ?c1 rest] =>
      destruct (IH c1) as (A & W & C & N & V) end.
    simpl in *. rewrite A, W, C, N, V.
    rewrite without_kind_app, count_kind_app. simpl. rewrite app_nil_r.
    repeat split; try reflexivity; unfold count_kind; simpl; lia.
Qed.

(** How far the cursor goes: it steps over the nodes whose header is the
    header looked for and stops at the first node with another header. *)
Lemma advance_skips env h after : forall before b a,
  advance env h before after = Ok (b, a) ->
  exists skipped node rest,
    after = skipped ++ node :: rest
    /\ b = before ++ skipped /\ a = node :: rest
    /\ Forall (fun n => getHeader env n = h) skipped
    /\ getHeader env node <> h.
Proof.
  induction after as [|n after IH]; simpl; intros before b a; [discriminate|].
  unfold int_not. destruct (string_compare (getHeader env n) h =? 0) eqn:C.
  - intros A. apply IH in A.
    destruct A as (skipped & node & rest & -> & -> & -> & F & N).
    exists (n :: skipped), node, rest.
    rewrite <- app_assoc. repeat split; auto.
    constructor; [|exact F].
    apply Z.eqb_eq in C. now apply string_compare_zero.
  - intros [= <- <-]. exists [], n, after.
    rewrite app_nil_r. repeat split; auto.
    apply Z.eqb_neq in C. intros G. apply C. now apply string_compare_zero.
Qed.

(** What [insertPreAllocs] puts in front of the cursor: one node for each
    range, in the order of the ranges, with the next addresses. *)
Lemma insertPreAllocs_nodes allocations lvrs : forall c,
  exists fresh,
    Cursor.before (insertPreAllocs allocations c lvrs) = Cursor.before c ++ fresh
    /\ Forall2 (prealloc_for allocations) lvrs fresh
    /\ map Node.id fresh = seq (Cursor.next_node c) (List.length lvrs).
Proof.
  induction lvrs as [|lvr rest IH]; simpl; intros c.
  - exists []. rewrite app_nil_r. repeat split. constructor.
  - match goal with |- context [insertPreAllocs allocations ?c1 rest] =>
      destruct (IH c1) as (fresh & B & F & I) end.
    simpl in B, I.
    eexists (_ :: fresh). split; [|split].
    + rewrite B, <- app_assoc. reflexivity.
    + constructor; [|exact F]. repeat split; reflexivity.
    + simpl. now rewrite I.
Qed.

(** The nodes of one frame are inserted where the cursor stops: after the
    run of nodes whose header is the [node_header] of the frame, in front
    of the first node whose header differs from it; and for the insertion
    to be made the canonical schema string of that node must differ from
    the [node_header] too. What is inserted there is one
    [PreAllocateTensor] node for each range of the frame, the ranges taken
    in ascending order of [begin]: a node without inputs and outputs that
    carries the size and the offset the plan gives to its range, the nodes
    having the next free addresses. Nothing else moves. *)
Theorem insertPreAllocGroup_stops_at_another_header
  env allocations c frame_id lvrs c' :
  insertPreAllocGroup env allocations c (frame_id, lvrs) = Ok c' ->
  exists skipped node rest sorted fresh,
    Cursor.after c = skipped ++ node :: rest
    /\ Cursor.after c' = node :: rest
    /\ Forall (fun n => getHeader env n = FrameNodeId.node_header frame_id) skipped
    /\ getHeader env node <> FrameNodeId.node_header frame_id
    /\ canonicalSchemaString env node <> FrameNodeId.node_header frame_id
    /\ Permutation lvrs sorted
    /\ StronglySorted (key_le LiveRange.begin) sorted
    /\ Cursor.before c' = Cursor.before c ++ skipped ++ fresh
    /\ Forall2 (prealloc_for allocations) sorted fresh
    /\ map Node.id fresh = seq (Cursor.next_node c) (List.length lvrs)
    /\ Cursor.next_node c' = (Cursor.next_node c + List.length lvrs)%nat
    /\ Cursor.next_value c' = Cursor.next_value c.
Proof.
  unfold insertPreAllocGroup.
  destruct (advance env (FrameNodeId.node_header frame_id)
              (Cursor.before c) (Cursor.after c)) as [[b a]|] eqn:A;
    simpl; [|discriminate].
  apply advance_skips in A.
  destruct A as (skipped & node & rest & E & -> & -> & F & N).
  destruct (int_to_bool _) eqn:S; simpl; [|discriminate].
  intros [= <-].
  set (sorted := sort live_range_start_cmp lvrs).
  set (c1 := Cursor.mk (Cursor.before c ++ skipped) (node :: rest)
                       (Cursor.next_node c) (Cursor.next_value c)).
  destruct (insertPreAllocs_effect allocations sorted c1) as (A' & _ & _ & N' & V').
  destruct (insertPreAllocs_nodes allocations sorted c1) as (fresh & B & P & I).
  assert (L : List.length sorted = List.length lvrs).
  { symmetry. apply Permutation_length, sort_perm. }
  exists skipped, node, rest, sorted, fresh.
  split; [exact E|]. split; [exact A'|]. split; [exact F|]. split; [exact N|].
  split.
  { unfold int_to_bool in S. apply negb_true_iff, Z.eqb_neq in S.
    intros G. apply S. now apply string_compare_zero. }
  split; [apply sort_perm|].
  split.
  { unfold sorted. change live_range_start_cmp with (key_lt LiveRange.begin).
    apply sort_key_sorted. }
  split; [rewrite B; simpl; now rewrite <- app_assoc|].
  split; [exact P|].
  split; [now rewrite <- L|].
  split; [rewrite N', L; reflexivity|exact V'].
Qed.

Lemma insertPreAllocGroup_stops_at_another_header_witness :
  exists c' node rest fresh,
    insertPreAllocGroup (example_env (fun _ => None) []) mul_plan
      (Cursor.mk [] (Graph.nodes mul_relu) 2 2)
      (FrameNodeId.mk 1 "aten::mul" "aten::mul", [LiveRange.mk 1 5]) = Ok c'
    /\ Cursor.after c' = node :: rest
    /\ getHeader (example_env (fun _ => None) []) node <> "aten::mul"%string
    /\ List.length fresh = 1%nat
    /\ exists skipped, Cursor.before c' = [] ++ skipped ++ fresh.
Proof.
  destruct (@insertPreAllocGroup_stops_at_another_header
              (example_env (fun _ => None) []) mul_plan
              (Cursor.mk [] (Graph.nodes mul_relu) 2 2)
              (FrameNodeId.mk 1 "aten::mul" "aten::mul") [LiveRange.mk 1 5]
              _ eq_refl)
    as (skipped & node & rest & sorted & fresh
        & _ & E & _ & N & _ & _ & _ & B & _ & I & _).
  eexists. exists node, rest, fresh. split; [reflexivity|].
  split; [exact E|]. split; [exact N|].
  split; [|exists skipped; exact B].
  apply (f_equal (@List.length _)) in I.
  now rewrite length_map, length_seq in I.
Defined.

Lemma sort_length {A : Type} (lt : A -> A -> bool) l :
  List.length (sort lt l) = List.length l.
Proof. symmetry. apply Permutation_length, sort_perm. Qed.

Lemma total_ranges_perm l l' :
  Permutation l l' -> total_ranges l = total_ranges l'.
Proof.
  unfold total_ranges.
  induction 1 as [|x l l' _ IH|x y l|l l' l'' _ IH1 _ IH2]; simpl; lia.
Qed.

Lemma insertPreAllocGroups_effect env allocations items : forall c c',
  insertPreAllocGroups env allocations c items = Ok c' ->
  without_kind PreAllocateTensor (Cursor.before c' ++ Cursor.after c')
  = without_kind PreAllocateTensor (Cursor.before c ++ Cursor.after c)
  /\ count_kind PreAllocateTensor (Cursor.before c' ++ Cursor.after c')
     = (count_kind PreAllocateTensor (Cursor.before c ++ Cursor.after c)
        + total_ranges items)%nat
  /\ Cursor.next_node c' = (Cursor.next_node c + total_ranges items)%nat
  /\ Cursor.next_value c' = Cursor.next_value c.
Proof.
  induction items as [|[frame_id lvrs] rest IH]; intros c c'.
  - simpl. intros [= <-]. unfold total_ranges. simpl. repeat split; lia.
  - cbn [insertPreAllocGroups]. unfold insertPreAllocGroup.
    destruct (advance env (FrameNodeId.node_header frame_id)
                (Cursor.before c) (Cursor.after c)) as [[b a]|] eqn:A;
      cbn [bind]; [|discriminate].
    destruct a as [|node a]; [discriminate|].
    destruct (internal_assert _ _); cbn [bind]; [|discriminate].
    intros G. apply IH in G.
    apply advance_keeps_nodes in A.
    assert (TR : total_ranges ((frame_id, lvrs) :: rest)
                 = (List.length lvrs + total_ranges rest)%nat) by reflexivity.
    rewrite TR. clear TR.
    match type of G with context [insertPreAllocs allocations ?c1 ?l] =>
      destruct (insertPreAllocs_effect allocations l c1) as (A1 & W1 & C1 & N1 & V1);
      remember (insertPreAllocs allocations c1 l) as cX eqn:EX
    end.
    clear EX. simpl in A1, W1, C1, N1, V1. rewrite sort_length in C1, N1.
    destruct G as (W & C & N & V).
    split; [|split; [|split]].
    + rewrite W, without_kind_app, A1, W1, <- without_kind_app. now rewrite A.
    + rewrite C, count_kind_app, A1, C1, <- A, count_kind_app. lia.
    + lia.
    + congruence.
Qed.

Lemma insertPreAllocTensorNodes_effect
  env graph storage allocations collected g' :
  insertPreAllocTensorNodes env graph storage allocations collected = Ok g' ->
  without_kind PreAllocateTensor (Graph.nodes g')
  = without_kind PreAllocateTensor (Graph.nodes graph)
  /\ count_kind PreAllocateTensor (Graph.nodes g')
     = (count_kind PreAllocateTensor (Graph.nodes graph)
        + total_ranges collected)%nat
  /\ Graph.next_node g' = (Graph.next_node graph + total_ranges collected)%nat
  /\ Graph.next_value g' = Graph.next_value graph.
Proof.
  unfold insertPreAllocTensorNodes.
  destruct (insertPreAllocGroups env allocations _ _) as [c|] eqn:G;
    simpl; [|discriminate].
  intros [= <-]. simpl.
  apply insertPreAllocGroups_effect in G. simpl in G.
  rewrite (total_ranges_perm (sort_perm frame_node_id_cmp collected)).
  exact G.
Qed.

(** [insertPreAllocTensorNodes], when it succeeds, leaves the nodes that
    were in the graph as they were and in their order, and adds one
    [PreAllocateTensor] node for every range of every frame; it takes as
    many fresh nodes and no fresh value. *)
Theorem insertPreAllocTensorNodes_keeps_the_graph
  env graph storage allocations collected g' :
  insertPreAllocTensorNodes env graph storage allocations collected = Ok g' ->
  without_kind PreAllocateTensor (Graph.nodes g')
  = without_kind PreAllocateTensor (Graph.nodes graph)
  /\ count_kind PreAllocateTensor (Graph.nodes g')
     = (count_kind PreAllocateTensor (Graph.nodes graph)
        + total_ranges collected)%nat
  /\ Graph.next_node g' = (Graph.next_node graph + total_ranges collected)%nat
  /\ Graph.next_value g' = Graph.next_value graph.
Proof. apply insertPreAllocTensorNodes_effect. Qed.

Lemma insertPreAllocTensorNodes_keeps_the_graph_witness :
  exists g',
    insertPreAllocTensorNodes (example_env (fun _ => None) []) relu_mul
      no_storage mul_plan mul_frame = Ok g'
    /\ without_kind PreAllocateTensor (Graph.nodes g')
       = without_kind PreAllocateTensor (Graph.nodes relu_mul).
Proof.
  eexists. split; [reflexivity|].
  exact (proj1 (@insertPreAllocTensorNodes_keeps_the_graph
                  (example_env (fun _ => None) []) relu_mul no_storage
                  mul_plan mul_frame _ eq_refl)).
Defined.

(* ================================================================== *)
(** ** Grouping the live ranges by frame *)

Section PushFacts.
Context {K X : Type} {E : Eqb K} {L : EqbLaw K}.

Lemma um_push_find (k k' : K) (x : X) (m : list (K * list X)) :
  um_find k' (um_push k x m)
  = if eqb k' k
    then Some (match um_find k m with Some xs => xs ++ [x] | None => [x] end)
    else um_find k' m.
Proof.
  induction m as [|[k0 xs] m IH]; simpl.
  - destruct (eqb k' k); reflexivity.
  - destruct (eqb k k0) eqn:G; simpl.
    + apply eqb_eq in G. subst k0. destruct (eqb k' k); reflexivity.
    + rewrite IH. destruct (eqb k' k0) eqn:G0; [|reflexivity].
      apply eqb_eq in G0. subst k0.
      destruct (eqb k' k) eqn:G1; [|reflexivity].
      apply eqb_eq in G1. subst. rewrite eqb_refl in G. discriminate.
Qed.

Lemma um_push_keys (k : K) (x : X) (m : list (K * list X)) :
  map fst (um_push k x m)
  = if um_mem k m then map fst m else map fst m ++ [k].
Proof.
  unfold um_mem. induction m as [|[k0 xs] m IH]; simpl; [reflexivity|].
  destruct (eqb k k0) eqn:G; simpl; [reflexivity|].
  rewrite IH. now destruct (um_find k m).
Qed.

Lemma um_push_NoDup (k : K) (x : X) (m : list (K * list X)) :
  NoDup (map fst m) -> NoDup (map fst (um_push k x m)).
Proof.
  intros ND. rewrite um_push_keys. destruct (um_mem k m) eqn:M; [exact ND|].
  apply NoDup_app; [exact ND|repeat constructor; simpl; tauto|].
  intros y I [<-|[]]. apply um_mem_true in I. congruence.
Qed.

Lemma um_push_total (k : K) (x : X) (m : list (K * list X)) :
  list_sum (map (fun item => List.length (snd item)) (um_push k x m))
  = S (list_sum (map (fun item => List.length (snd item)) m)).
Proof.
  induction m as [|[k0 xs] m IH]; simpl; [reflexivity|].
  destruct (eqb k k0); simpl.
  - rewrite length_app. simpl. lia.
  - rewrite IH. lia.
Qed.
End PushFacts.

Lemma node_live_ranges_find fid pairs : forall acc,
  um_find fid
    (fold_left (fun m (item : LiveRange.t * FrameNodeId.t) =>
                  um_push (snd item) (fst item) m) pairs acc)
  = match um_find fid acc, ranges_of_frame fid pairs with
    | Some xs, extra => Some (xs ++ extra)
    | None, [] => None
    | None, extra => Some extra
    end.
Proof.
  unfold ranges_of_frame.
  induction pairs as [|[lvr f] pairs IH]; simpl; intros acc.
  - destruct (um_find fid acc); [now rewrite app_nil_r|reflexivity].
  - rewrite IH, um_push_find. destruct (eqb fid f) eqn:G; simpl.
    + apply eqb_eq in G. subst f.
      destruct (um_find fid acc) as [xs|]; [now rewrite <- app_assoc|reflexivity].
    + reflexivity.
Qed.

Lemma node_live_ranges_NoDup pairs : forall acc,
  NoDup (map fst acc) ->
  NoDup (map fst
    (fold_left (fun m (item : LiveRange.t * FrameNodeId.t) =>
                  um_push (snd item) (fst item) m) pairs acc)).
Proof.
  induction pairs as [|p pairs IH]; simpl; intros acc ND; [exact ND|].
  apply IH. now apply um_push_NoDup.
Qed.

Lemma node_live_ranges_total pairs : forall acc,
  total_ranges
    (fold_left (fun m (item : LiveRange.t * FrameNodeId.t) =>
                  um_push (snd item) (fst item) m) pairs acc)
  = (total_ranges acc + List.length pairs)%nat.
Proof.
  unfold total_ranges.
  induction pairs as [|p pairs IH]; simpl; intros acc; [lia|].
  rewrite IH, um_push_total. lia.
Qed.

Lemma collect_In fid lvrs pairs :
  In (fid, lvrs) (collectLiveRangesPerNode pairs)
  <-> ranges_of_frame fid pairs <> []
      /\ lvrs = sort live_range_start_cmp (ranges_of_frame fid pairs).
Proof.
  unfold collectLiveRangesPerNode. rewrite sort_In, in_map_iff.
  set (nlr := fold_left _ pairs []).
  assert (ND : NoDup (map fst nlr)) by (apply node_live_ranges_NoDup; constructor).
  assert (F : forall f, um_find f nlr
                = match ranges_of_frame f pairs with [] => None | extra => Some extra end).
  { intros f. unfold nlr. rewrite node_live_ranges_find. simpl.
    now destruct (ranges_of_frame f pairs). }
  split.
  - intros ([f xs] & Q & I). simpl in Q. inversion Q; subst. clear Q.
    apply (um_find_NoDup _ _ _ ND) in I. rewrite F in I.
    destruct (ranges_of_frame fid pairs) as [|y ys]; [discriminate|].
    inversion I; subst. split; [discriminate|reflexivity].
  - intros [NE ->]. exists (fid, ranges_of_frame fid pairs). split; [reflexivity|].
    apply um_find_In. rewrite F.
    destruct (ranges_of_frame fid pairs); [contradiction|reflexivity].
Qed.

Lemma collect_total pairs :
  total_ranges (collectLiveRangesPerNode pairs) = List.length pairs.
Proof.
  unfold collectLiveRangesPerNode.
  rewrite <- (total_ranges_perm (sort_perm frame_node_id_cmp _)).
  unfold total_ranges at 1. rewrite map_map. simpl.
  erewrite map_ext by (intros a; apply sort_length).
  apply (node_live_ranges_total pairs []).
Qed.

(** [collectLiveRangesPerNode] makes one group for every frame that has a
    range, and no other: the group of a frame holds the ranges that the
    pairs attach to this frame, each as often as it is attached, in some
    order, and nothing is lost, the groups holding as many ranges as there
    are pairs. *)
Theorem collectLiveRangesPerNode_groups_by_frame
  (pairs : list (LiveRange.t * FrameNodeId.t)) :
  NoDup (map fst (collectLiveRangesPerNode pairs))
  /\ Forall (fun g => snd g <> []
                      /\ Permutation (snd g) (ranges_of_frame (fst g) pairs))
            (collectLiveRangesPerNode pairs)
  /\ Forall (fun p => exists lvrs,
                 In (snd p, lvrs) (collectLiveRangesPerNode pairs)
                 /\ In (fst p) lvrs) pairs
  /\ total_ranges (collectLiveRangesPerNode pairs) = List.length pairs.
Proof.
  split; [|split; [|split]].
  - unfold collectLiveRangesPerNode.
    eapply Permutation_NoDup; [apply Permutation_map, sort_perm|].
    rewrite map_map. simpl.
    apply node_live_ranges_NoDup. constructor.
  - apply Forall_forall. intros [fid lvrs] I. apply collect_In in I.
    destruct I as [NE ->]. simpl.
    split; [|apply Permutation_sym, sort_perm].
    intros Q. apply NE.
    apply (f_equal (@List.length _)) in Q. rewrite sort_length in Q.
    destruct (ranges_of_frame fid pairs); [reflexivity|discriminate].
  - apply Forall_forall. intros [lvr fid] I. simpl.
    assert (J : In lvr (ranges_of_frame fid pairs)).
    { unfold ranges_of_frame. change lvr with (fst (lvr, fid)).
      apply in_map, filter_In. split; [exact I|apply eqb_refl]. }
    exists (sort live_range_start_cmp (ranges_of_frame fid pairs)). split.
    + apply collect_In. split; [|reflexivity]. intros Q. now rewrite Q in J.
    + now apply sort_In.
  - apply collect_total.
Qed.

(** The groups come out in ascending order of the time of their frame,
    and the ranges of every group in ascending order of [begin]. *)
Theorem collectLiveRangesPerNode_is_sorted
  (pairs : list (LiveRange.t * FrameNodeId.t)) :
  StronglySorted
    (key_le (fun g : FrameNodeId.t * list LiveRange.t => FrameNodeId.pc (fst g)))
    (collectLiveRangesPerNode pairs)
  /\ Forall (fun g => StronglySorted (key_le LiveRange.begin) (snd g))
            (collectLiveRangesPerNode pairs).
Proof.
  split.
  - unfold collectLiveRangesPerNode.
    change frame_node_id_cmp
      with (key_lt (fun g : FrameNodeId.t * list LiveRange.t =>
                      FrameNodeId.pc (fst g))).
    apply sort_key_sorted.
  - apply Forall_forall. intros [fid lvrs] I. apply collect_In in I.
    destruct I as [_ ->]. simpl.
    change live_range_start_cmp with (key_lt LiveRange.begin).
    apply sort_key_sorted.
Qed.

Example collect_three_pairs :
  map fst (collectLiveRangesPerNode three_pairs)
  = [FrameNodeId.mk 2 "s" "aten::relu"; FrameNodeId.mk 7 "s" "aten::mul"]
  /\ map (fun g => List.length (snd g)) (collectLiveRangesPerNode three_pairs)
     = [1%nat; 2%nat].
Proof. split; reflexivity. Qed.

(* ================================================================== *)
(** ** More on the sweep of the trace *)

(** What a step of the sweep on a [Free] event that succeeds has found
    and made. *)
Lemma process_free_Ok st f st' :
  MemEvent.type f = Free -> process_mem_event st f = Ok st' ->
  exists a,
    um_find (MemEvent.ptr_addr f) (TraceState.allocs st) = Some a
    /\ MemEvent.type a = Allocate
    /\ MemEvent.size a = MemEvent.size f
    /\ MemEvent.time a < MemEvent.time f
    /\ MemEvent.node_schema a = MemEvent.node_schema f
    /\ st' = TraceState.mk
               (um_insert (LiveRange.mk (MemEvent.time a) (MemEvent.time f))
                  (MemEvent.size a) (TraceState.managed_live_ranges st))
               (TraceState.live_range_node_header st
                ++ [(LiveRange.mk (MemEvent.time a) (MemEvent.time f),
                     FrameNodeId.mk (MemEvent.time a) (MemEvent.node_schema a)
                                    (MemEvent.node_header a))])
               (TraceState.allocs st).
Proof.
  intros T. unfold process_mem_event. rewrite T.
  destruct (internal_assert (um_mem _ _) _) as [u|]; simpl; [|discriminate].
  destruct (um_find (MemEvent.ptr_addr f) (TraceState.allocs st)) as [a|] eqn:F;
    [|discriminate].
  destruct (EventType_eqb (MemEvent.type a) Allocate) eqn:TA; simpl; [|discriminate].
  destruct (MemEvent.size a =? MemEvent.size f) eqn:S; simpl; [|discriminate].
  destruct (MemEvent.time a <? MemEvent.time f) eqn:Lt; simpl; [|discriminate].
  destruct (String.eqb (MemEvent.node_schema a) (MemEvent.node_schema f)) eqn:Sch;
    simpl; [|discriminate].
  intros [= <-]. exists a.
  apply Z.eqb_eq in S. apply Z.ltb_lt in Lt. apply String.eqb_eq in Sch.
  repeat split; auto. now destruct (MemEvent.type a).
Qed.

Lemma process_allocate_Ok st ev :
  MemEvent.type ev = Allocate ->
  process_mem_event st ev
  = Ok (TraceState.mk (TraceState.managed_live_ranges st)
                      (TraceState.live_range_node_header st)
                      (um_insert (MemEvent.ptr_addr ev) ev (TraceState.allocs st))).
Proof. intros T. unfold process_mem_event. now rewrite T. Qed.

Lemma process_mem_event_allocs_from seen st ev st' :
  allocs_from seen st -> process_mem_event st ev = Ok st' ->
  allocs_from (seen ++ [ev]) st'.
Proof.
  intros Inv P. destruct (MemEvent.type ev) eqn:T.
  - rewrite process_allocate_Ok in P by exact T. inversion P; subst. clear P.
    intros p a F. simpl in F. unfold um_insert in F.
    destruct (um_mem (MemEvent.ptr_addr ev) (TraceState.allocs st)).
    + destruct (Inv p a F) as (I & Q). split; [apply in_or_app; now left|exact Q].
    + rewrite um_find_app in F.
      destruct (um_find p (TraceState.allocs st)) as [a0|] eqn:F0.
      * inversion F; subst. destruct (Inv p a F0) as (I & Q).
        split; [apply in_or_app; now left|exact Q].
      * simpl in F. destruct (eqb p (MemEvent.ptr_addr ev)) eqn:G; [|discriminate].
        inversion F; subst. apply eqb_eq in G.
        split; [apply in_or_app; right; now left|]. split; [exact T|now symmetry].
  - apply process_free_Ok in P; [|exact T].
    destruct P as (a0 & _ & _ & _ & _ & _ & ->).
    intros p a F. simpl in F. destruct (Inv p a F) as (I & Q).
    split; [apply in_or_app; now left|exact Q].
Qed.

Lemma process_mem_events_matched evs : forall seen st st' l1 f l2,
  allocs_from seen st -> process_mem_events st evs = Ok st' ->
  evs = l1 ++ f :: l2 -> MemEvent.type f = Free ->
  exists a, In a (seen ++ l1) /\ matches a f.
Proof.
  induction evs as [|ev evs IH]; intros seen st st' l1 f l2 Inv P E T.
  - destruct l1; discriminate.
  - simpl in P. destruct (process_mem_event st ev) as [st1|] eqn:S;
      simpl in P; [|discriminate].
    destruct l1 as [|e l1]; simpl in E; inversion E; subst; clear E.
    + apply process_free_Ok in S; [|exact T].
      destruct S as (a & F & TA & Sz & Lt & Sch & _).
      destruct (Inv _ _ F) as (I & _ & Ptr).
      exists a. rewrite app_nil_r. split; [exact I|]. repeat split; auto.
    + destruct (IH (seen ++ [e]) st1 st' l1 f l2) as (a & I & M); auto.
      * eapply process_mem_event_allocs_from; eauto.
      * exists a. rewrite <- app_assoc in I. auto.
Qed.

(** When the sweep of a trace succeeds, every [Free] event of the trace
    comes after an [Allocate] event for the same pointer, of the same
    size, raised under the same schema, at an earlier time. *)
Theorem sweep_matches_every_free evs st l1 f l2 :
  process_mem_events (TraceState.mk [] [] []) evs = Ok st ->
  evs = l1 ++ f :: l2 -> MemEvent.type f = Free ->
  exists a, In a l1 /\ matches a f.
Proof.
  intros P E T.
  apply (@process_mem_events_matched evs [] (TraceState.mk [] [] []) st l1 f l2);
    auto.
  intros p a F. discriminate F.
Qed.

Lemma sweep_matches_every_free_witness :
  exists st a,
    process_mem_events (TraceState.mk [] [] [])
      [mem_event 1 "X" 16 "%1" Allocate; mem_event 5 "X" 16 "%1" Free] = Ok st
    /\ In a [mem_event 1 "X" 16 "%1" Allocate]
    /\ matches a (mem_event 5 "X" 16 "%1" Free).
Proof.
  destruct (@sweep_matches_every_free
              [mem_event 1 "X" 16 "%1" Allocate; mem_event 5 "X" 16 "%1" Free]
              _ [mem_event 1 "X" 16 "%1" Allocate]
              (mem_event 5 "X" 16 "%1" Free) [] eq_refl eq_refl eq_refl)
    as (a & I & M).
  eexists. exists a. split; [reflexivity|]. split; assumption.
Defined.

Lemma process_mem_event_emitted st ev st' :
  emitted_ok st -> process_mem_event st ev = Ok st' ->
  emitted_ok st'
  /\ List.length (TraceState.live_range_node_header st')
     = (List.length (TraceState.live_range_node_header st) + count_free [ev])%nat.
Proof.
  intros (F & ND & K) P. destruct (MemEvent.type ev) eqn:T.
  - rewrite process_allocate_Ok in P by exact T. inversion P; subst. clear P.
    unfold count_free. simpl. rewrite T. simpl.
    split; [split; [exact F|split; [exact ND|exact K]]|lia].
  - apply process_free_Ok in P; [|exact T].
    destruct P as (a & _ & _ & _ & Lt & _ & ->).
    unfold count_free, emitted_ok.
    cbn [TraceState.managed_live_ranges TraceState.live_range_node_header
         filter List.length].
    rewrite T. cbn [EventType_eqb List.length]. rewrite length_app.
    cbn [List.length].
    split; [|lia]. split; [|split].
    + apply Forall_app. split; [exact F|]. constructor; [|constructor].
      simpl. split; [exact Lt|reflexivity].
    + now apply um_insert_NoDup.
    + intros r. rewrite um_insert_keys, map_app, in_app_iff, K. simpl.
      intuition.
Qed.

Lemma process_mem_events_emitted evs : forall st st',
  emitted_ok st -> process_mem_events st evs = Ok st' ->
  emitted_ok st'
  /\ List.length (TraceState.live_range_node_header st')
     = (List.length (TraceState.live_range_node_header st) + count_free evs)%nat.
Proof.
  induction evs as [|ev evs IH]; simpl; intros st st' Inv P.
  - inversion P; subst. split; [exact Inv|unfold count_free; simpl; lia].
  - destruct (process_mem_event st ev) as [st1|] eqn:S; simpl in P; [|discriminate].
    destruct (@process_mem_event_emitted _ _ _ Inv S) as [Inv1 L1].
    destruct (IH _ _ Inv1 P) as [Inv' L'].
    split; [exact Inv'|]. rewrite L', L1. unfold count_free. simpl.
    destruct (EventType_eqb (MemEvent.type ev) Free); simpl; lia.
Qed.

(** When the sweep of a trace succeeds, it has emitted one pair for every
    [Free] event; every range emitted begins before it ends and comes with
    a frame whose time is its begin; and the ranges of the map of sizes are
    the ranges of the pairs, each once. *)
Theorem sweep_emits_one_range_per_free evs st :
  process_mem_events (TraceState.mk [] [] []) evs = Ok st ->
  emitted_ok st
  /\ List.length (TraceState.live_range_node_header st) = count_free evs.
Proof.
  intros P. apply process_mem_events_emitted in P; [exact P|].
  split; [constructor|]. split; [constructor|]. simpl. tauto.
Qed.

Lemma sweep_emits_one_range_per_free_witness :
  exists st,
    process_mem_events (TraceState.mk [] [] [])
      [mem_event 1 "X" 16 "%1" Allocate; mem_event 2 "Y" 8 "%2" Allocate;
       mem_event 5 "Y" 8 "%2" Free; mem_event 9 "X" 16 "%1" Free] = Ok st
    /\ List.length (TraceState.live_range_node_header st) = 2%nat.
Proof.
  eexists. split; [reflexivity|].
  exact (proj2 (@sweep_emits_one_range_per_free
                  [mem_event 1 "X" 16 "%1" Allocate; mem_event 2 "Y" 8 "%2" Allocate;
                   mem_event 5 "Y" 8 "%2" Free; mem_event 9 "X" 16 "%1" Free]
                  _ eq_refl)).
Defined.

Lemma process_mem_event_keeps_open st ev st' p a :
  process_mem_event st ev = Ok st' ->
  um_find p (TraceState.allocs st) = Some a ->
  um_find p (TraceState.allocs st') = Some a.
Proof.
  intros P F. destruct (MemEvent.type ev) eqn:T.
  - rewrite process_allocate_Ok in P by exact T. inversion P; subst. simpl.
    unfold um_insert. destruct (um_mem _ _); [exact F|].
    now rewrite um_find_app, F.
  - apply process_free_Ok in P; [|exact T].
    destruct P as (a0 & _ & _ & _ & _ & _ & ->). exact F.
Qed.

(** An open allocation stays as it is to the end of the sweep: no event
    releases it, and a later [Allocate] event for the same pointer does
    not take its place, so that a [Free] of a pointer that has been used
    again is checked against the first allocation. *)
Theorem sweep_keeps_open_allocations evs : forall st st' p a,
  process_mem_events st evs = Ok st' ->
  um_find p (TraceState.allocs st) = Some a ->
  um_find p (TraceState.allocs st') = Some a.
Proof.
  induction evs as [|ev evs IH]; simpl; intros st st' p a P F.
  - now inversion P; subst.
  - destruct (process_mem_event st ev) as [st1|] eqn:S; simpl in P; [|discriminate].
    eapply IH; [exact P|]. eapply process_mem_event_keeps_open; eauto.
Qed.

Lemma sweep_keeps_open_allocations_witness :
  exists st',
    process_mem_events
      (TraceState.mk [] [] [("X"%string, mem_event 1 "X" 16 "%1" Allocate)])
      [mem_event 5 "X" 16 "%1" Free; mem_event 6 "X" 32 "%3" Allocate] = Ok st'
    /\ um_find "X"%string (TraceState.allocs st')
       = Some (mem_event 1 "X" 16 "%1" Allocate).
Proof.
  eexists. split; [reflexivity|].
  exact (@sweep_keeps_open_allocations
           [mem_event 5 "X" 16 "%1" Free; mem_event 6 "X" 32 "%3" Allocate]
           (TraceState.mk [] [] [("X"%string, mem_event 1 "X" 16 "%1" Allocate)])
           _ "X"%string (mem_event 1 "X" 16 "%1" Allocate) eq_refl eq_refl).
Defined.

(** The extraction returns on the empty trace only. *)
Theorem getLiveRangesFromMemEvents_returns_on_empty_only evs :
  is_ok (getLiveRangesFromMemEvents evs) = is_empty evs.
Proof.
  destruct evs as [|ev evs]; [reflexivity|].
  apply getLiveRangesFromMemEvents_rejects. discriminate.
Qed.

(** [planMemoryWithTracing] raises on every input: on the empty trace at
    its first assertion, on any other trace in the extraction. *)
Theorem planMemoryWithTracing_always_raises env graph strat mem_events :
  is_ok (planMemoryWithTracing env graph strat mem_events) = false.
Proof.
  unfold planMemoryWithTracing. destruct mem_events as [|ev evs]; [reflexivity|].
  simpl.
  pose proof (@getLiveRangesFromMemEvents_rejects (ev :: evs)) as R.
  destruct (getLiveRangesFromMemEvents (ev :: evs)); simpl in *;
    [discriminate R; discriminate|reflexivity].
Qed.

(* ================================================================== *)
(** ** The allocator that replays a plan *)

Lemma allocate_all_app a l1 l2 :
  MemoryPlanningAllocator.allocate_all a (l1 ++ l2)
  = match MemoryPlanningAllocator.allocate_all a l1 with
    | (a1, Ok ps) =>
        match MemoryPlanningAllocator.allocate_all a1 l2 with
        | (a2, Ok qs) => (a2, Ok (ps ++ qs))
        | (a2, Err e) => (a2, Err e)
        end
    | (a1, Err e) => (a1, Err e)
    end.
Proof.
  revert a. induction l1 as [|n l1 IH]; simpl; intros a.
  - destruct (MemoryPlanningAllocator.allocate_all a l2) as [a2 [qs|e]]; reflexivity.
  - destruct (MemoryPlanningAllocator.allocate a n) as [a1 [p|e]]; [|reflexivity].
    rewrite IH.
    destruct (MemoryPlanningAllocator.allocate_all a1 l1) as [a2 [ps|e]];
      [|reflexivity].
    destruct (MemoryPlanningAllocator.allocate_all a2 l2) as [a3 [qs|e]];
      reflexivity.
Qed.

Lemma push_allocations_replay buffer_data regions : forall a a',
  MemoryPlanningAllocator.push_allocations a buffer_data
    (MemoryPlanningAllocator.device_type_ a) regions = Ok a' ->
  MemoryPlanningAllocator.device_type_ a' = MemoryPlanningAllocator.device_type_ a
  /\ MemoryPlanningAllocator.allocate_all a' (map Region.size (rev regions))
     = (a, Ok (map (fun r =>
                      DataPtr.mk (buffer_data + Region.offset r)
                                 (buffer_data + Region.offset r)
                                 (MemoryPlanningAllocator.device_type_ a))
                   (rev regions))).
Proof.
  induction regions as [|r rest IH]; simpl; intros a a'.
  - intros [= <-]. split; reflexivity.
  - unfold MemoryPlanningAllocator.push_allocation at 1.
    rewrite Z.eqb_refl. simpl. intros P.
    apply (IH (MemoryPlanningAllocator.mk (MemoryPlanningAllocator.device_type_ a)
                 ((Region.size r, buffer_data + Region.offset r)
                  :: MemoryPlanningAllocator.allocs_ a))) in P.
    simpl in P. destruct P as [D R].
    split; [exact D|].
    rewrite !map_app, allocate_all_app, R. simpl.
    rewrite Z.eqb_refl. simpl. destruct a as [d s]. reflexivity.
Qed.

(** The allocator hands out what was pushed, last pushed first: after the
    regions of a plan have been pushed for the device of the allocator,
    asking for their sizes in the reverse order returns, for each region,
    the address of the buffer plus the offset of the region, and leaves the
    allocator as it was before the pushes. *)
Theorem MemoryPlanningAllocator_replays_last_in_first_out
  a buffer_data device_type regions a' :
  device_type = MemoryPlanningAllocator.device_type_ a ->
  MemoryPlanningAllocator.push_allocations a buffer_data device_type regions
  = Ok a' ->
  MemoryPlanningAllocator.allocate_all a' (map Region.size (rev regions))
  = (a, Ok (map (fun r =>
                   DataPtr.mk (buffer_data + Region.offset r)
                              (buffer_data + Region.offset r)
                              (MemoryPlanningAllocator.device_type_ a))
                (rev regions))).
Proof.
  intros -> P. now apply push_allocations_replay in P.
Qed.

Lemma MemoryPlanningAllocator_replays_last_in_first_out_witness :
  exists a',
    (0 = MemoryPlanningAllocator.device_type_ idle_allocator
     /\ MemoryPlanningAllocator.push_allocations idle_allocator 4096 0 two_regions
        = Ok a')
    /\ MemoryPlanningAllocator.allocate_all a' [40; 100]
       = (idle_allocator, Ok [DataPtr.mk 4196 4196 0; DataPtr.mk 4096 4096 0]).
Proof.
  eexists. split; [split; reflexivity|].
  exact (@MemoryPlanningAllocator_replays_last_in_first_out idle_allocator 4096
           0 two_regions _ eq_refl eq_refl).
Defined.

(* ================================================================== *)
(** ** The entry points and the nodes of the graph *)

Lemma planAllocations_Some env strat sizes ranges managed out_nodes :
  strat <> NAIVE ->
  exists allocations,
    planAllocations env strat sizes ranges managed out_nodes = Some allocations.
Proof. destruct strat; [contradiction|eexists; reflexivity..]. Qed.

(** When [planMemory] plans, the graph it returns is, the [AllocateTensor]
    nodes aside, the graph it was given with one [AllocateStorage] node in
    front. The [total_size] of that node is the total of the plan that the
    [switch] has taken from the heuristic, and reading it back as an
    unsigned integer gives that total. The nodes of the graph are all
    there, in their order, with their kind, outputs and attributes, and
    with inputs only added. *)
Theorem planMemory_keeps_the_graph env graph strat g' warnings :
  strat <> NAIVE ->
  planMemory env graph strat = Ok (g', warnings) ->
  exists allocations storage rest,
    planned_allocations env graph strat = Some allocations
    /\ without_kind AllocateTensor (Graph.nodes g') = storage :: rest
    /\ Node.kind storage = AllocateStorage
    /\ attr_i storage "total_size"
       = Ok (to_int64 (getTotalAllocationSize allocations))
    /\ to_uint64 (to_int64 (getTotalAllocationSize allocations))
       = getTotalAllocationSize allocations
    /\ Forall2 gains_inputs (without_kind AllocateTensor (Graph.nodes graph)) rest.
Proof.
  intros N. unfold planMemory, planned_allocations.
  destruct (getManagedStuff env graph) as [[[out_nodes sizes] ranges0] w0].
  destruct (managedLiveRanges sizes ranges0) as [ranges managed].
  destruct (planAllocations_Some env sizes ranges managed out_nodes N)
    as [allocations ->].
  destruct (managedRangeValues ranges) as [m w1].
  assert (G1 : exists storage,
            insertAllocStorageNode env graph (getTotalAllocationSize allocations)
            = (storage, Graph.mk (storage :: Graph.nodes graph)
                                 (S (Graph.next_node graph))
                                 (Graph.next_value graph + 1)%nat)
            /\ Node.kind storage = AllocateStorage
            /\ attr_i storage "total_size"
               = Ok (to_int64 (getTotalAllocationSize allocations))).
  { unfold insertAllocStorageNode. simpl.
    destruct (pickDeviceType env); eexists; repeat split; reflexivity. }
  destruct G1 as (storage & -> & K & TS).
  destruct (insertAllocTensorNodes env _ storage allocations m) as [g2|] eqn:L;
    simpl; [|discriminate].
  intros [= <- <-].
  apply insertAllocTensorNodes_keeps in L. destruct L as [F _].
  unfold without_kind in F at 1. simpl in F. rewrite K in F. simpl in F.
  inversion F as [|s s' l l' GS FR]; subst.
  exists allocations, s', l'.
  destruct GS as (_ & K' & _ & A' & _).
  split; [reflexivity|]. split; [reflexivity|]. split; [congruence|].
  split; [unfold attr_i; rewrite A'; exact TS|].
  split; [apply to_uint64_to_int64, getTotalAllocationSize_u64|exact FR].
Qed.

Lemma planMemory_keeps_the_graph_witness :
  exists g' warnings storage rest,
    (LINEAR_SCAN <> NAIVE
     /\ planMemory twin_env twin_graph LINEAR_SCAN = Ok (g', warnings))
    /\ without_kind AllocateTensor (Graph.nodes g') = storage :: rest
    /\ attr_i storage "total_size" = Ok 8
    /\ Forall2 gains_inputs
         (without_kind AllocateTensor (Graph.nodes twin_graph)) rest.
Proof.
  assert (N : LINEAR_SCAN <> NAIVE) by discriminate.
  destruct (@planMemory_keeps_the_graph twin_env twin_graph LINEAR_SCAN _ _ N
              eq_refl) as (allocations & storage & rest & P & E & _ & T & _ & F).
  eexists. eexists. exists storage, rest.
  split; [split; [exact N|reflexivity]|]. split; [exact E|].
  split; [|exact F].
  assert (A : allocations = twin_plan).
  { vm_compute in P. inversion P. reflexivity. }
  rewrite A in T. exact T.
Defined.

(* ================================================================== *)
(** ** Which values are managed, and which raise a warning *)

Lemma manageOutput_keeps env node acc v :
  (forall x, In x (map fst (fst acc)) ->
             In x (map fst (fst (manageOutput env node acc v))))
  /\ (forall w, In w (snd acc) -> In w (snd (manageOutput env node acc v))).
Proof.
  unfold manageOutput. destruct acc as [sizes warnings]. simpl.
  destruct (existsb (Nat.eqb v) (always_alive env)); [tauto|].
  destruct (computeStorageSize env v) as [[sz|] w].
  - destruct (0 <? sz); simpl.
    + split; [intros x I; apply um_insert_keys; tauto|intros x I; apply in_or_app; tauto].
    + destruct (isOptimizableContainerType env node); simpl;
        (split; [tauto|intros x I; apply in_or_app; tauto]).
  - destruct (isOptimizableContainerType env node); simpl;
      (split; [tauto|intros x I; apply in_or_app; tauto]).
Qed.

Lemma manageOutputs_keep env node outs : forall acc,
  (forall x, In x (map fst (fst acc)) ->
             In x (map fst (fst (fold_left (manageOutput env node) outs acc))))
  /\ (forall w, In w (snd acc) ->
                In w (snd (fold_left (manageOutput env node) outs acc))).
Proof.
  induction outs as [|v outs IH]; simpl; intros acc; [tauto|].
  destruct (IH (manageOutput env node acc v)) as [K W].
  destruct (manageOutput_keeps env node acc v) as [K0 W0].
  split; auto.
Qed.

Lemma getManagedValues_loop_keeps env ns : forall out_nodes acc,
  (forall x, In x (map fst (fst acc)) ->
     In x (map fst (fst (snd (getManagedValues_loop env ns out_nodes acc)))))
  /\ (forall w, In w (snd acc) ->
        In w (snd (snd (getManagedValues_loop env ns out_nodes acc)))).
Proof.
  induction ns as [|node ns IH]; simpl; intros out_nodes acc; [tauto|].
  destruct (hasOutVariant env node); [|apply IH].
  destruct (IH (out_nodes ++ [node])
               (fold_left (manageOutput env node) (Node.outputs node) acc)) as [K W].
  destruct (manageOutputs_keep env node (Node.outputs node) acc) as [K0 W0].
  split; auto.
Qed.

(** What the inner loop does with one output that is not always alive:
    it enters the value among the sizes when its size is known and
    positive, and warns when it is not and the node is no container. *)
Lemma manageOutput_here env node acc v :
  existsb (Nat.eqb v) (always_alive env) = false ->
  match fst (computeStorageSize env v) with
  | Some sz =>
      if 0 <? sz then In v (map fst (fst (manageOutput env node acc v)))
      else isOptimizableContainerType env node = false ->
           In (WarnUnsupportedValue v) (snd (manageOutput env node acc v))
  | None =>
      isOptimizableContainerType env node = false ->
      In (WarnUnsupportedValue v) (snd (manageOutput env node acc v))
  end.
Proof.
  intros A. unfold manageOutput. destruct acc as [sizes warnings]. rewrite A.
  destruct (computeStorageSize env v) as [[sz|] w]; simpl.
  - destruct (0 <? sz); simpl.
    + apply um_insert_keys. now left.
    + intros ->. simpl. rewrite !in_app_iff. simpl. tauto.
  - intros ->. simpl. rewrite !in_app_iff. simpl. tauto.
Qed.

Lemma manageOutputs_here env node outs v : forall acc,
  In v outs -> existsb (Nat.eqb v) (always_alive env) = false ->
  match fst (computeStorageSize env v) with
  | Some sz =>
      if 0 <? sz
      then In v (map fst (fst (fold_left (manageOutput env node) outs acc)))
      else isOptimizableContainerType env node = false ->
           In (WarnUnsupportedValue v)
              (snd (fold_left (manageOutput env node) outs acc))
  | None =>
      isOptimizableContainerType env node = false ->
      In (WarnUnsupportedValue v)
         (snd (fold_left (manageOutput env node) outs acc))
  end.
Proof.
  induction outs as [|o outs IH]; simpl; intros acc I A; [destruct I|].
  destruct I as [->|I]; [|now apply IH].
  pose proof (manageOutput_here env node acc v A) as H.
  destruct (manageOutputs_keep env node outs (manageOutput env node acc v)) as [K W].
  destruct (fst (computeStorageSize env v)) as [sz|]; [destruct (0 <? sz)|]; auto.
Qed.

Lemma getManagedValues_loop_here env ns node v : forall out_nodes acc,
  In node ns -> hasOutVariant env node = true -> In v (Node.outputs node) ->
  existsb (Nat.eqb v) (always_alive env) = false ->
  match fst (computeStorageSize env v) with
  | Some sz =>
      if 0 <? sz
      then In v (map fst (fst (snd (getManagedValues_loop env ns out_nodes acc))))
      else isOptimizableContainerType env node = false ->
           In (WarnUnsupportedValue v)
              (snd (snd (getManagedValues_loop env ns out_nodes acc)))
  | None =>
      isOptimizableContainerType env node = false ->
      In (WarnUnsupportedValue v)
         (snd (snd (getManagedValues_loop env ns out_nodes acc)))
  end.
Proof.
  induction ns as [|n ns IH]; simpl; intros out_nodes acc I H O A; [destruct I|].
  destruct I as [->|I].
  - rewrite H.
    pose proof (manageOutputs_here env node (Node.outputs node) v acc O A) as M.
    destruct (getManagedValues_loop_keeps env ns (out_nodes ++ [node])
                (fold_left (manageOutput env node) (Node.outputs node) acc))
      as [K W].
    destruct (fst (computeStorageSize env v)) as [sz|]; [destruct (0 <? sz)|]; auto.
  - destruct (hasOutVariant env n); now apply IH.
Qed.

(** Every output of a node with an out variant that is not always alive
    and whose storage size is known and positive is managed, with that
    size. *)
Theorem getManagedValues_manages_every_sized_output env graph node v sz :
  In node (Graph.nodes graph) -> hasOutVariant env node = true ->
  In v (Node.outputs node) ->
  existsb (Nat.eqb v) (always_alive env) = false ->
  fst (computeStorageSize env v) = Some sz -> 0 < sz ->
  In (v, sz) (fst (snd (getManagedValues env graph))).
Proof.
  intros I H O A C P.
  pose proof (getManagedValues_loop_here env (Graph.nodes graph) node v []
                ([], []) I H O A) as M.
  rewrite C in M. apply Z.ltb_lt in P. rewrite P in M.
  fold (getManagedValues env graph) in M.
  apply in_map_iff in M. destruct M as ([v' sz'] & Q & M). simpl in Q. subst v'.
  pose proof (getManagedValues_entries env graph _ M) as (_ & _ & T).
  destruct T as (ttp & st & n & VT & ST & _ & NU & E). simpl in *.
  destruct (computeStorageSize env v) as [o w] eqn:CS. simpl in C. subst o.
  apply computeStorageSize_Some in CS.
  destruct CS as (_ & ttp' & st' & n' & VT' & ST' & _ & NU' & E').
  rewrite VT in VT'. inversion VT'; subst ttp'.
  rewrite ST in ST'. inversion ST'; subst st'.
  rewrite NU in NU'. inversion NU'; subst n'.
  rewrite <- E in E'. now subst.
Qed.

Lemma getManagedValues_manages_every_sized_output_witness :
  exists node,
    (In node (Graph.nodes twin_graph) /\ hasOutVariant twin_env node = true
     /\ In 0%nat (Node.outputs node)
     /\ existsb (Nat.eqb 0%nat) (always_alive twin_env) = false
     /\ fst (computeStorageSize twin_env 0%nat) = Some 16 /\ 0 < 16)
    /\ In (0%nat, 16) (fst (snd (getManagedValues twin_env twin_graph))).
Proof.
  exists (Node.mk 0 (OpKind "aten::std_mean") [] [0%nat; 1%nat] []).
  assert (I : In (Node.mk 0 (OpKind "aten::std_mean") [] [0%nat; 1%nat] [])
                 (Graph.nodes twin_graph)) by (now left).
  assert (O : In 0%nat [0%nat; 1%nat]) by (now left).
  assert (P : 0 < 16) by lia.
  split; [repeat split; assumption|].
  exact (@getManagedValues_manages_every_sized_output twin_env twin_graph
           _ 0%nat 16 I eq_refl O eq_refl eq_refl P).
Defined.

(** An output of a node with an out variant that is not always alive and
    whose storage size is unknown or zero is left to the default
    allocator, and unless the node is an optimizable container a warning
    names the value. *)
Theorem getManagedValues_warns_of_every_unsized_output env graph node v :
  In node (Graph.nodes graph) -> hasOutVariant env node = true ->
  In v (Node.outputs node) ->
  existsb (Nat.eqb v) (always_alive env) = false ->
  isOptimizableContainerType env node = false ->
  (forall sz, fst (computeStorageSize env v) = Some sz -> sz <= 0) ->
  In (WarnUnsupportedValue v) (snd (snd (getManagedValues env graph))).
Proof.
  intros I H O A NC U.
  pose proof (getManagedValues_loop_here env (Graph.nodes graph) node v []
                ([], []) I H O A) as M.
  fold (getManagedValues env graph) in M.
  destruct (fst (computeStorageSize env v)) as [sz|]; [|now apply M].
  specialize (U sz eq_refl).
  destruct (0 <? sz) eqn:P; [apply Z.ltb_lt in P; lia|now apply M].
Qed.

Lemma getManagedValues_warns_of_every_unsized_output_witness :
  exists node,
    (In node (Graph.nodes relu_mul)
     /\ hasOutVariant (example_env (fun _ => None) []) node = true
     /\ In 0%nat (Node.outputs node)
     /\ existsb (Nat.eqb 0%nat) (always_alive (example_env (fun _ => None) [])) = false
     /\ isOptimizableContainerType (example_env (fun _ => None) []) node = false
     /\ (forall sz, fst (computeStorageSize (example_env (fun _ => None) []) 0%nat)
                    = Some sz -> sz <= 0))
    /\ In (WarnUnsupportedValue 0%nat)
          (snd (snd (getManagedValues (example_env (fun _ => None) []) relu_mul))).
Proof.
  exists (Node.mk 0 (OpKind "aten::relu") [] [0%nat] []).
  assert (I : In (Node.mk 0 (OpKind "aten::relu") [] [0%nat] [])
                 (Graph.nodes relu_mul)) by (now left).
  assert (O : In 0%nat [0%nat]) by (now left).
  assert (U : forall sz,
            fst (computeStorageSize (example_env (fun _ => None) []) 0%nat)
            = Some sz -> sz <= 0) by (intros sz Q; discriminate Q).
  split; [repeat split; assumption|].
  exact (@getManagedValues_warns_of_every_unsized_output
           (example_env (fun _ => None) []) relu_mul _ 0%nat
           I eq_refl O eq_refl eq_refl U).
Defined.
